(** * Quantum.Qiskit: circuits of the example drivers and the statevector
    engine they run on.

    The drivers under [src/] build circuits through the [QuantumCircuit]
    interface and hand them to a simulator.  This development embeds

    - the circuit data model and the builder calls the drivers use,
    - the dense statevector update rule and the measurement sampler,
    - the driver programs themselves ([entanglement.py],
      [deutsch_algorithm.py], [grover_algorithm.py], [shor_algorithm.py],
      [simon_algorithm.py]),

    and proves the properties stated about them.  Amplitudes are exact
    complex numbers over the real numbers of the Standard Library. *)

From Stdlib Require Import String Ascii ZArith.
From Stdlib Require Import Reals Lra Lia Arith PeanoNat Bool.
From Stdlib Require Import List Permutation.
Import ListNotations.

(* ================================================================= *)
(** ** Complex amplitudes *)

Definition C : Type := (R * R)%type.

Definition RtoC (x : R) : C := (x, 0%R).
Definition Czero : C := RtoC 0.
Definition Cone : C := RtoC 1.
Definition Cplus (a b : C) : C := (fst a + fst b, snd a + snd b)%R.
Definition Copp (a : C) : C := (- fst a, - snd a)%R.
Definition Cminus (a b : C) : C := Cplus a (Copp b).
Definition Cmult (a b : C) : C :=
  (fst a * fst b - snd a * snd b, fst a * snd b + snd a * fst b)%R.
Definition Cconj (a : C) : C := (fst a, - snd a)%R.

(** Squared magnitude, the Born weight of an amplitude. *)
Definition Cnorm2 (a : C) : R := (fst a * fst a + snd a * snd a)%R.

(** [Cexp theta] is the unit phase e^(i theta). *)
Definition Cexp (theta : R) : C := (cos theta, sin theta).

Declare Scope C_scope.
Delimit Scope C_scope with C.
Bind Scope C_scope with C.
Notation "a + b" := (Cplus a b) : C_scope.
Notation "a * b" := (Cmult a b) : C_scope.
Notation "a - b" := (Cminus a b) : C_scope.
Notation "- a" := (Copp a) : C_scope.

(** Finite sums over the index range [0, n). *)
Fixpoint Csum (f : nat -> C) (n : nat) : C :=
  match n with
  | O => Czero
  | S n' => Cplus (Csum f n') (f n')
  end.

Fixpoint Rsum (f : nat -> R) (n : nat) : R :=
  match n with
  | O => 0%R
  | S n' => (Rsum f n' + f n')%R
  end.

(** Sum of a list of reals, used to reorder finite sums. *)
Definition Rlist_sum (l : list R) : R := fold_right Rplus 0%R l.

(* ================================================================= *)
(** ** Basis-state indices

    Qubit [q] is bit [q] of the basis-state integer (little-endian). *)

Definition assign_bit (i q : nat) (b : bool) : nat :=
  if b then Nat.setbit i q else Nat.clearbit i q.

Definition flip_bit (q i : nat) : nat :=
  assign_bit i q (negb (Nat.testbit i q)).

(** The index reached from [i] by flipping the qubits [qs]. *)
Definition flip_all (qs : list nat) (i : nat) : nat :=
  fold_right flip_bit i qs.

(** The bits of [i] at the positions [ts], packed into a number whose bit
    [j] is bit [ts_j] of [i]. *)
Fixpoint gather (ts : list nat) (i : nat) : nat :=
  match ts with
  | [] => 0
  | t :: ts' => Nat.b2n (Nat.testbit i t) + 2 * gather ts' i
  end.

(** [i] with the bit at position [ts_j] replaced by bit [j] of [k]. *)
Fixpoint scatter (ts : list nat) (k i : nat) : nat :=
  match ts with
  | [] => i
  | t :: ts' => scatter ts' (Nat.div2 k) (assign_bit i t (Nat.odd k))
  end.

Definition all_set (cs : list nat) (i : nat) : bool :=
  forallb (Nat.testbit i) cs.

(* ================================================================= *)
(** ** GateLibrary *)

(** A matrix is read by row and column; entries outside the block a gate
    acts on are never consulted. *)
Definition matrix : Type := nat -> nat -> C.

Definition mat2 (a b c d : C) : matrix :=
  fun r k =>
    match r, k with
    | 0, 0 => a
    | 0, 1 => b
    | 1, 0 => c
    | 1, 1 => d
    | _, _ => Czero
    end.

Definition inv_sqrt2 : C := RtoC (/ sqrt 2).

Definition I_matrix : matrix := mat2 Cone Czero Czero Cone.
Definition X_matrix : matrix := mat2 Czero Cone Cone Czero.
Definition Z_matrix : matrix := mat2 Cone Czero Czero (Copp Cone).
Definition H_matrix : matrix :=
  mat2 inv_sqrt2 inv_sqrt2 inv_sqrt2 (Copp inv_sqrt2).
Definition phase_matrix (theta : R) : matrix :=
  mat2 Cone Czero Czero (Cexp theta).

Inductive Axis : Type := AxisX | AxisY | AxisZ.

Definition rotation_matrix (ax : Axis) (theta : R) : matrix :=
  let c := cos (theta / 2) in
  let s := sin (theta / 2) in
  match ax with
  | AxisX => mat2 (c, 0%R) (0%R, (- s)%R) (0%R, (- s)%R) (c, 0%R)
  | AxisY => mat2 (c, 0%R) ((- s)%R, 0%R) (s, 0%R) (c, 0%R)
  | AxisZ => mat2 (Cexp (- (theta / 2))) Czero Czero (Cexp (theta / 2))
  end.

(** SWAP on the pair (a, b): block index a + 2 b. *)
Definition swap_index (k : nat) : nat :=
  match k with
  | 1 => 2
  | 2 => 1
  | _ => k
  end.

Definition SWAP_matrix : matrix :=
  fun r k => if r =? swap_index k then Cone else Czero.

(** CNOT on the pair (control, target): block index control + 2 target. *)
Definition cnot_index (k : nat) : nat :=
  match k with
  | 1 => 3
  | 3 => 1
  | _ => k
  end.

Definition CNOT_matrix : matrix :=
  fun r k => if r =? cnot_index k then Cone else Czero.

(** Conjugate transpose. *)
Definition adjoint (U : matrix) : matrix := fun r k => Cconj (U k r).

Definition kronecker (r k : nat) : C := if r =? k then Cone else Czero.

(** Product of two blocks of [w] qubits, entry by entry. *)
Definition mat_mult (w : nat) (A B : matrix) : matrix :=
  fun r k => Csum (fun j => Cmult (A r j) (B j k)) (2 ^ w).

(** [A] is a left inverse of [B] on [w] qubits. *)
Definition left_inverse (w : nat) (A B : matrix) : Prop :=
  forall r k, r < 2 ^ w -> k < 2 ^ w -> mat_mult w A B r k = kronecker r k.

(** Unitarity in the form the gate library promises: U^dagger U = I. *)
Definition unitary (w : nat) (U : matrix) : Prop :=
  left_inverse w (adjoint U) U.

(* ================================================================= *)
(** ** CircuitModel *)

(** The single-qubit primitives the library names. *)
Inductive Primitive1 : Type := Hadamard | PauliX | PauliZ | Identity.

Definition primitive1_matrix (g : Primitive1) : matrix :=
  match g with
  | Hadamard => H_matrix
  | PauliX => X_matrix
  | PauliZ => Z_matrix
  | Identity => I_matrix
  end.

Inductive Operation : Type :=
| Named (g : Primitive1) (q : nat)
| Single (U : matrix) (q : nat)
| CNOT (control target : nat)
| SWAP (a b : nat)
| CPhase (theta : R) (control target : nat)
| Rotation (ax : Axis) (theta : R) (q : nat)
| MCX (controls : list nat) (target : nat)
| Custom (U : matrix) (qs : list nat)
| Barrier.

Record CircuitModel : Type := mkCircuit {
  num_qubits : nat;
  num_clbits : nat;
  operations : list Operation;
  measurements : list (nat * nat)
}.

(** What the engine needs of an operation: control qubits, target tuple
    and the block applied to the targets.  A barrier has none. *)
Definition primitive (op : Operation)
  : option (list nat * list nat * matrix) :=
  match op with
  | Named g q => Some ([], [q], primitive1_matrix g)
  | Single U q => Some ([], [q], U)
  | CNOT c t => Some ([c], [t], X_matrix)
  | SWAP a b => Some ([], [a; b], SWAP_matrix)
  | CPhase theta c t => Some ([c], [t], phase_matrix theta)
  | Rotation ax theta q => Some ([], [q], rotation_matrix ax theta)
  | MCX cs t => Some (cs, [t], X_matrix)
  | Custom U qs => Some ([], qs, U)
  | Barrier => None
  end.

Definition op_qubits (op : Operation) : list nat :=
  match primitive op with
  | Some (cs, ts, _) => cs ++ ts
  | None => []
  end.

(** Data-model invariant of an operation on a register of [n] qubits:
    indices below [n], qubits of one operation pairwise distinct (so
    controls and targets are disjoint), and a unitary block. *)
Definition valid_op (n : nat) (op : Operation) : Prop :=
  match primitive op with
  | Some (cs, ts, U) =>
      Forall (fun q => q < n) (cs ++ ts) /\ NoDup (cs ++ ts) /\
      unitary (length ts) U
  | None => True
  end.

Definition valid_circuit (qc : CircuitModel) : Prop :=
  Forall (valid_op (num_qubits qc)) (operations qc).

(** The index conditions alone. *)
Definition wf_op (n : nat) (op : Operation) : Prop :=
  Forall (fun q => q < n) (op_qubits op) /\ NoDup (op_qubits op).

(** Boolean form of the index conditions, as checked when an operation
    is appended. *)
Fixpoint distinct (l : list nat) : bool :=
  match l with
  | [] => true
  | a :: l' => negb (existsb (Nat.eqb a) l') && distinct l'
  end.

Definition indices_ok (n : nat) (qs : list nat) : bool :=
  forallb (fun q => q <? n) qs && distinct qs.

(* ================================================================= *)
(** ** Errors *)

Inductive exn : Type :=
| CircuitError
| ValueError (msg : string)
| IndexError
| QiskitError.

Inductive result (A : Type) : Type :=
| Ok (a : A)
| Raise (e : exn).

Arguments Ok {A} a.
Arguments Raise {A} e.

Definition bind {A B : Type} (r : result A) (f : A -> result B)
  : result B :=
  match r with
  | Ok a => f a
  | Raise e => Raise e
  end.

Notation "r >>= f" := (bind r f) (at level 50, left associativity).

(** [for x in xs: body x] over a threaded value. *)
Fixpoint for_each {A S : Type} (xs : list A) (body : A -> S -> result S)
  (s : S) {struct xs} : result S :=
  match xs with
  | [] => Ok s
  | x :: xs' => body x s >>= for_each xs' body
  end.

(* ================================================================= *)
(** ** The QuantumCircuit interface used by the drivers

    A call mutates the circuit object in the source; here it returns the
    updated circuit, or raises. *)

Module QC.

Definition new (n m : nat) : result CircuitModel :=
  Ok (mkCircuit n m [] []).

Definition append (op : Operation) (qc : CircuitModel)
  : result CircuitModel :=
  if indices_ok (num_qubits qc) (op_qubits op)
  then Ok (mkCircuit (num_qubits qc) (num_clbits qc)
             (operations qc ++ [op]) (measurements qc))
  else Raise CircuitError.

Definition h (q : nat) := append (Named Hadamard q).
Definition x (q : nat) := append (Named PauliX q).
Definition cx (c t : nat) := append (CNOT c t).
Definition swap (a b : nat) := append (SWAP a b).
Definition barrier := append Barrier.
Definition z (q : nat) := append (Named PauliZ q).
Definition id (q : nat) := append (Named Identity q).

(** A controlled gate needs at least one control. *)
Definition mcx (cs : list nat) (t : nat) (qc : CircuitModel)
  : result CircuitModel :=
  match cs with
  | [] => Raise CircuitError
  | _ => append (MCX cs t) qc
  end.

Definition measure (q b : nat) (qc : CircuitModel) : result CircuitModel :=
  if (q <? num_qubits qc) && (b <? num_clbits qc)
  then Ok (mkCircuit (num_qubits qc) (num_clbits qc) (operations qc)
             (measurements qc ++ [(q, b)]))
  else Raise CircuitError.

(** [qc.h(range(n))], [qc.measure(range(n), range(n))]. *)
Definition h_all (qs : list nat) := for_each qs h.
Definition measure_all (qs bs : list nat) :=
  for_each (combine qs bs) (fun qb => measure (fst qb) (snd qb)).

Definition rename (mapping : list nat) (q : nat) : nat := nth q mapping q.

Definition rename_op (mapping : list nat) (op : Operation) : Operation :=
  let f := rename mapping in
  match op with
  | Named g q => Named g (f q)
  | Single U q => Single U (f q)
  | CNOT c t => CNOT (f c) (f t)
  | SWAP a b => SWAP (f a) (f b)
  | CPhase theta c t => CPhase theta (f c) (f t)
  | Rotation ax theta q => Rotation ax theta (f q)
  | MCX cs t => MCX (map f cs) (f t)
  | Custom U qs => Custom U (map f qs)
  | Barrier => Barrier
  end.

(** [qc.append(sub, mapping)]: the operations of [sub], renamed through
    [mapping], are spliced in as copies. *)
Definition append_circuit (sub : CircuitModel) (mapping : list nat)
  (qc : CircuitModel) : result CircuitModel :=
  if length mapping =? num_qubits sub
  then for_each (map (rename_op mapping) (operations sub)) append qc
  else Raise CircuitError.

End QC.

(* ================================================================= *)
(** ** StatevectorEngine *)

(** A dense vector of 2^n amplitudes, indexed by basis-state integer. *)
Definition Statevector : Type := list C.

Definition amp (v : Statevector) (i : nat) : C := nth i v Czero.

(** Modelled from the spec: the simulator the drivers call
    ([AerSimulator]) is not part of the repository; this is the update
    rule described for the statevector engine.  For a block on the target
    tuple [ts] the amplitudes that differ from [i] only in the target
    bits are combined through the row of the block selected by the target
    bits of [i]; indices with a control bit at 0 keep their amplitude. *)
Definition update (cs ts : list nat) (U : matrix) (psi : nat -> C)
  (i : nat) : C :=
  if all_set cs i
  then Csum (fun k => Cmult (U (gather ts i) k) (psi (scatter ts k i)))
            (2 ^ length ts)
  else psi i.

Definition apply_primitive (cs ts : list nat) (U : matrix)
  (v : Statevector) : Statevector :=
  map (update cs ts U (amp v)) (seq 0 (length v)).

Definition apply_op (op : Operation) (v : Statevector) : Statevector :=
  match primitive op with
  | Some (cs, ts, U) => apply_primitive cs ts U v
  | None => v
  end.

Definition run_ops (ops : list Operation) (v : Statevector) : Statevector :=
  fold_left (fun v' op => apply_op op v') ops v.

(** The computational basis state of index [x] on [n] qubits. *)
Definition basis (n x : nat) : Statevector :=
  map (fun i => if i =? x then Cone else Czero) (seq 0 (2 ^ n)).

Definition initial_state (n : nat) : Statevector := basis n 0.

Definition simulate (qc : CircuitModel) : Statevector :=
  run_ops (operations qc) (initial_state (num_qubits qc)).

Definition norm2 (v : Statevector) : R :=
  Rsum (fun i => Cnorm2 (amp v i)) (length v).

Definition scale (c : C) (v : Statevector) : Statevector :=
  map (Cmult c) v.

(** Distance between two amplitude vectors: the largest squared
    magnitude of a componentwise difference is bounded by the sum. *)
Definition dist2 (u v : Statevector) : R :=
  Rsum (fun i => Cnorm2 (Cminus (amp u i) (amp v i))) (length u).

(** The update rule on amplitude functions, with which the vector-level
    engine agrees on the indices of the register. *)
Definition apply_fn (op : Operation) (psi : nat -> C) : nat -> C :=
  match primitive op with
  | Some (cs, ts, U) => update cs ts U psi
  | None => psi
  end.

Definition run_fn (ops : list Operation) (psi : nat -> C) : nat -> C :=
  fold_left (fun psi' op => apply_fn op psi') ops psi.

(** The amplitude function of the basis state of index [x]. *)
Definition ket (x : nat) : nat -> C :=
  fun i => if i =? x then Cone else Czero.

(** A phase flip of the amplitudes at one basis index. *)
Definition phase_flip (marked : nat) (psi : nat -> C) : nat -> C :=
  fun i => if i =? marked then Copp (psi i) else psi i.

(* ================================================================= *)
(** ** TransformLibrary *)

(** Modelled from the spec: [QFT] comes from the circuit library the
    drivers import ([qiskit.circuit.library]), not from the repository.
    Hadamard on the most significant qubit of the remaining range,
    controlled phases from every less significant qubit with angle
    pi / 2^distance, recursion on the rest, then the swaps of the bit
    reversal. *)
Definition qft_phases (q0 top : nat) : list Operation :=
  map (fun j => CPhase (PI / 2 ^ (top - j)) (q0 + j) (q0 + top))
      (rev (seq 0 top)).

Fixpoint qft_rotations (q0 w : nat) : list Operation :=
  match w with
  | O => []
  | S w' => Named Hadamard (q0 + w') :: qft_phases q0 w'
            ++ qft_rotations q0 w'
  end.

Definition qft_swaps (q0 w : nat) : list Operation :=
  map (fun j => SWAP (q0 + j) (q0 + (w - 1 - j))) (seq 0 (w / 2)).

Definition QFT (q0 w : nat) : list Operation :=
  qft_rotations q0 w ++ qft_swaps q0 w.

(** The operation with its phase angle negated. *)
Definition negate_phase (op : Operation) : Operation :=
  match op with
  | CPhase theta c t => CPhase (- theta) c t
  | Rotation ax theta q => Rotation ax (- theta) q
  | _ => op
  end.

(** Modelled from the spec: the inverse transform, missing from the
    repository like [QFT], is the operation sequence in reverse order
    with negated phase angles. *)
Definition inverse_QFT (q0 w : nat) : list Operation :=
  map negate_phase (rev (QFT q0 w)).

(** An operation that [negate_phase] inverts, on a register of [n]
    qubits. *)
Definition phase_invertible (n : nat) (op : Operation) : Prop :=
  wf_op n op /\
  forall psi i, apply_fn (negate_phase op) (apply_fn op psi) i = psi i.

(* ================================================================= *)
(** ** Sampler *)

(** Modelled from the spec: the sampler is part of the simulator, which
    is missing from the repository.  Born weights, projection onto the
    measured classical bits in binding order, and one draw per uniform
    variate of the random source by walking the cumulative
    distribution. *)
Definition born (v : Statevector) (i : nat) : R := Cnorm2 (amp v i).

(** The classical register written by measuring basis state [i]. *)
Definition outcome_of (bindings : list (nat * nat)) (i : nat) : nat :=
  fold_left (fun y qb => assign_bit y (snd qb) (Nat.testbit i (fst qb)))
            bindings 0.

(** Modelled from the spec: the probability of the classical outcome
    [y], the Born weights of the basis states that project onto it; the
    projection belongs to the missing simulator. *)
Definition outcome_prob (bindings : list (nat * nat)) (v : Statevector)
  (y : nat) : R :=
  Rsum (fun i => if outcome_of bindings i =? y then born v i else 0%R)
       (length v).

(** Modelled from the spec: one draw from the categorical distribution
    [p], which the missing simulator performs per shot.  The outcomes are
    walked from [y] upwards, at most [fuel] steps, and the first one
    whose cumulative weight exceeds the variate [r] is drawn. *)
Fixpoint draw (p : nat -> R) (fuel y : nat) (acc r : R) : nat :=
  match fuel with
  | O => y
  | S fuel' =>
      if Rlt_dec r (acc + p y) then y
      else draw p fuel' (S y) (acc + p y)%R r
  end.

Definition sample (m : nat) (p : nat -> R) (rnds : list R) : list nat :=
  map (draw p (2 ^ m - 1) 0 0%R) rnds.



(** The classical register [y] of width [m] as a bit-string, most
    significant bit first. *)
Fixpoint bitstring (m y : nat) : string :=
  match m with
  | O => EmptyString
  | S m' => String (if Nat.testbit y m' then "1"%char else "0"%char)
                   (bitstring m' y)
  end.

Definition count (samples : list nat) (y : nat) : nat :=
  count_occ Nat.eq_dec samples y.

(** The outcome histogram: the outcomes that occurred, with their
    counts. *)
Definition histogram (m : nat) (samples : list nat)
  : list (string * nat) :=
  map (fun y => (bitstring m y, count samples y))
      (filter (fun y => 0 <? count samples y) (seq 0 (2 ^ m))).

(** [simulator.run(circuit, shots).result().get_counts()]. *)
Definition run_samples (qc : CircuitModel) (rnds : list R) : list nat :=
  sample (num_clbits qc)
         (outcome_prob (measurements qc) (simulate qc)) rnds.

Definition get_counts (qc : CircuitModel) (rnds : list R)
  : list (string * nat) :=
  histogram (num_clbits qc) (run_samples qc rnds).

(* ================================================================= *)
(** ** Classical action of the permutation gates *)

Definition swap_bits (a b i : nat) : nat :=
  assign_bit (assign_bit i a (Nat.testbit i b)) b (Nat.testbit i a).

(** The basis state a permutation gate sends basis state [i] to; [None]
    for operations that create superpositions or phases. *)
Definition classical_op (op : Operation) (i : nat) : option nat :=
  match op with
  | Named PauliX q => Some (flip_bit q i)
  | Named Identity _ => Some i
  | CNOT c t => Some (if Nat.testbit i c then flip_bit t i else i)
  | SWAP a b => Some (swap_bits a b i)
  | MCX cs t => Some (if all_set cs i then flip_bit t i else i)
  | Barrier => Some i
  | _ => None
  end.

Fixpoint classical_run (ops : list Operation) (i : nat) : option nat :=
  match ops with
  | [] => Some i
  | op :: ops' =>
      match classical_op op i with
      | Some j => classical_run ops' j
      | None => None
      end
  end.

(* ================================================================= *)
(** ** The simulator call of the drivers

    [AerSimulator()] is constructed without a seed and [run] is passed
    only the circuit and the shot count, so the variates come from a
    random source [rng] the simulator seeds by itself; [rng k] is the
    variate of shot [k].  Transpilation preserves the circuit's action
    and is the identity here. *)

Definition transpile (qc : CircuitModel) : CircuitModel := qc.

Definition AerSimulator_run (qc : CircuitModel) (shots : nat)
  (rng : nat -> R) : list (string * nat) :=
  get_counts qc (map rng (seq 0 shots)).


Definition uniform_source (rng : nat -> R) : Prop :=
  forall k, (0 <= rng k < 1)%R.

(** The number of variates below [x] among those of the first [shots]
    shots. *)
Definition variates_below (x : R) (shots : nat) (rng : nat -> R) : nat :=
  length (filter (fun r => if Rlt_dec r x then true else false)
                 (map rng (seq 0 shots))).

(** Count recorded for a bit-string, 0 when it is absent
    ([counts.get(key, 0)]). *)
Fixpoint get (counts : list (string * nat)) (key : string) : nat :=
  match counts with
  | [] => 0
  | (k, c) :: counts' => if String.eqb k key then c else get counts' key
  end.

(* ================================================================= *)
(** ** The law of counts among independent shots *)

(** Binomial coefficients by the multiplicative recurrence
    C(n, k+1) = C(n, k) * (n - k) / (k + 1). *)
Fixpoint binomial (n k : nat) : Z :=
  match k with
  | O => 1%Z
  | S k' => (binomial n k' * (Z.of_nat n - Z.of_nat k') / Z.of_nat (S k'))%Z
  end.

(** Modelled from the spec: shots are independent samples, so an
    outcome of probability [p] occurs exactly [k] times among [n] shots
    with the binomial probability; the sampling law belongs to the
    missing simulator. *)
Definition shots_law (n : nat) (p : R) (k : nat) : R :=
  (IZR (binomial n k) * p ^ k * (1 - p) ^ (n - k))%R.

(** Probability that it occurs between [lo] and [hi] times. *)
Definition band_probability (n : nat) (p : R) (lo hi : nat) : R :=
  Rsum (fun j => shots_law n p (lo + j)) (hi - lo + 1).

Fixpoint Zsum (f : nat -> Z) (n : nat) : Z :=
  match n with
  | O => 0%Z
  | S n' => (Zsum f n' + f n')%Z
  end.

(** The sum of [m] consecutive binomial coefficients from C(n, k) = [b]
    on, in one pass. *)
Fixpoint band_sum (n k : nat) (b : Z) (m : nat) : Z :=
  match m with
  | O => 0%Z
  | S m' =>
      (b + band_sum n (S k)
             (b * (Z.of_nat n - Z.of_nat k) / Z.of_nat (S k)) m')%Z
  end.

(** Binomial coefficients by Pascal's rule. *)
Fixpoint choose (n k : nat) : nat :=
  match k, n with
  | O, _ => 1
  | S _, O => 0
  | S k', S n' => choose n' k' + choose n' k
  end.

(** Modelled from the spec: shots are independent samples, so the
    random source of the missing simulator is uniform.  For a generator
    with [M] equally likely values the variates are 0/M, 1/M, ...,
    (M-1)/M, and the sources of [n] shots are given by the lists of [n]
    numerators, each as likely as any other. *)
Fixpoint grid_sources (M n : nat) : list (list nat) :=
  match n with
  | O => [[]]
  | S n' => flat_map (fun j => map (cons j) (grid_sources M n')) (seq 0 M)
  end.

Definition grid_source (M : nat) (js : list nat) : nat -> R :=
  fun k => (INR (nth k js 0%nat) / INR M)%R.

(** The number of sources of [n] shots for which [event] holds, and its
    share among all of them: the probability of [event] under a uniform
    source. *)
Definition favourable (M n : nat) (event : (nat -> R) -> bool) : nat :=
  length (filter (fun js => event (grid_source M js)) (grid_sources M n)).

Definition probability (M n : nat) (event : (nat -> R) -> bool) : R :=
  (INR (favourable M n event) / INR (M ^ n))%R.

Definition numerators_below (h : nat) (js : list nat) : nat :=
  length (filter (fun j => j <? h) js).

(** The count of [key] lies between [lo] and [hi]; a run that raised
    has no counts. *)
Definition count_in_band (key : string) (lo hi : nat)
  (run : result (list (string * nat))) : bool :=
  match run with
  | Ok counts => (lo <=? get counts key) && (get counts key <=? hi)
  | Raise _ => false
  end.

(* ================================================================= *)
(** ** entanglement.py *)

Module Entanglement.

Definition circuit : result CircuitModel :=
  QC.new 2 2 >>= QC.h 0 >>= QC.cx 0 1 >>= QC.measure_all [0; 1] [0; 1].

Definition counts (rng : nat -> R) : result (list (string * nat)) :=
  circuit >>= fun qc => Ok (AerSimulator_run qc 1000 rng).

End Entanglement.

(** The circuit the script builds. *)
Definition bell_circuit : CircuitModel :=
  mkCircuit 2 2 [Named Hadamard 0; CNOT 0 1] [(0, 0); (1, 1)].

(* ================================================================= *)
(** ** deutsch_algorithm.py *)

Module Deutsch.

Definition deutsch_circuit (oracle : CircuitModel) : result CircuitModel :=
  QC.new 2 1 >>= QC.x 1 >>= QC.h_all [0; 1]
    >>= QC.append_circuit oracle [0; 1] >>= QC.h 0 >>= QC.measure 0 0.

Definition deutsch_algorithm (oracle : CircuitModel) (rng : nat -> R)
  : result (list (string * nat)) :=
  deutsch_circuit oracle >>= fun qc =>
  let compiled_circuit := transpile qc in
  Ok (AerSimulator_run compiled_circuit 1024 rng).

(** The gate returned by [to_gate] is the circuit itself; its label has
    no effect on the action. *)
Definition create_oracle (type : string) : result CircuitModel :=
  QC.new 2 0 >>= fun oracle =>
  if String.eqb type "constant" then Ok oracle
  else if String.eqb type "balanced" then QC.cx 0 1 oracle
  else Raise (ValueError "type must be 'constant' or 'balanced'").

End Deutsch.

(** The circuits [deutsch_algorithm] runs for the two oracles. *)
Definition deutsch_constant_circuit : CircuitModel :=
  mkCircuit 2 1
    [Named PauliX 1; Named Hadamard 0; Named Hadamard 1; Named Hadamard 0]
    [(0, 0)].

Definition deutsch_balanced_circuit : CircuitModel :=
  mkCircuit 2 1
    [Named PauliX 1; Named Hadamard 0; Named Hadamard 1; CNOT 0 1;
     Named Hadamard 0]
    [(0, 0)].

(* ================================================================= *)
(** ** grover_algorithm.py *)

Module Grover.

Definition enumerate {A : Type} (l : list A) : list (nat * A) :=
  combine (seq 0 (length l)) l.

(** [for i, bit in enumerate(reversed(marked_state)): if bit == '0':
    oracle.x(i)]. *)
Definition x_where_zero (marked_state : string) (oracle : CircuitModel)
  : result CircuitModel :=
  for_each (enumerate (rev (list_ascii_of_string marked_state)))
    (fun ib qc => if Ascii.eqb (snd ib) "0" then QC.x (fst ib) qc
                  else Ok qc)
    oracle.

Definition create_oracle (marked_state : string) : result CircuitModel :=
  let n := String.length marked_state in
  let control_qubits := seq 0 n in
  QC.new n 0
    >>= x_where_zero marked_state
    >>= QC.h (n - 1)
    >>= QC.mcx (removelast control_qubits) (n - 1)
    >>= QC.h (n - 1)
    >>= x_where_zero marked_state
    >>= QC.barrier.


(** The basis index a bit-string denotes to the oracle: a character
    other than '0' counts as a 1, the last character is qubit 0. *)
Definition marked_index (marked_state : string) : nat :=
  fold_left (fun acc c => 2 * acc + (if Ascii.eqb c "0" then 0 else 1))
            (list_ascii_of_string marked_state) 0.

(** The qubits on which the oracle places an X: the positions of the
    character '0', counted from the end of the string. *)
Definition zero_positions (marked_state : string) : list nat :=
  map fst (filter (fun ib => Ascii.eqb (snd ib) "0")
             (enumerate (rev (list_ascii_of_string marked_state)))).

Definition x_layer (marked_state : string) : list Operation :=
  map (Named PauliX) (zero_positions marked_state).

(** The operation sequence [create_oracle] builds. *)
Definition oracle_operations (marked_state : string) : list Operation :=
  let n := String.length marked_state in
  x_layer marked_state
    ++ [Named Hadamard (n - 1); MCX (seq 0 (n - 1)) (n - 1);
        Named Hadamard (n - 1)]
    ++ x_layer marked_state ++ [Barrier].

End Grover.

(* ================================================================= *)
(** ** shor_algorithm.py *)

Module Shor.

(** [c_amod15] prints to standard output and returns a gate; the pair
    holds the printed lines and the returned value. *)
Definition c_amod15 (a power : Z) : list string * result CircuitModel :=
  let U := QC.new 4 0 in
  if negb (a =? 7)%Z
  then (["Error: This function is hard-coded for a=7."%string], U)
  else
    ([],
     if (power mod 4 =? 0)%Z then U
     else if (power mod 4 =? 1)%Z
       then U >>= QC.swap 0 1 >>= QC.swap 1 2 >>= QC.swap 2 3
     else if (power mod 4 =? 2)%Z
       then U >>= QC.swap 1 3 >>= QC.swap 0 2
     else if (power mod 4 =? 3)%Z
       then U >>= QC.swap 0 3 >>= QC.swap 0 2 >>= QC.swap 1 3
     else U).

Definition n_count : nat := 8.

(** [int(measurement, 2)] on a string of binary digits. *)
Fixpoint int_base2_from (acc : Z) (s : string) : result Z :=
  match s with
  | EmptyString => Ok acc
  | String c s' =>
      if Ascii.eqb c "0" then int_base2_from (2 * acc)%Z s'
      else if Ascii.eqb c "1" then int_base2_from (2 * acc + 1)%Z s'
      else Raise (ValueError "invalid literal for int() with base 2")
  end.

Definition int_base2 (s : string) : result Z :=
  match s with
  | EmptyString => Raise (ValueError "invalid literal for int() with base 2")
  | _ => int_base2_from 0%Z s
  end.

(** One pass of the loop body of step 8 for a measured value.  The
    quotient [2**n_count / decimal] is a float in the source; for a
    measured value of [n_count] bits it has no fractional part exactly
    when [decimal] divides [2^n_count], and is then the exact quotient. *)
Definition period_step (measured_periods : list Z) (decimal : Z) : list Z :=
  if negb (decimal =? 0)%Z then
    if ((2 ^ Z.of_nat n_count) mod decimal =? 0)%Z then
      let r := (2 ^ Z.of_nat n_count / decimal)%Z in
      if (r mod 2 =? 0)%Z && negb (existsb (Z.eqb r) measured_periods)
      then measured_periods ++ [r]
      else measured_periods
    else measured_periods
  else measured_periods.

(** [for measurement in counts: ...] over the keys of the histogram. *)
Definition measured_periods (counts : list (string * nat))
  : result (list Z) :=
  for_each (map fst counts)
    (fun measurement periods =>
       int_base2 measurement >>= fun decimal =>
       Ok (period_step periods decimal))
    [].

End Shor.

(* ================================================================= *)
(** ** simon_algorithm.py *)

Module Simon.

(** [int(bit)] for one character. *)
Definition int_of_char (c : ascii) : result nat :=
  let d := nat_of_ascii c in
  if (48 <=? d) && (d <=? 57) then Ok (d - 48)
  else Raise (ValueError "invalid literal for int() with base 10").

Fixpoint ints_of (cs : list ascii) : result (list nat) :=
  match cs with
  | [] => Ok []
  | c :: cs' =>
      int_of_char c >>= fun d => ints_of cs' >>= fun ds => Ok (d :: ds)
  end.

Definition index (l : list nat) (i : nat) : result nat :=
  match nth_error l i with
  | Some v => Ok v
  | None => Raise IndexError
  end.

Definition make_simon_oracle (n : nat) (s : string) : result CircuitModel :=
  QC.new (2 * n) 0 >>= fun qc =>
  ints_of (rev (list_ascii_of_string s)) >>= fun s_list =>
  for_each (seq 0 n) (fun i => QC.cx i (i + n)) qc >>= fun qc =>
  for_each (seq 0 n)
    (fun i qc =>
       index s_list i >>= fun s_i =>
       if s_i =? 1
       then for_each (seq 0 n) (fun j => QC.cx i (j + n)) qc
       else Ok qc)
    qc.

Definition make_simon_circuit (n : nat) (oracle : CircuitModel)
  : result CircuitModel :=
  QC.new (2 * n) n
    >>= QC.h_all (seq 0 n) >>= QC.barrier
    >>= QC.append_circuit oracle (seq 0 (2 * n)) >>= QC.barrier
    >>= QC.h_all (seq 0 n) >>= QC.barrier
    >>= QC.measure_all (seq 0 n) (seq 0 n).

(** The function the oracle computes into the output register: the
    value of qubits [n .. 2n-1] after the oracle acts on input [x] with
    the output register at 0. *)
Definition oracle_function (n : nat) (oracle : CircuitModel) (x : nat)
  : option nat :=
  match classical_run (operations oracle) x with
  | Some y => Some (y / 2 ^ n)
  | None => None
  end.

(** Inner product of two bit-strings modulo 2. *)
Definition dot (n y s : nat) : bool :=
  fold_left xorb
    (map (fun i => Nat.testbit y i && Nat.testbit s i) (seq 0 n)) false.

End Simon.

(** The circuit the script builds for N = 3 and the secret string 101,
    in three stages: Hadamards, oracle, Hadamards. *)
Definition simon_stage_h : list Operation :=
  [Named Hadamard 0; Named Hadamard 1; Named Hadamard 2; Barrier].

Definition simon_stage_oracle : list Operation :=
  [CNOT 0 3; CNOT 1 4; CNOT 2 5; CNOT 0 3; CNOT 0 4; CNOT 0 5;
   CNOT 2 3; CNOT 2 4; CNOT 2 5; Barrier].

Definition simon_circuit : CircuitModel :=
  mkCircuit 6 3 (simon_stage_h ++ simon_stage_oracle ++ simon_stage_h)
            [(0, 0); (1, 1); (2, 2)].

(* ================================================================= *)
(** ** ghz_state.py *)

Module GHZ.

Definition circuit : result CircuitModel :=
  QC.new 3 3 >>= QC.h 0 >>= QC.cx 0 1 >>= QC.cx 1 2
    >>= QC.measure_all [0; 1; 2] [0; 1; 2].

Definition counts (rng : nat -> R) : result (list (string * nat)) :=
  circuit >>= fun qc => Ok (AerSimulator_run qc 1000 rng).

End GHZ.

Definition ghz_circuit : CircuitModel :=
  mkCircuit 3 3 [Named Hadamard 0; CNOT 0 1; CNOT 1 2]
            [(0, 0); (1, 1); (2, 2)].

(* ================================================================= *)
(** ** cnot_examples.py *)

Module CnotExamples.

Definition circuit : result CircuitModel :=
  QC.new 2 2 >>= QC.x 0 >>= QC.x 1 >>= QC.cx 0 1
    >>= QC.measure_all [0; 1] [0; 1].

Definition counts (rng : nat -> R) : result (list (string * nat)) :=
  circuit >>= fun qc => Ok (AerSimulator_run qc 1000 rng).

End CnotExamples.

Definition cnot_circuit : CircuitModel :=
  mkCircuit 2 2 [Named PauliX 0; Named PauliX 1; CNOT 0 1]
            [(0, 0); (1, 1)].

(* ================================================================= *)
(** ** on-hardware/ibm_brisbane_deutsch.py *)

Module HardwareDeutsch.

Definition build_oracle (oracle_qubit helper_qubit : nat) (secret_bit : Z)
  (qc : CircuitModel) : result CircuitModel :=
  if (secret_bit =? 1)%Z then QC.cx oracle_qubit helper_qubit qc
  else QC.id oracle_qubit qc.

(** The measurement of qubit 0 is followed by gates on qubit 1 only, so
    reading the classical bit from the final state is the same as reading
    it where the script measures. *)
Definition deutsch_algorithm (secret_bit : Z) : result CircuitModel :=
  QC.new 2 1 >>= QC.x 1 >>= QC.h_all [0; 1]
    >>= build_oracle 0 1 secret_bit
    >>= QC.h 0 >>= QC.measure 0 0
    >>= QC.h 1 >>= QC.z 1.

End HardwareDeutsch.

(* ================================================================= *)
(** ** shor_algorithm.py: from candidate periods to factors *)

Module ShorFactors.

Definition N : Z := 15.
Definition a : Z := 7.

(** The loop over the candidate periods.  [pow_int r] stands for
    [int(math.pow(a, r / 2))], a floating-point power that is exact only
    for small exponents and is therefore a parameter.  The result is the
    period and the two factors the loop prints before [break], or [None]
    when it reaches the [else] branch ("Could not find a valid
    period"). *)
Fixpoint find_factors (pow_int : Z -> Z) (measured_periods : list Z)
  : option (Z * Z * Z) :=
  match measured_periods with
  | [] => None
  | r :: rest =>
      if negb (r =? 0)%Z && (r mod 2 =? 0)%Z then
        let x := pow_int r in
        let factor1 := Z.gcd (x - 1) N in
        let factor2 := Z.gcd (x + 1) N in
        if negb (factor1 =? 1)%Z && negb (factor1 =? N)%Z &&
           negb (factor2 =? 1)%Z && negb (factor2 =? N)%Z
        then Some (r, factor1, factor2)
        else find_factors pow_int rest
      else find_factors pow_int rest
  end.

End ShorFactors.

(* ================================================================= *)
(** ** simon_algorithm.py: the oracle for any secret string *)

(** The operation sequence [make_simon_oracle] builds from the list of
    digits [s_list]: the copy loop, then for every position holding a 1
    a fan-out to all output qubits. *)
Definition simon_copy (n : nat) : list Operation :=
  map (fun i => CNOT i (i + n)) (seq 0 n).

Definition simon_fan (n i : nat) : list Operation :=
  map (fun j => CNOT i (j + n)) (seq 0 n).

Definition simon_fans (n : nat) (s_list : list nat) : list Operation :=
  flat_map (fun i => if nth i s_list 0 =? 1 then simon_fan n i else [])
           (seq 0 n).

(** The number with the [n] low bits set. *)
Definition all_ones (n : nat) : nat := 2 ^ n - 1.

(** Whether the CNOTs of [ops] whose control is set in the basis state
    [i] flip qubit [p] an odd number of times. *)
Fixpoint cnot_toggles (ops : list Operation) (i p : nat) : bool :=
  match ops with
  | [] => false
  | CNOT c t :: ops' =>
      xorb ((t =? p) && Nat.testbit i c) (cnot_toggles ops' i p)
  | _ :: ops' => cnot_toggles ops' i p
  end.

(** A CNOT from the input register (qubits below [n]) into the output
    register. *)
Definition crossing (n : nat) (op : Operation) : Prop :=
  match op with
  | CNOT c t => c < n /\ n <= t
  | _ => False
  end.

(* ================================================================= *)
(** ** simon_algorithm.py: the measured distribution *)

Fixpoint Cpow (c : C) (n : nat) : C :=
  match n with
  | O => Cone
  | S n' => Cmult c (Cpow c n')
  end.

(** The sign (-1)^b. *)
Definition sign (b : bool) : C := if b then Copp Cone else Cone.

(** The function the oracle of [make_simon_oracle] computes for the
    secret [sv]: the input, complemented when it has an odd number of
    ones in common with the secret. *)
Definition simon_function (n sv x : nat) : nat :=
  if Simon.dot n x sv then Nat.lxor x (all_ones n) else x.

(** The operations of the circuit [make_simon_circuit] builds around the
    operations of the oracle. *)
Definition simon_operations (n : nat) (oracle_ops : list Operation)
  : list Operation :=
  map (Named Hadamard) (seq 0 n) ++ [Barrier] ++ oracle_ops ++ [Barrier]
    ++ map (Named Hadamard) (seq 0 n) ++ [Barrier].

(* ================================================================= *)
(** * Proofs *)

(** ** Arithmetic of amplitudes *)

Lemma C_eq (a b : C) : fst a = fst b -> snd a = snd b -> a = b.
Proof. destruct a, b; simpl; intros; subst; reflexivity. Qed.

(** Splits an equation between amplitudes into its real and imaginary
    parts and closes both by ring normalisation. *)
Ltac csolve :=
  intros;
  repeat match goal with z : C |- _ => destruct z end;
  unfold Cminus, Cplus, Cmult, Copp, Cconj, Czero, Cone, RtoC, Cnorm2;
  simpl; try apply C_eq; simpl; try ring.

Lemma Cplus_comm (a b : C) : (a + b = b + a)%C.
Proof. csolve. Qed.

Lemma Cplus_assoc (a b c : C) : (a + (b + c) = a + b + c)%C.
Proof. csolve. Qed.

Lemma Cplus_0_l (a : C) : (Czero + a = a)%C.
Proof. csolve. Qed.

Lemma Cplus_0_r (a : C) : (a + Czero = a)%C.
Proof. csolve. Qed.

Lemma Cmult_comm (a b : C) : (a * b = b * a)%C.
Proof. csolve. Qed.

Lemma Cmult_assoc (a b c : C) : (a * (b * c) = a * b * c)%C.
Proof. csolve. Qed.

Lemma Cmult_1_l (a : C) : (Cone * a = a)%C.
Proof. csolve. Qed.

Lemma Cmult_1_r (a : C) : (a * Cone = a)%C.
Proof. csolve. Qed.

Lemma Cmult_0_l (a : C) : (Czero * a = Czero)%C.
Proof. csolve. Qed.

Lemma Cmult_0_r (a : C) : (a * Czero = Czero)%C.
Proof. csolve. Qed.

Lemma Cmult_plus_distr_r (a b c : C) : ((a + b) * c = a * c + b * c)%C.
Proof. csolve. Qed.

Lemma Cmult_plus_distr_l (a b c : C) : (a * (b + c) = a * b + a * c)%C.
Proof. csolve. Qed.

Lemma Cplus_opp_r (a : C) : (a + - a = Czero)%C.
Proof. csolve. Qed.

Lemma C_ring : ring_theory Czero Cone Cplus Cmult Cminus Copp eq.
Proof.
  constructor.
  - exact Cplus_0_l.
  - exact Cplus_comm.
  - exact Cplus_assoc.
  - exact Cmult_1_l.
  - exact Cmult_comm.
  - exact Cmult_assoc.
  - exact Cmult_plus_distr_r.
  - reflexivity.
  - exact Cplus_opp_r.
Qed.

Add Ring C_ring_structure : C_ring.

Lemma Cconj_plus (a b : C) : Cconj (a + b) = (Cconj a + Cconj b)%C.
Proof. csolve. Qed.

Lemma Cconj_mult (a b : C) : Cconj (a * b) = (Cconj a * Cconj b)%C.
Proof. csolve. Qed.

Lemma Cconj_involutive (a : C) : Cconj (Cconj a) = a.
Proof. csolve. Qed.

Lemma Cnorm2_conj (a : C) : RtoC (Cnorm2 a) = (Cconj a * a)%C.
Proof. csolve. Qed.

Lemma Cnorm2_nonneg (a : C) : (0 <= Cnorm2 a)%R.
Proof. destruct a; unfold Cnorm2; simpl; nra. Qed.

Lemma Cnorm2_zero : Cnorm2 Czero = 0%R.
Proof. unfold Cnorm2, Czero, RtoC; simpl; ring. Qed.

Lemma Cnorm2_one : Cnorm2 Cone = 1%R.
Proof. unfold Cnorm2, Cone, RtoC; simpl; ring. Qed.

Lemma Cnorm2_opp (a : C) : Cnorm2 (- a) = Cnorm2 a.
Proof. destruct a; unfold Cnorm2, Copp; simpl; ring. Qed.

Lemma Cnorm2_eq_0 (a : C) : Cnorm2 a = 0%R -> a = Czero.
Proof.
  destruct a as [x y]; unfold Cnorm2, Czero, RtoC; simpl; intros E.
  assert (x = 0)%R by nra. assert (y = 0)%R by nra. subst; reflexivity.
Qed.

Lemma RtoC_inj (x y : R) : RtoC x = RtoC y -> x = y.
Proof. unfold RtoC; intros E; now inversion E. Qed.

Lemma RtoC_plus (x y : R) : RtoC (x + y) = (RtoC x + RtoC y)%C.
Proof. csolve. Qed.

Lemma Cexp_opp_l (theta : R) : (Cexp (- theta) * Cexp theta = Cone)%C.
Proof.
  unfold Cexp, Cmult, Cone, RtoC; simpl.
  rewrite cos_neg, sin_neg. pose proof (sin2_cos2 theta) as E.
  unfold Rsqr in E. apply C_eq; simpl; lra.
Qed.

Lemma Cexp_conj (theta : R) : Cconj (Cexp theta) = Cexp (- theta).
Proof. unfold Cexp, Cconj; simpl. now rewrite cos_neg, sin_neg. Qed.

Lemma sqrt2_pos : (0 < sqrt 2)%R.
Proof. apply sqrt_lt_R0; lra. Qed.

Lemma inv_sqrt2_square : (/ sqrt 2 * / sqrt 2 = / 2)%R.
Proof.
  pose proof sqrt2_pos. rewrite <- Rinv_mult.
  rewrite sqrt_sqrt by lra. reflexivity.
Qed.

Lemma inv_sqrt2_half : (inv_sqrt2 * inv_sqrt2 + inv_sqrt2 * inv_sqrt2 = Cone)%C.
Proof.
  unfold inv_sqrt2, Cmult, Cplus, Cone, RtoC; simpl.
  pose proof inv_sqrt2_square. apply C_eq; simpl; lra.
Qed.

(* ----------------------------------------------------------------- *)
(** ** Finite sums *)

Lemma Csum_ext (f g : nat -> C) (n : nat) :
  (forall i, i < n -> f i = g i) -> Csum f n = Csum g n.
Proof.
  induction n as [|n IH]; intros E; simpl; [reflexivity|].
  rewrite IH, E by auto with arith. reflexivity.
Qed.

Lemma Csum_zero (n : nat) : Csum (fun _ => Czero) n = Czero.
Proof. induction n as [|n IH]; simpl; [|rewrite IH]; csolve. Qed.

Lemma Csum_plus (f g : nat -> C) (n : nat) :
  Csum (fun i => f i + g i)%C n = (Csum f n + Csum g n)%C.
Proof. induction n as [|n IH]; simpl; [|rewrite IH]; ring. Qed.

Lemma Csum_scale_l (c : C) (f : nat -> C) (n : nat) :
  Csum (fun i => c * f i)%C n = (c * Csum f n)%C.
Proof. induction n as [|n IH]; simpl; [|rewrite IH]; ring. Qed.

Lemma Csum_scale_r (c : C) (f : nat -> C) (n : nat) :
  Csum (fun i => f i * c)%C n = (Csum f n * c)%C.
Proof. induction n as [|n IH]; simpl; [|rewrite IH]; ring. Qed.

Lemma Csum_conj (f : nat -> C) (n : nat) :
  Cconj (Csum f n) = Csum (fun i => Cconj (f i)) n.
Proof.
  induction n as [|n IH]; simpl.
  - csolve.
  - now rewrite Cconj_plus, IH.
Qed.

Lemma Csum_exchange (f : nat -> nat -> C) (n m : nat) :
  Csum (fun i => Csum (fun j => f i j) m) n =
  Csum (fun j => Csum (fun i => f i j) n) m.
Proof.
  induction n as [|n IH]; simpl.
  - now rewrite Csum_zero.
  - now rewrite Csum_plus, IH.
Qed.

(** A sum against a Kronecker delta selects one term. *)
Lemma Csum_kronecker (j : nat) (f : nat -> C) (n : nat) :
  j < n -> Csum (fun i => kronecker j i * f i)%C n = f j.
Proof.
  unfold kronecker. induction n as [|n IH]; intros Hj; [lia|]. simpl.
  destruct (Nat.eq_dec j n) as [->|Hne].
  - rewrite Nat.eqb_refl.
    rewrite (Csum_ext _ (fun _ => Czero)).
    + rewrite Csum_zero; ring.
    + intros i Hi. replace (n =? i) with false
        by (symmetry; apply Nat.eqb_neq; lia). ring.
  - replace (j =? n) with false by (symmetry; now apply Nat.eqb_neq).
    rewrite IH by lia. ring.
Qed.

Lemma Rsum_ext (f g : nat -> R) (n : nat) :
  (forall i, i < n -> f i = g i) -> Rsum f n = Rsum g n.
Proof.
  induction n as [|n IH]; intros E; simpl; [reflexivity|].
  rewrite IH, E by auto with arith. reflexivity.
Qed.

Lemma Rsum_zero (n : nat) : Rsum (fun _ => 0%R) n = 0%R.
Proof. induction n as [|n IH]; simpl; [|rewrite IH]; ring. Qed.

Lemma Rsum_const (c : R) (n : nat) : Rsum (fun _ => c) n = (INR n * c)%R.
Proof.
  induction n as [|n IH]; [simpl; ring|].
  rewrite S_INR. simpl. rewrite IH. ring.
Qed.

Lemma Rsum_plus (f g : nat -> R) (n : nat) :
  Rsum (fun i => f i + g i)%R n = (Rsum f n + Rsum g n)%R.
Proof. induction n as [|n IH]; simpl; [|rewrite IH]; ring. Qed.

Lemma Rsum_nonneg (f : nat -> R) (n : nat) :
  (forall i, i < n -> (0 <= f i)%R) -> (0 <= Rsum f n)%R.
Proof.
  induction n as [|n IH]; intros E; simpl; [lra|].
  pose proof (E n (Nat.lt_succ_diag_r n)).
  assert (0 <= Rsum f n)%R by (apply IH; auto with arith). lra.
Qed.

Lemma Rsum_exchange (f : nat -> nat -> R) (n m : nat) :
  Rsum (fun i => Rsum (fun j => f i j) m) n =
  Rsum (fun j => Rsum (fun i => f i j) n) m.
Proof.
  induction n as [|n IH]; simpl.
  - now rewrite Rsum_zero.
  - now rewrite Rsum_plus, IH.
Qed.

(** A sum whose terms vanish except at [j]. *)
Lemma Rsum_single (j : nat) (f : nat -> R) (n : nat) :
  j < n -> (forall i, i < n -> i <> j -> f i = 0%R) -> Rsum f n = f j.
Proof.
  induction n as [|n IH]; intros Hj E; [lia|]. simpl.
  destruct (Nat.eq_dec j n) as [->|Hne].
  - rewrite (Rsum_ext f (fun _ => 0%R)).
    + rewrite Rsum_zero; ring.
    + intros i Hi. apply E; lia.
  - rewrite IH by (try lia; intros; apply E; lia).
    rewrite (E n) by lia. ring.
Qed.

Lemma RtoC_Rsum (f : nat -> R) (n : nat) :
  RtoC (Rsum f n) = Csum (fun i => RtoC (f i)) n.
Proof.
  induction n as [|n IH]; simpl; [reflexivity|].
  now rewrite RtoC_plus, IH.
Qed.

Lemma Rsum_as_list (f : nat -> R) (n : nat) :
  Rsum f n = Rlist_sum (map f (seq 0 n)).
Proof.
  induction n as [|n IH]; [reflexivity|].
  rewrite seq_S, map_app. simpl. rewrite IH.
  generalize (map f (seq 0 n)) as l. unfold Rlist_sum.
  induction l as [|a l IHl]; simpl; [ring|]. rewrite <- IHl. ring.
Qed.

Lemma Rlist_sum_perm (l l' : list R) :
  Permutation l l' -> Rlist_sum l = Rlist_sum l'.
Proof.
  unfold Rlist_sum.
  induction 1; simpl; try lra.
Qed.

(** Reindexing a sum through an involution of the index range. *)
Lemma Rsum_reindex (s : nat -> nat) (f : nat -> R) (n : nat) :
  (forall i, i < n -> s i < n) ->
  (forall i, i < n -> s (s i) = i) ->
  Rsum (fun i => f (s i)) n = Rsum f n.
Proof.
  intros Hlt Hinv. rewrite !Rsum_as_list.
  rewrite <- (map_map s f). apply Rlist_sum_perm, Permutation_map.
  apply Permutation_map_same_l.
  - apply NoDup_map_NoDup_ForallPairs; [|apply seq_NoDup].
    intros a b Ha Hb E. apply in_seq in Ha, Hb.
    rewrite <- (Hinv a), <- (Hinv b) by lia. now rewrite E.
  - intros y Hy. apply in_map_iff in Hy as (i & <- & Hi).
    apply in_seq in Hi. apply in_seq. specialize (Hlt i). lia.
Qed.

(* ----------------------------------------------------------------- *)
(** ** Bits of basis-state indices *)

Lemma testbit_assign (i q p : nat) (b : bool) :
  Nat.testbit (assign_bit i q b) p = if q =? p then b else Nat.testbit i p.
Proof.
  unfold assign_bit. destruct b.
  - rewrite Nat.setbit_eqb. now destruct (q =? p).
  - rewrite Nat.clearbit_eqb. destruct (q =? p); simpl.
    + apply andb_false_r.
    + apply andb_true_r.
Qed.

Lemma assign_same (i q : nat) : assign_bit i q (Nat.testbit i q) = i.
Proof.
  apply Nat.bits_inj; intros p. rewrite testbit_assign.
  destruct (Nat.eqb_spec q p); now subst.
Qed.

Lemma assign_assign (i q : nat) (a b : bool) :
  assign_bit (assign_bit i q a) q b = assign_bit i q b.
Proof.
  apply Nat.bits_inj; intros p. rewrite !testbit_assign.
  now destruct (q =? p).
Qed.

Lemma assign_comm (i q q' : nat) (a b : bool) :
  q <> q' ->
  assign_bit (assign_bit i q a) q' b = assign_bit (assign_bit i q' b) q a.
Proof.
  intros Hne. apply Nat.bits_inj; intros p. rewrite !testbit_assign.
  destruct (Nat.eqb_spec q p), (Nat.eqb_spec q' p); congruence.
Qed.

Lemma lt_pow2_bits (a n : nat) :
  a < 2 ^ n <-> (forall j, n <= j -> Nat.testbit a j = false).
Proof.
  split.
  - intros Ha j Hj. rewrite <- (Nat.mod_small a (2 ^ n)) by exact Ha.
    now apply Nat.mod_pow2_bits_high.
  - intros Hb. replace a with (a mod 2 ^ n).
    + apply Nat.mod_upper_bound, Nat.pow_nonzero; lia.
    + apply Nat.bits_inj; intros j. destruct (Nat.lt_ge_cases j n).
      * now apply Nat.mod_pow2_bits_low.
      * rewrite Hb by assumption. now apply Nat.mod_pow2_bits_high.
Qed.

Lemma assign_lt (i q n : nat) (b : bool) :
  i < 2 ^ n -> q < n -> assign_bit i q b < 2 ^ n.
Proof.
  intros Hi Hq. apply lt_pow2_bits; intros j Hj. rewrite testbit_assign.
  destruct (Nat.eqb_spec q j); [lia|].
  now apply (proj1 (lt_pow2_bits i n)).
Qed.

Lemma lxor_lt (a b n : nat) : a < 2 ^ n -> b < 2 ^ n -> Nat.lxor a b < 2 ^ n.
Proof.
  intros Ha Hb. apply lt_pow2_bits; intros j Hj. rewrite Nat.lxor_spec.
  rewrite (proj1 (lt_pow2_bits a n) Ha j Hj).
  now rewrite (proj1 (lt_pow2_bits b n) Hb j Hj).
Qed.

Lemma lxor_cancel (a b : nat) : Nat.lxor a (Nat.lxor a b) = b.
Proof.
  now rewrite <- Nat.lxor_assoc, Nat.lxor_nilpotent, Nat.lxor_0_l.
Qed.

Lemma testbit_flip (q i p : nat) :
  Nat.testbit (flip_bit q i) p =
  if q =? p then negb (Nat.testbit i p) else Nat.testbit i p.
Proof.
  unfold flip_bit. rewrite testbit_assign.
  destruct (Nat.eqb_spec q p); now subst.
Qed.

Lemma flip_flip (q i : nat) : flip_bit q (flip_bit q i) = i.
Proof.
  apply Nat.bits_inj; intros p. rewrite !testbit_flip.
  destruct (q =? p); [apply negb_involutive|reflexivity].
Qed.

Lemma flip_lt (q i n : nat) : i < 2 ^ n -> q < n -> flip_bit q i < 2 ^ n.
Proof. intros; unfold flip_bit; now apply assign_lt. Qed.

Lemma b2n_div2 (b : bool) (g : nat) : Nat.div2 (Nat.b2n b + 2 * g) = g.
Proof.
  rewrite Nat.div2_div. destruct b; simpl Nat.b2n.
  - replace (1 + 2 * g) with (1 + g * 2) by lia.
    rewrite Nat.div_add by lia. reflexivity.
  - replace (0 + 2 * g) with (0 + g * 2) by lia.
    rewrite Nat.div_add by lia. reflexivity.
Qed.

Lemma b2n_odd (b : bool) (g : nat) : Nat.odd (Nat.b2n b + 2 * g) = b.
Proof.
  rewrite Nat.odd_add_mul_2. now destruct b.
Qed.

Lemma div2_lt_pow2 (k w : nat) : k < 2 ^ S w -> Nat.div2 k < 2 ^ w.
Proof.
  intros Hk. rewrite Nat.div2_div. apply Nat.Div0.div_lt_upper_bound.
  now rewrite Nat.pow_succ_r' in Hk.
Qed.

(* ----------------------------------------------------------------- *)
(** ** Gathering and scattering target bits *)

Lemma testbit_scatter_other (ts : list nat) (k i q : nat) :
  ~ In q ts -> Nat.testbit (scatter ts k i) q = Nat.testbit i q.
Proof.
  revert k i. induction ts as [|t ts IH]; intros k i Hq; simpl; [easy|].
  rewrite IH by (intros ?; apply Hq; now right).
  rewrite testbit_assign. destruct (Nat.eqb_spec t q); [|reflexivity].
  exfalso; apply Hq; now left.
Qed.

Lemma assign_scatter (ts : list nat) (k i t : nat) (b : bool) :
  ~ In t ts ->
  assign_bit (scatter ts k i) t b = scatter ts k (assign_bit i t b).
Proof.
  revert k i. induction ts as [|t' ts IH]; intros k i Ht; simpl; [easy|].
  rewrite IH by (intros ?; apply Ht; now right).
  f_equal. apply assign_comm. intros ->. apply Ht; now left.
Qed.

Lemma gather_lt (ts : list nat) (i : nat) : gather ts i < 2 ^ length ts.
Proof.
  induction ts as [|t ts IH]; simpl; [lia|].
  destruct (Nat.testbit i t); simpl Nat.b2n; lia.
Qed.

Lemma gather_scatter (ts : list nat) (k i : nat) :
  NoDup ts -> k < 2 ^ length ts -> gather ts (scatter ts k i) = k.
Proof.
  revert k i. induction ts as [|t ts IH]; intros k i Hnd Hk.
  - simpl in *. lia.
  - inversion Hnd as [|? ? Hnotin Hnd']; subst.
    cbn [gather scatter]. rewrite testbit_scatter_other by assumption.
    rewrite testbit_assign, Nat.eqb_refl.
    rewrite IH by first [assumption | now apply div2_lt_pow2].
    symmetry. rewrite (Nat.div2_odd k) at 1. lia.
Qed.

Lemma scatter_gather (ts : list nat) (i : nat) : scatter ts (gather ts i) i = i.
Proof.
  induction ts as [|t ts IH]; [reflexivity|].
  cbn [gather scatter]. now rewrite b2n_div2, b2n_odd, assign_same.
Qed.

Lemma scatter_scatter (ts : list nat) (l k i : nat) :
  NoDup ts -> scatter ts l (scatter ts k i) = scatter ts l i.
Proof.
  revert l k i. induction ts as [|t ts IH]; intros l k i Hnd; [reflexivity|].
  inversion Hnd as [|? ? Hnotin Hnd']; subst. cbn [scatter].
  rewrite assign_scatter by assumption.
  rewrite assign_assign. now apply IH.
Qed.

Lemma scatter_lt (ts : list nat) (k i n : nat) :
  Forall (fun q => q < n) ts -> i < 2 ^ n -> scatter ts k i < 2 ^ n.
Proof.
  revert k i. induction ts as [|t ts IH]; intros k i Hts Hi; [exact Hi|].
  inversion Hts; subst. cbn [scatter]. apply IH; [assumption|].
  now apply assign_lt.
Qed.

Lemma all_set_scatter (cs ts : list nat) (k i : nat) :
  (forall q, In q cs -> ~ In q ts) ->
  all_set cs (scatter ts k i) = all_set cs i.
Proof.
  intros Hd. unfold all_set. induction cs as [|c cs IH]; [reflexivity|].
  simpl. rewrite testbit_scatter_other by (apply Hd; now left).
  rewrite IH; [reflexivity|]. intros q Hq; apply Hd; now right.
Qed.

Lemma NoDup_app_disjoint (cs ts : list nat) :
  NoDup (cs ++ ts) ->
  NoDup ts /\ (forall q, In q cs -> ~ In q ts).
Proof.
  induction cs as [|c cs IH]; simpl; intros Hnd.
  - split; [assumption|contradiction].
  - inversion Hnd as [|? ? Hnotin Hnd']; subst.
    destruct (IH Hnd') as [Hts Hd]. split; [assumption|].
    intros q [<-|Hq]; [|now apply Hd].
    intros Hin. apply Hnotin, in_or_app. now right.
Qed.

(** The translation of the target bits of [i] by [k]. *)
Lemma translate_involutive (ts : list nat) (k i : nat) :
  NoDup ts -> k < 2 ^ length ts ->
  let s := fun j => scatter ts (Nat.lxor k (gather ts j)) j in
  s (s i) = i.
Proof.
  intros Hnd Hk s. unfold s.
  rewrite gather_scatter
    by first [assumption | apply lxor_lt; [assumption|apply gather_lt]].
  rewrite lxor_cancel, scatter_scatter by assumption.
  apply scatter_gather.
Qed.

(** Summing a quantity over the register is, up to the class size,
    summing its totals over the classes of indices that agree outside
    the target bits. *)
Lemma Rsum_classes (ts : list nat) (n : nat) (h : nat -> R) :
  NoDup ts -> Forall (fun q => q < n) ts ->
  Rsum (fun i => Rsum (fun m => h (scatter ts m i)) (2 ^ length ts)) (2 ^ n)
  = (INR (2 ^ length ts) * Rsum h (2 ^ n))%R.
Proof.
  intros Hnd Hts.
  transitivity
    (Rsum (fun i => Rsum (fun k =>
       h (scatter ts (Nat.lxor k (gather ts i)) i)) (2 ^ length ts)) (2 ^ n)).
  - apply Rsum_ext; intros i Hi. symmetry.
    rewrite (Rsum_ext _ (fun k =>
      (fun m => h (scatter ts m i)) (Nat.lxor (gather ts i) k))).
    + apply (Rsum_reindex (fun k => Nat.lxor (gather ts i) k)
               (fun m => h (scatter ts m i))).
      * intros k Hk. apply lxor_lt; [apply gather_lt|assumption].
      * intros k Hk. apply lxor_cancel.
    + intros k Hk. now rewrite Nat.lxor_comm.
  - rewrite Rsum_exchange.
    rewrite (Rsum_ext _ (fun _ => Rsum h (2 ^ n))).
    + apply Rsum_const.
    + intros k Hk.
      apply (Rsum_reindex
               (fun i => scatter ts (Nat.lxor k (gather ts i)) i) h).
      * intros i Hi. now apply scatter_lt.
      * intros i Hi. now apply translate_involutive.
Qed.

(* ----------------------------------------------------------------- *)
(** ** The update rule on amplitude vectors *)

Lemma pow2_pos (n : nat) : 0 < 2 ^ n.
Proof. apply Nat.neq_0_lt_0, Nat.pow_nonzero; lia. Qed.

Lemma length_apply_primitive cs ts U v :
  length (apply_primitive cs ts U v) = length v.
Proof. unfold apply_primitive. now rewrite length_map, length_seq. Qed.

Lemma length_apply_op op v : length (apply_op op v) = length v.
Proof.
  unfold apply_op. destruct (primitive op) as [[[cs ts] U]|]; [|reflexivity].
  apply length_apply_primitive.
Qed.

Lemma length_run_ops ops v : length (run_ops ops v) = length v.
Proof.
  revert v. induction ops as [|op ops IH]; intros v; [reflexivity|].
  simpl. unfold run_ops in IH. now rewrite IH, length_apply_op.
Qed.

Lemma length_basis n x : length (basis n x) = 2 ^ n.
Proof. unfold basis. now rewrite length_map, length_seq. Qed.

Lemma nth_map_seq (f : nat -> C) (n i : nat) (d : C) :
  i < n -> nth i (map f (seq 0 n)) d = f i.
Proof.
  intros Hi. rewrite (nth_indep _ d (f 0))
    by now rewrite length_map, length_seq.
  now rewrite map_nth, seq_nth.
Qed.

Lemma amp_basis n x i :
  i < 2 ^ n -> amp (basis n x) i = if i =? x then Cone else Czero.
Proof. intros Hi. unfold amp, basis. now rewrite nth_map_seq. Qed.

Lemma amp_apply_primitive cs ts U v i :
  i < length v ->
  amp (apply_primitive cs ts U v) i = update cs ts U (amp v) i.
Proof.
  intros Hi. unfold amp at 1, apply_primitive. now rewrite nth_map_seq.
Qed.

Lemma Statevector_ext (u v : Statevector) :
  length u = length v ->
  (forall i, i < length u -> amp u i = amp v i) -> u = v.
Proof.
  intros Hlen Hamp. apply (nth_ext u v Czero Czero Hlen). exact Hamp.
Qed.

(** The update at an index of the register only reads amplitudes of
    the register. *)
Lemma update_ext n cs ts U (psi phi : nat -> C) i :
  Forall (fun q => q < n) ts -> i < 2 ^ n ->
  (forall j, j < 2 ^ n -> psi j = phi j) ->
  update cs ts U psi i = update cs ts U phi i.
Proof.
  intros Hts Hi E. unfold update. destruct (all_set cs i); [|now apply E].
  apply Csum_ext; intros k _. f_equal. apply E. now apply scatter_lt.
Qed.

(** Applying a left inverse of the block after the block restores every
    amplitude. *)
Lemma update_inverse cs ts V U (psi : nat -> C) i :
  NoDup (cs ++ ts) -> left_inverse (length ts) V U ->
  update cs ts V (update cs ts U psi) i = psi i.
Proof.
  intros Hnd Hinv. destruct (NoDup_app_disjoint cs ts Hnd) as [Hts Hd].
  unfold update at 1. destruct (all_set cs i) eqn:Hc; cycle 1.
  { unfold update. now rewrite Hc. }
  set (w := length ts) in *.
  transitivity
    (Csum (fun k => V (gather ts i) k *
       Csum (fun l => U k l * psi (scatter ts l i)) (2 ^ w))%C (2 ^ w)).
  { apply Csum_ext; intros k Hk. f_equal. unfold update.
    rewrite all_set_scatter, Hc by assumption.
    apply Csum_ext; intros l Hl.
    now rewrite gather_scatter, scatter_scatter. }
  transitivity
    (Csum (fun l => kronecker (gather ts i) l * psi (scatter ts l i))%C
          (2 ^ w)).
  { rewrite (Csum_ext _ (fun k => Csum (fun l =>
       V (gather ts i) k * U k l * psi (scatter ts l i))%C (2 ^ w))).
    2:{ intros k _. rewrite <- Csum_scale_l.
        apply Csum_ext; intros; ring. }
    rewrite Csum_exchange. apply Csum_ext; intros l Hl.
    rewrite Csum_scale_r. f_equal.
    apply (Hinv (gather ts i) l); [apply gather_lt|assumption]. }
  rewrite Csum_kronecker by apply gather_lt. now rewrite scatter_gather.
Qed.

(** A unitary block preserves the squared norm of the vector it is
    applied to. *)
Lemma unitary_isometry w U (x : nat -> C) :
  unitary w U ->
  Rsum (fun m => Cnorm2 (Csum (fun l => U m l * x l)%C (2 ^ w))) (2 ^ w) =
  Rsum (fun l => Cnorm2 (x l)) (2 ^ w).
Proof.
  intros HU. apply RtoC_inj. rewrite !RtoC_Rsum.
  set (N := 2 ^ w) in *.
  transitivity
    (Csum (fun l => Csum (fun l' =>
       Cconj (x l) * x l' * kronecker l l')%C N) N).
  - transitivity
      (Csum (fun m => Csum (fun l => Csum (fun l' =>
         Cconj (x l) * x l' * (Cconj (U m l) * U m l'))%C N) N) N).
    + apply Csum_ext; intros m _. rewrite Cnorm2_conj, Csum_conj.
      rewrite <- Csum_scale_r. apply Csum_ext; intros l _.
      rewrite <- Csum_scale_l. apply Csum_ext; intros l' _.
      rewrite Cconj_mult. ring.
    + rewrite Csum_exchange. apply Csum_ext; intros l Hl.
      rewrite Csum_exchange. apply Csum_ext; intros l' Hl'.
      rewrite Csum_scale_l. f_equal. exact (HU l l' Hl Hl').
  - apply Csum_ext; intros l Hl.
    rewrite (Csum_ext _ (fun l' =>
      kronecker l l' * (Cconj (x l) * x l'))%C) by (intros; ring).
    rewrite Csum_kronecker by assumption. now rewrite Cnorm2_conj.
Qed.

Lemma update_class_norm cs ts U (psi : nat -> C) i :
  NoDup (cs ++ ts) -> unitary (length ts) U ->
  Rsum (fun m => Cnorm2 (update cs ts U psi (scatter ts m i)))
       (2 ^ length ts) =
  Rsum (fun m => Cnorm2 (psi (scatter ts m i))) (2 ^ length ts).
Proof.
  intros Hnd HU. destruct (NoDup_app_disjoint cs ts Hnd) as [Hts Hd].
  destruct (all_set cs i) eqn:Hc.
  - rewrite <- (unitary_isometry _ _ (fun l => psi (scatter ts l i)) HU).
    apply Rsum_ext; intros m Hm. f_equal. unfold update.
    rewrite all_set_scatter, Hc by assumption.
    apply Csum_ext; intros l _.
    now rewrite gather_scatter, scatter_scatter.
  - apply Rsum_ext; intros m _. unfold update.
    now rewrite all_set_scatter, Hc.
Qed.

Lemma norm2_apply_primitive n cs ts U v :
  length v = 2 ^ n ->
  Forall (fun q => q < n) (cs ++ ts) -> NoDup (cs ++ ts) ->
  unitary (length ts) U ->
  norm2 (apply_primitive cs ts U v) = norm2 v.
Proof.
  intros Hlen Hlt Hnd HU.
  destruct (NoDup_app_disjoint cs ts Hnd) as [Hts _].
  apply Forall_app in Hlt as [_ Hlt].
  unfold norm2. rewrite length_apply_primitive, Hlen.
  rewrite (Rsum_ext _ (fun i => Cnorm2 (update cs ts U (amp v) i)))
    by (intros i Hi; now rewrite amp_apply_primitive by lia).
  apply (Rmult_eq_reg_l (INR (2 ^ length ts))).
  2:{ apply not_0_INR. pose proof (pow2_pos (length ts)). lia. }
  rewrite <- !(Rsum_classes ts n) by assumption.
  apply Rsum_ext; intros i _. now apply update_class_norm.
Qed.

Lemma norm2_apply_op n op v :
  length v = 2 ^ n -> valid_op n op -> norm2 (apply_op op v) = norm2 v.
Proof.
  unfold valid_op, apply_op. intros Hlen Hv.
  destruct (primitive op) as [[[cs ts] U]|]; [|reflexivity].
  destruct Hv as (Hlt & Hnd & HU). now apply norm2_apply_primitive with n.
Qed.

Lemma norm2_run_ops n ops v :
  length v = 2 ^ n -> Forall (valid_op n) ops ->
  norm2 (run_ops ops v) = norm2 v.
Proof.
  revert v. induction ops as [|op ops IH]; intros v Hlen Hv; [reflexivity|].
  inversion Hv; subst. simpl. unfold run_ops in IH.
  rewrite IH by (try assumption; now rewrite length_apply_op).
  now apply norm2_apply_op with n.
Qed.

Lemma norm2_basis n x : x < 2 ^ n -> norm2 (basis n x) = 1%R.
Proof.
  intros Hx. unfold norm2. rewrite length_basis.
  rewrite (Rsum_single x).
  - now rewrite amp_basis, Nat.eqb_refl, Cnorm2_one.
  - assumption.
  - intros i Hi Hne. rewrite amp_basis by assumption.
    replace (i =? x) with false by (symmetry; now apply Nat.eqb_neq).
    apply Cnorm2_zero.
Qed.

Lemma run_ops_app ops1 ops2 v :
  run_ops (ops1 ++ ops2) v = run_ops ops2 (run_ops ops1 v).
Proof. unfold run_ops. apply fold_left_app. Qed.

(* ----------------------------------------------------------------- *)
(** ** Vector engine and function engine agree *)

Lemma indices_ok_spec n qs :
  indices_ok n qs = true <-> Forall (fun q => q < n) qs /\ NoDup qs.
Proof.
  unfold indices_ok. rewrite andb_true_iff, forallb_forall, Forall_forall.
  assert (Hd : distinct qs = true <-> NoDup qs).
  { induction qs as [|a qs IH]; simpl.
    - split; [constructor|reflexivity].
    - rewrite andb_true_iff, negb_true_iff, IH. split.
      + intros [Hex Hnd]. constructor; [|assumption]. intros Hin.
        assert (existsb (Nat.eqb a) qs = true)
          by (apply existsb_exists; exists a; now rewrite Nat.eqb_refl).
        congruence.
      + intros Hnd. inversion Hnd; subst. split; [|assumption].
        destruct (existsb (Nat.eqb a) qs) eqn:E; [|reflexivity].
        apply existsb_exists in E as (y & Hy & Ey).
        apply Nat.eqb_eq in Ey; subst. contradiction. }
  rewrite Hd. split; intros [Hlt Hnd]; (split; [|assumption]);
    intros q Hq; specialize (Hlt q Hq); now apply Nat.ltb_lt.
Qed.

Lemma amp_apply_op n op v psi i :
  wf_op n op -> length v = 2 ^ n ->
  (forall j, j < 2 ^ n -> amp v j = psi j) ->
  i < 2 ^ n -> amp (apply_op op v) i = apply_fn op psi i.
Proof.
  unfold wf_op, op_qubits, apply_op, apply_fn. intros [Hlt _] Hlen E Hi.
  destruct (primitive op) as [[[cs ts] U]|]; [|now apply E].
  apply Forall_app in Hlt as [_ Hlt].
  rewrite amp_apply_primitive by lia. now apply update_ext with n.
Qed.

Lemma amp_run_ops n ops v psi :
  Forall (wf_op n) ops -> length v = 2 ^ n ->
  (forall j, j < 2 ^ n -> amp v j = psi j) ->
  forall i, i < 2 ^ n -> amp (run_ops ops v) i = run_fn ops psi i.
Proof.
  revert v psi. induction ops as [|op ops IH]; intros v psi Hwf Hlen E i Hi.
  - now apply E.
  - inversion Hwf; subst. simpl. apply IH; try assumption.
    + now rewrite length_apply_op.
    + intros j Hj. now apply amp_apply_op with n.
Qed.

Lemma run_fn_app ops1 ops2 psi :
  run_fn (ops1 ++ ops2) psi = run_fn ops2 (run_fn ops1 psi).
Proof. unfold run_fn. apply fold_left_app. Qed.

Lemma valid_op_wf n op : valid_op n op -> wf_op n op.
Proof.
  unfold valid_op, wf_op, op_qubits.
  destruct (primitive op) as [[[cs ts] U]|].
  - intros (Hlt & Hnd & _). now split.
  - intros _. split; constructor.
Qed.

(* ----------------------------------------------------------------- *)
(** ** Facts about the gate library *)

(** Enumerates the entries of a small block and normalises each. *)
Ltac block_cases :=
  unfold unitary, left_inverse, mat_mult, adjoint, kronecker;
  intros r k Hr Hk; simpl in Hr, Hk;
  repeat (destruct r as [|r]; [|try lia]);
  repeat (destruct k as [|k]; [|try lia]);
  try lia; simpl.

Lemma H_self_inverse : left_inverse 1 H_matrix H_matrix.
Proof.
  block_cases; unfold inv_sqrt2, RtoC, Cmult, Cplus, Copp, Czero, Cone;
    simpl; pose proof inv_sqrt2_square; apply C_eq; simpl; lra.
Qed.

Lemma H_unitary : unitary 1 H_matrix.
Proof.
  block_cases; unfold inv_sqrt2, RtoC, Cmult, Cplus, Copp, Cconj, Czero, Cone;
    simpl; pose proof inv_sqrt2_square; apply C_eq; simpl; lra.
Qed.

Lemma X_unitary : unitary 1 X_matrix.
Proof. block_cases; csolve. Qed.

Lemma Z_unitary : unitary 1 Z_matrix.
Proof. block_cases; csolve. Qed.

Lemma I_unitary : unitary 1 I_matrix.
Proof. block_cases; csolve. Qed.

Lemma phase_inverse theta :
  left_inverse 1 (phase_matrix (- theta)) (phase_matrix theta).
Proof.
  block_cases; try rewrite Cexp_opp_l; csolve.
Qed.

Lemma phase_unitary theta : unitary 1 (phase_matrix theta).
Proof.
  block_cases; try rewrite Cexp_conj, Cexp_opp_l; csolve.
Qed.

Lemma rotation_unitary ax theta : unitary 1 (rotation_matrix ax theta).
Proof.
  destruct ax; block_cases;
    unfold Cexp, Cmult, Cplus, Cconj, Czero, Cone, RtoC; simpl;
    try rewrite !cos_neg; try rewrite !sin_neg;
    pose proof (sin2_cos2 (theta / 2)) as E; unfold Rsqr in E;
    apply C_eq; simpl; nra.
Qed.

Lemma SWAP_self_inverse : left_inverse 2 SWAP_matrix SWAP_matrix.
Proof. unfold SWAP_matrix; block_cases; csolve. Qed.

Lemma SWAP_unitary : unitary 2 SWAP_matrix.
Proof. unfold SWAP_matrix; block_cases; csolve. Qed.

Lemma CNOT_matrix_unitary : unitary 2 CNOT_matrix.
Proof. unfold CNOT_matrix; block_cases; csolve. Qed.

(** Every operation the library names is valid once its indices are. *)
Lemma library_op_valid n op :
  wf_op n op ->
  match op with
  | Single U _ => unitary 1 U
  | Custom U qs => unitary (length qs) U
  | _ => True
  end ->
  valid_op n op.
Proof.
  unfold wf_op, valid_op, op_qubits. intros [Hlt Hnd] HU.
  destruct op as [g q| | | | | | | |]; simpl in *; repeat split;
    try assumption.
  - destruct g; [apply H_unitary|apply X_unitary|apply Z_unitary
                |apply I_unitary].
  - apply X_unitary.
  - apply SWAP_unitary.
  - apply phase_unitary.
  - apply rotation_unitary.
  - apply X_unitary.
Qed.

(* ----------------------------------------------------------------- *)
(** ** Inverting a circuit operation by operation *)

Lemma update_ext_all cs ts U (psi phi : nat -> C) i :
  (forall j, psi j = phi j) -> update cs ts U psi i = update cs ts U phi i.
Proof.
  intros E. unfold update. destruct (all_set cs i); [|apply E].
  apply Csum_ext; intros k _. now rewrite E.
Qed.

Lemma apply_fn_ext op (psi phi : nat -> C) i :
  (forall j, psi j = phi j) -> apply_fn op psi i = apply_fn op phi i.
Proof.
  intros E. unfold apply_fn.
  destruct (primitive op) as [[[cs ts] U]|]; [|apply E].
  now apply update_ext_all.
Qed.

Lemma run_fn_ext ops (psi phi : nat -> C) :
  (forall j, psi j = phi j) -> forall i, run_fn ops psi i = run_fn ops phi i.
Proof.
  revert psi phi. induction ops as [|op ops IH]; intros psi phi E i.
  - apply E.
  - simpl. apply IH. intros j. now apply apply_fn_ext.
Qed.

Lemma op_qubits_negate op : op_qubits (negate_phase op) = op_qubits op.
Proof. now destruct op. Qed.

Lemma wf_op_negate n op : wf_op n op -> wf_op n (negate_phase op).
Proof. unfold wf_op. now rewrite op_qubits_negate. Qed.

Lemma run_fn_inverse n ops (psi : nat -> C) :
  Forall (phase_invertible n) ops ->
  forall i, run_fn (map negate_phase (rev ops)) (run_fn ops psi) i = psi i.
Proof.
  revert psi. induction ops as [|op ops IH]; intros psi Hinv i.
  - reflexivity.
  - inversion Hinv as [|? ? [_ Hop] Hrest]; subst.
    simpl rev. rewrite map_app, run_fn_app. simpl.
    rewrite (apply_fn_ext _ _ (apply_fn op psi)).
    + apply Hop.
    + intros j. now apply IH.
Qed.

Lemma run_ops_inverse n ops v :
  Forall (phase_invertible n) ops -> length v = 2 ^ n ->
  run_ops (map negate_phase (rev ops)) (run_ops ops v) = v.
Proof.
  intros Hinv Hlen. rewrite <- run_ops_app. apply Statevector_ext.
  - apply length_run_ops.
  - rewrite length_run_ops, Hlen. intros i Hi.
    rewrite (amp_run_ops n _ v (amp v)); try assumption; try reflexivity.
    + rewrite run_fn_app. now apply run_fn_inverse with n.
    + apply Forall_app. split.
      * eapply Forall_impl; [|exact Hinv]. now intros op [Hwf _].
      * apply Forall_forall. intros op Hop.
        apply in_map_iff in Hop as (op' & <- & Hin).
        apply in_rev in Hin. rewrite Forall_forall in Hinv.
        apply wf_op_negate. now destruct (Hinv op' Hin).
Qed.

Lemma hadamard_invertible n q :
  q < n -> phase_invertible n (Named Hadamard q).
Proof.
  intros Hq. split.
  - split; simpl; [now repeat constructor|].
    constructor; [easy|constructor].
  - intros psi i. apply update_inverse.
    + simpl. constructor; [easy|constructor].
    + exact H_self_inverse.
Qed.

Lemma NoDup_pair (a b : nat) : a <> b -> NoDup [a; b].
Proof.
  intros Hne. constructor.
  - intros [E|[]]. now apply Hne.
  - constructor; [easy|constructor].
Qed.

Lemma cphase_invertible n theta c t :
  c < n -> t < n -> c <> t -> phase_invertible n (CPhase theta c t).
Proof.
  intros Hc Ht Hne. split.
  - split; simpl; [now repeat constructor|now apply NoDup_pair].
  - intros psi i. apply update_inverse.
    + now apply NoDup_pair.
    + apply phase_inverse.
Qed.

Lemma swap_invertible n a b :
  a < n -> b < n -> a <> b -> phase_invertible n (SWAP a b).
Proof.
  intros Ha Hb Hne. split.
  - split; simpl; [now repeat constructor|now apply NoDup_pair].
  - intros psi i. apply update_inverse.
    + now apply NoDup_pair.
    + exact SWAP_self_inverse.
Qed.

Lemma QFT_invertible n q0 w :
  q0 + w <= n -> Forall (phase_invertible n) (QFT q0 w).
Proof.
  intros Hle. unfold QFT. apply Forall_app. split.
  - induction w as [|w IH]; [constructor|]. simpl. constructor.
    + apply hadamard_invertible; lia.
    + apply Forall_app. split; [|apply IH; lia].
      unfold qft_phases. apply Forall_forall. intros op Hop.
      apply in_map_iff in Hop as (j & <- & Hj).
      apply in_rev, in_seq in Hj. apply cphase_invertible; lia.
  - unfold qft_swaps. apply Forall_forall. intros op Hop.
    apply in_map_iff in Hop as (j & <- & Hj). apply in_seq in Hj.
    assert (w / 2 * 2 <= w)
      by (rewrite Nat.mul_comm; apply Nat.Div0.mul_div_le).
    apply swap_invertible; lia.
Qed.

Lemma dist2_refl v : dist2 v v = 0%R.
Proof.
  unfold dist2. rewrite (Rsum_ext _ (fun _ => 0%R)).
  - apply Rsum_zero.
  - intros i _. unfold Cminus. rewrite Cplus_opp_r. apply Cnorm2_zero.
Qed.

Example QFT_on_three_qubits :
  QFT 0 3 =
  [Named Hadamard 2; CPhase (PI / 2 ^ 1) 1 2; CPhase (PI / 2 ^ 2) 0 2;
   Named Hadamard 1; CPhase (PI / 2 ^ 1) 0 1;
   Named Hadamard 0; SWAP 0 2].
Proof. reflexivity. Qed.

(** C1: on a register of [n] qubits, the forward transform on the range
    [q0, q0 + w) followed by the inverse transform on the same range
    returns every amplitude vector unchanged; the distance between the
    result and the starting vector is therefore below every positive
    tolerance. *)
Theorem QFT_round_trip (n q0 w : nat) (v : Statevector) :
  length v = 2 ^ n -> q0 + w <= n ->
  run_ops (inverse_QFT q0 w) (run_ops (QFT q0 w) v) = v /\
  forall eps : R, (0 < eps)%R ->
    (dist2 (run_ops (inverse_QFT q0 w) (run_ops (QFT q0 w) v)) v < eps)%R.
Proof.
  intros Hlen Hle.
  assert (E : run_ops (inverse_QFT q0 w) (run_ops (QFT q0 w) v) = v).
  { unfold inverse_QFT. apply run_ops_inverse with n; [|assumption].
    now apply QFT_invertible. }
  split; [exact E|]. intros eps Heps. now rewrite E, dist2_refl.
Qed.

(** C5: the initial all-zero state has squared norm exactly 1, and after
    every operation of a valid circuit, that is after every prefix of its
    operation sequence, the squared norm of the amplitude vector is 1,
    hence within every positive tolerance of 1. *)
Theorem unitarity_preservation (qc : CircuitModel) :
  valid_circuit qc ->
  norm2 (initial_state (num_qubits qc)) = 1%R /\
  forall k : nat,
    let v := run_ops (firstn k (operations qc))
                     (initial_state (num_qubits qc)) in
    norm2 v = 1%R /\ forall eps : R, (0 < eps)%R -> (Rabs (norm2 v - 1) < eps)%R.
Proof.
  intros Hv.
  assert (H0 : norm2 (initial_state (num_qubits qc)) = 1%R)
    by (apply norm2_basis, pow2_pos).
  split; [exact H0|]. intros k v.
  assert (E : norm2 v = 1%R).
  { unfold v. rewrite (norm2_run_ops (num_qubits qc)); [exact H0| |].
    - apply length_basis.
    - unfold valid_circuit in Hv. rewrite Forall_forall in *.
      intros op Hop. apply Hv.
      rewrite <- (firstn_skipn k (operations qc)).
      apply in_or_app. now left. }
  split; [exact E|]. intros eps Heps. rewrite E.
  replace (1 - 1)%R with 0%R by ring. now rewrite Rabs_R0.
Qed.

(* ----------------------------------------------------------------- *)
(** ** Action of the named gates *)

Lemma update_mat2 cs q a b c d (psi : nat -> C) i :
  update cs [q] (mat2 a b c d) psi i =
  if all_set cs i
  then if Nat.testbit i q
       then (c * psi (assign_bit i q false) + d * psi (assign_bit i q true))%C
       else (a * psi (assign_bit i q false) + b * psi (assign_bit i q true))%C
  else psi i.
Proof.
  unfold update. destruct (all_set cs i); [|reflexivity].
  cbn [length Nat.pow Nat.mul Nat.add Csum gather scatter Nat.odd Nat.even
       negb Nat.div2].
  destruct (Nat.testbit i q); cbn [Nat.b2n Nat.add Nat.mul mat2]; ring.
Qed.

Lemma assign_of_flip q i :
  assign_bit i q (negb (Nat.testbit i q)) = flip_bit q i.
Proof. reflexivity. Qed.

Lemma update_X cs t (psi : nat -> C) i :
  update cs [t] X_matrix psi i =
  if all_set cs i then psi (flip_bit t i) else psi i.
Proof.
  unfold X_matrix. rewrite update_mat2. destruct (all_set cs i); [|easy].
  unfold flip_bit. destruct (Nat.testbit i t); simpl negb; ring.
Qed.

Lemma apply_fn_X q (psi : nat -> C) i :
  apply_fn (Named PauliX q) psi i = psi (flip_bit q i).
Proof. unfold apply_fn. simpl. now rewrite update_X. Qed.

Lemma apply_fn_CNOT c t (psi : nat -> C) i :
  apply_fn (CNOT c t) psi i =
  if Nat.testbit i c then psi (flip_bit t i) else psi i.
Proof.
  unfold apply_fn. simpl. rewrite update_X. unfold all_set. simpl.
  now rewrite andb_true_r.
Qed.

Lemma apply_fn_MCX cs t (psi : nat -> C) i :
  apply_fn (MCX cs t) psi i =
  if all_set cs i then psi (flip_bit t i) else psi i.
Proof. unfold apply_fn. simpl. now rewrite update_X. Qed.

Lemma apply_fn_H q (psi : nat -> C) i :
  apply_fn (Named Hadamard q) psi i =
  (inv_sqrt2 * (psi (assign_bit i q false) +
                (if Nat.testbit i q then - psi (assign_bit i q true)
                 else psi (assign_bit i q true))))%C.
Proof.
  unfold apply_fn. simpl. unfold H_matrix. rewrite update_mat2.
  unfold all_set. simpl. destruct (Nat.testbit i q); ring.
Qed.

Lemma apply_fn_I q (psi : nat -> C) i :
  apply_fn (Named Identity q) psi i = psi i.
Proof.
  unfold apply_fn. cbn [primitive primitive1_matrix].
  unfold I_matrix. rewrite update_mat2.
  unfold all_set. cbn [forallb]. destruct (Nat.testbit i q) eqn:E.
  - replace (assign_bit i q true) with i
      by (rewrite <- E; symmetry; apply assign_same). ring.
  - replace (assign_bit i q false) with i
      by (rewrite <- E; symmetry; apply assign_same). ring.
Qed.

Lemma apply_fn_Barrier (psi : nat -> C) i : apply_fn Barrier psi i = psi i.
Proof. reflexivity. Qed.

Lemma swap_bits_scatter a b i :
  a <> b ->
  scatter [a; b] (swap_index (gather [a; b] i)) i = swap_bits a b i.
Proof.
  intros Hne. unfold swap_bits. cbn [gather scatter].
  assert (Hb : forall x, Nat.testbit (assign_bit i a x) b = Nat.testbit i b).
  { intros x. rewrite testbit_assign.
    destruct (Nat.eqb_spec a b); [contradiction|reflexivity]. }
  destruct (Nat.testbit i a) eqn:Ea, (Nat.testbit i b) eqn:Eb;
    cbn [Nat.b2n Nat.add Nat.mul swap_index Nat.odd Nat.even negb Nat.div2];
    reflexivity.
Qed.

Lemma apply_fn_SWAP a b (psi : nat -> C) i :
  a <> b -> apply_fn (SWAP a b) psi i = psi (swap_bits a b i).
Proof.
  intros Hne. unfold apply_fn. simpl. unfold update, all_set. simpl forallb.
  cbv iota. rewrite <- (swap_bits_scatter a b i Hne).
  pose proof (gather_lt [a; b] i) as Hg. simpl length in *.
  set (g := gather [a; b] i) in *.
  rewrite (Csum_ext _ (fun k =>
    kronecker (swap_index g) k * psi (scatter [a; b] k i))%C).
  - rewrite Csum_kronecker; [reflexivity|].
    simpl in Hg |- *.
    destruct g as [|[|[|[|g]]]]; simpl; lia.
  - intros k Hk. f_equal. unfold SWAP_matrix, kronecker. simpl in Hg, Hk.
    destruct g as [|[|[|[|g]]]]; try lia;
      destruct k as [|[|[|[|k]]]]; try lia; reflexivity.
Qed.

(* ----------------------------------------------------------------- *)
(** ** Permutation gates act on basis states as their classical action *)

Lemma ket_involution (p : nat -> nat) x i :
  (forall j, p (p j) = j) -> ket x (p i) = ket (p x) i.
Proof.
  intros Hp. unfold ket.
  destruct (Nat.eqb_spec (p i) x) as [E|E],
           (Nat.eqb_spec i (p x)) as [E'|E']; try reflexivity.
  - exfalso. apply E'. now rewrite <- E, Hp.
  - exfalso. apply E. now rewrite E', Hp.
Qed.

Lemma controlled_flip_involutive cs t i :
  ~ In t cs ->
  let p := fun j => if all_set cs j then flip_bit t j else j in
  p (p i) = i.
Proof.
  intros Ht p. unfold p.
  assert (E : all_set cs (flip_bit t i) = all_set cs i).
  { unfold all_set. induction cs as [|c cs IH]; [reflexivity|]. simpl.
    rewrite testbit_flip.
    destruct (Nat.eqb_spec t c) as [->|Hne];
      [exfalso; apply Ht; now left|].
    rewrite IH; [reflexivity|]. intros Hin; apply Ht; now right. }
  destruct (all_set cs i) eqn:Hc.
  - rewrite E. apply flip_flip.
  - now rewrite Hc.
Qed.

Lemma swap_bits_involutive a b i : swap_bits a b (swap_bits a b i) = i.
Proof.
  apply Nat.bits_inj; intros p. unfold swap_bits. rewrite !testbit_assign.
  destruct (Nat.eqb_spec b p) as [->|Hb];
    destruct (Nat.eqb_spec a p) as [->|Ha];
    rewrite ?Nat.eqb_refl; try reflexivity.
  destruct (Nat.eqb_spec p a); congruence.
Qed.

Lemma all_set_single c i : all_set [c] i = Nat.testbit i c.
Proof. unfold all_set. simpl. apply andb_true_r. Qed.

Lemma classical_op_sound n op x y :
  wf_op n op -> classical_op op x = Some y ->
  forall i, apply_fn op (ket x) i = ket y i.
Proof.
  unfold wf_op, op_qubits. intros [_ Hnd] Hop i.
  destruct op as [[| | |] q| |c t|a b| | |cs t| |]; simpl in *;
    try discriminate; inversion Hop; subst; clear Hop.
  - rewrite apply_fn_X. apply (ket_involution (flip_bit q)).
    intros j. apply flip_flip.
  - apply apply_fn_I.
  - rewrite apply_fn_CNOT. rewrite <- !all_set_single.
    transitivity (ket x (if all_set [c] i then flip_bit t i else i));
      [now destruct (all_set [c] i)|].
    apply (ket_involution
             (fun j => if all_set [c] j then flip_bit t j else j)).
    intros j. apply controlled_flip_involutive.
    inversion Hnd as [|? ? Hnotin _]; subst. intros [E|[]].
    apply Hnotin. now left.
  - inversion Hnd as [|? ? Hnotin _]; subst.
    rewrite apply_fn_SWAP by (intros ->; apply Hnotin; now left).
    apply (ket_involution (swap_bits a b)). intros j.
    apply swap_bits_involutive.
  - rewrite apply_fn_MCX.
    transitivity (ket x (if all_set cs i then flip_bit t i else i));
      [now destruct (all_set cs i)|].
    apply (ket_involution
             (fun j => if all_set cs j then flip_bit t j else j)).
    intros j. apply controlled_flip_involutive.
    apply NoDup_app_disjoint in Hnd as [_ Hd]. intros Hin.
    apply (Hd t Hin). now left.
  - reflexivity.
Qed.

Lemma classical_run_sound n ops x y :
  Forall (wf_op n) ops -> classical_run ops x = Some y ->
  forall i, run_fn ops (ket x) i = ket y i.
Proof.
  revert x. induction ops as [|op ops IH]; intros x Hwf Hrun i.
  - simpl in Hrun. now inversion Hrun.
  - inversion Hwf; subst. simpl in Hrun.
    destruct (classical_op op x) as [z|] eqn:Hop; [|discriminate].
    simpl. rewrite (run_fn_ext ops _ (ket z)).
    + now apply IH.
    + intros j. now apply classical_op_sound with n.
Qed.

(** On the vector engine: a circuit of permutation gates sends a basis
    state to the basis state of its classical image. *)
Lemma run_ops_basis n ops x y :
  Forall (wf_op n) ops -> classical_run ops x = Some y ->
  run_ops ops (basis n x) = basis n y.
Proof.
  intros Hwf Hrun. apply Statevector_ext.
  - now rewrite length_run_ops, !length_basis.
  - rewrite length_run_ops, length_basis. intros i Hi.
    rewrite (amp_run_ops n ops (basis n x) (ket x)); try assumption.
    + rewrite amp_basis by assumption.
      now apply classical_run_sound with n.
    + apply length_basis.
    + intros j Hj. now apply amp_basis.
Qed.

Lemma basis_inj n x y : x < 2 ^ n -> basis n x = basis n y -> x = y.
Proof.
  intros Hx E. assert (Ea : amp (basis n x) x = amp (basis n y) x)
    by now rewrite E.
  rewrite !amp_basis in Ea by assumption. rewrite Nat.eqb_refl in Ea.
  destruct (Nat.eqb_spec x y); [assumption|].
  unfold Cone, Czero, RtoC in Ea. inversion Ea. lra.
Qed.

Lemma wf_ops_check n ops :
  forallb (fun op => indices_ok n (op_qubits op)) ops = true ->
  Forall (wf_op n) ops.
Proof.
  rewrite forallb_forall, Forall_forall. intros Hc op Hop.
  now apply indices_ok_spec, Hc.
Qed.

(* ----------------------------------------------------------------- *)
(** ** The circuit built by [Grover.create_oracle] *)

Lemma append_ok op qc :
  indices_ok (num_qubits qc) (op_qubits op) = true ->
  QC.append op qc =
  Ok (mkCircuit (num_qubits qc) (num_clbits qc) (operations qc ++ [op])
        (measurements qc)).
Proof. unfold QC.append. now intros ->. Qed.

Lemma indices_ok_single n q : q < n -> indices_ok n [q] = true.
Proof.
  intros Hq. apply indices_ok_spec. split.
  - now repeat constructor.
  - constructor; [easy|constructor].
Qed.

Lemma length_list_ascii s :
  length (list_ascii_of_string s) = String.length s.
Proof. induction s as [|c s IH]; simpl; [reflexivity|now rewrite IH]. Qed.

Lemma enumerate_bound {A : Type} (l : list A) i a :
  In (i, a) (Grover.enumerate l) -> i < length l.
Proof.
  unfold Grover.enumerate. intros Hin. apply in_combine_l in Hin.
  apply in_seq in Hin. lia.
Qed.

Lemma x_loop_ok (l : list (nat * ascii)) qc :
  (forall ib, In ib l -> fst ib < num_qubits qc) ->
  for_each l
    (fun ib qc' => if Ascii.eqb (snd ib) "0" then QC.x (fst ib) qc'
                   else Ok qc') qc =
  Ok (mkCircuit (num_qubits qc) (num_clbits qc)
        (operations qc ++
           map (Named PauliX)
             (map fst (filter (fun ib => Ascii.eqb (snd ib) "0") l)))
        (measurements qc)).
Proof.
  revert qc. induction l as [|[i c] l IH]; intros qc Hlt.
  - simpl. rewrite app_nil_r. now destruct qc.
  - cbn [for_each filter snd fst].
    assert (Hi : i < num_qubits qc) by (apply (Hlt (i, c)); now left).
    assert (Hl : forall qc', num_qubits qc' = num_qubits qc ->
                 forall ib, In ib l -> fst ib < num_qubits qc').
    { intros qc' E ib Hib. rewrite E. apply Hlt. now right. }
    destruct (Ascii.eqb c "0").
    + unfold QC.x. rewrite append_ok by now apply indices_ok_single.
      cbn [bind]. rewrite IH by now apply Hl.
      cbn [num_qubits num_clbits operations measurements map].
      now rewrite <- app_assoc.
    + cbn [bind]. now apply IH, Hl.
Qed.

Lemma x_where_zero_ok marked_state qc :
  num_qubits qc = String.length marked_state ->
  Grover.x_where_zero marked_state qc =
  Ok (mkCircuit (num_qubits qc) (num_clbits qc)
        (operations qc ++ Grover.x_layer marked_state) (measurements qc)).
Proof.
  intros Hn. unfold Grover.x_where_zero. rewrite x_loop_ok; [reflexivity|].
  intros [i c] Hin. apply enumerate_bound in Hin.
  rewrite length_rev, length_list_ascii in Hin. simpl. lia.
Qed.

Lemma removelast_seq n : removelast (seq 0 n) = seq 0 (n - 1).
Proof.
  destruct n as [|n]; [reflexivity|].
  rewrite seq_S, removelast_last. f_equal. lia.
Qed.

Lemma seq_pred_last n : 1 <= n -> seq 0 (n - 1) ++ [n - 1] = seq 0 n.
Proof.
  intros Hn. destruct n as [|n]; [lia|].
  replace (S n - 1) with n by lia. now rewrite seq_S.
Qed.

Lemma create_oracle_ok marked_state :
  2 <= String.length marked_state ->
  Grover.create_oracle marked_state =
  Ok (mkCircuit (String.length marked_state) 0
        (Grover.oracle_operations marked_state) []).
Proof.
  intros Hn. unfold Grover.create_oracle, Grover.oracle_operations, QC.new.
  set (n := String.length marked_state) in *.
  cbn [bind]. rewrite x_where_zero_ok by reflexivity. cbn [bind].
  unfold QC.h, QC.barrier, QC.mcx.
  rewrite append_ok by (apply indices_ok_single; simpl; lia).
  cbn [bind num_qubits num_clbits operations measurements].
  rewrite removelast_seq.
  destruct (seq 0 (n - 1)) as [|c0 cs] eqn:Hseq.
  { exfalso. assert (E : length (seq 0 (n - 1)) = 0) by now rewrite Hseq.
    rewrite length_seq in E. lia. }
  rewrite <- Hseq.
  rewrite append_ok.
  2:{ cbn [op_qubits primitive num_qubits].
      rewrite seq_pred_last by lia. apply indices_ok_spec. split.
      - apply Forall_forall. intros q Hq. apply in_seq in Hq. lia.
      - apply seq_NoDup. }
  cbn [bind num_qubits num_clbits operations measurements].
  rewrite append_ok by (apply indices_ok_single; simpl; lia).
  cbn [bind]. rewrite x_where_zero_ok by reflexivity.
  cbn [bind num_qubits num_clbits operations measurements].
  rewrite append_ok by reflexivity.
  cbn [num_qubits num_clbits operations measurements].
  f_equal. f_equal. rewrite <- !app_assoc. reflexivity.
Qed.

(* ----------------------------------------------------------------- *)
(** ** Action of the Grover oracle *)

Lemma run_fn_x_layer qs (psi : nat -> C) i :
  run_fn (map (Named PauliX) qs) psi i = psi (flip_all qs i).
Proof.
  revert psi. induction qs as [|q qs IH]; intros psi; [reflexivity|].
  simpl. rewrite IH. now rewrite apply_fn_X.
Qed.

Lemma testbit_flip_all qs i p :
  NoDup qs ->
  Nat.testbit (flip_all qs i) p =
  xorb (Nat.testbit i p) (existsb (Nat.eqb p) qs).
Proof.
  intros Hnd. induction qs as [|q qs IH]; simpl.
  - now rewrite xorb_false_r.
  - inversion Hnd as [|? ? Hnotin Hnd']; subst.
    rewrite testbit_flip, IH by assumption.
    rewrite (Nat.eqb_sym p q). destruct (Nat.eqb_spec q p) as [->|Hne].
    + replace (existsb (Nat.eqb p) qs) with false.
      * simpl. now destruct (Nat.testbit i p).
      * symmetry. apply not_true_is_false. intros E.
        apply existsb_exists in E as (y & Hy & Ey).
        apply Nat.eqb_eq in Ey; subst. contradiction.
    + reflexivity.
Qed.

Lemma flip_all_involutive qs i :
  NoDup qs -> flip_all qs (flip_all qs i) = i.
Proof.
  intros Hnd. apply Nat.bits_inj; intros p.
  rewrite !testbit_flip_all by assumption.
  now rewrite xorb_assoc, xorb_nilpotent, xorb_false_r.
Qed.

(** Hadamard, multi-controlled X, Hadamard on the target is a
    multi-controlled Z: a sign on the indices with all the bits set. *)
Lemma run_fn_mcz cs t (psi : nat -> C) i :
  ~ In t cs ->
  run_fn [Named Hadamard t; MCX cs t; Named Hadamard t] psi i =
  if all_set cs i && Nat.testbit i t then Copp (psi i) else psi i.
Proof.
  intros Ht. cbn [run_fn fold_left].
  rewrite apply_fn_H, !apply_fn_MCX.
  assert (Ea : forall b, all_set cs (assign_bit i t b) = all_set cs i).
  { intros b. unfold all_set. induction cs as [|c cs IH]; [reflexivity|].
    simpl. rewrite testbit_assign.
    destruct (Nat.eqb_spec t c) as [->|Hne];
      [exfalso; apply Ht; now left|].
    rewrite IH; [reflexivity|]. intros Hin; apply Ht; now right. }
  assert (Ef : forall b, flip_bit t (assign_bit i t b) =
                         assign_bit i t (negb b)).
  { intros b. unfold flip_bit. rewrite testbit_assign, Nat.eqb_refl.
    apply assign_assign. }
  rewrite !Ea, !Ef. cbn [negb].
  pose proof inv_sqrt2_half as Hh.
  destruct (all_set cs i); cbn [andb]; rewrite !apply_fn_H;
    rewrite !testbit_assign, !Nat.eqb_refl, !assign_assign;
    destruct (Nat.testbit i t) eqn:Eb;
    try (replace (assign_bit i t true) with i
           by (rewrite <- Eb; symmetry; apply assign_same));
    try (replace (assign_bit i t false) with i
           by (rewrite <- Eb; symmetry; apply assign_same));
    match goal with
    | |- ?lhs = ?rhs =>
        transitivity ((inv_sqrt2 * inv_sqrt2 + inv_sqrt2 * inv_sqrt2) * rhs)%C;
          [ring | rewrite Hh; ring]
    end.
Qed.

(* Positions of the character '0' and bits of the marked index. *)

Lemma zero_positions_from (a : nat) (L : list ascii) p :
  In p (map fst (filter (fun ib => Ascii.eqb (snd ib) "0")
                   (combine (seq a (length L)) L))) <->
  a <= p < a + length L /\ Ascii.eqb (nth (p - a) L "0"%char) "0" = true.
Proof.
  revert a. induction L as [|c L IH]; intros a.
  - simpl. split; [contradiction|lia].
  - cbn [length seq combine filter snd].
    assert (Hrest :
      In p (map fst (filter (fun ib => Ascii.eqb (snd ib) "0")
                       (combine (seq (S a) (length L)) L))) <->
      S a <= p < a + S (length L) /\
      Ascii.eqb (nth (p - a) (c :: L) "0"%char) "0" = true).
    { rewrite IH. split; intros [Hp E]; (split; [lia|]).
      - replace (p - a) with (S (p - S a)) by lia. exact E.
      - replace (p - a) with (S (p - S a)) in E by lia. exact E. }
    destruct (Ascii.eqb c "0") eqn:Ec.
    + cbn [map fst In]. rewrite Hrest. split.
      * intros [<-|[Hp E]].
        -- split; [lia|]. now rewrite Nat.sub_diag.
        -- split; [lia|exact E].
      * intros [Hp E]. destruct (Nat.eq_dec a p) as [->|Hne];
          [now left|right]. split; [lia|exact E].
    + rewrite Hrest. split.
      * intros [Hp E]. split; [lia|exact E].
      * intros [Hp E]. split; [|exact E].
        destruct (Nat.eq_dec a p) as [->|Hne]; [|lia].
        rewrite Nat.sub_diag in E. simpl in E. congruence.
Qed.

Lemma zero_positions_NoDup_from (a : nat) (L : list ascii) :
  NoDup (map fst (filter (fun ib => Ascii.eqb (snd ib) "0")
                    (combine (seq a (length L)) L))).
Proof.
  revert a. induction L as [|c L IH]; intros a; [constructor|].
  cbn [length seq combine filter snd]. destruct (Ascii.eqb c "0").
  - cbn [map fst]. constructor; [|apply IH].
    rewrite zero_positions_from. lia.
  - apply IH.
Qed.

Lemma zero_positions_NoDup s : NoDup (Grover.zero_positions s).
Proof. apply zero_positions_NoDup_from. Qed.

Lemma zero_positions_mem s p :
  existsb (Nat.eqb p) (Grover.zero_positions s) =
  (p <? String.length s) &&
  Ascii.eqb (nth p (rev (list_ascii_of_string s)) "0"%char) "0".
Proof.
  apply eq_iff_eq_true. rewrite existsb_exists, andb_true_iff, Nat.ltb_lt.
  unfold Grover.zero_positions, Grover.enumerate.
  assert (Hlen : length (rev (list_ascii_of_string s)) = String.length s)
    by now rewrite length_rev, length_list_ascii.
  rewrite <- Hlen. split.
  - intros (y & Hy & Ey). apply Nat.eqb_eq in Ey; subst y.
    apply zero_positions_from in Hy. rewrite Nat.sub_0_r in Hy.
    destruct Hy as [Hp E]. split; [lia|exact E].
  - intros [Hp E]. exists p. split; [|apply Nat.eqb_refl].
    apply zero_positions_from. rewrite Nat.sub_0_r. split; [lia|exact E].
Qed.

Lemma testbit_marked_index s p :
  Nat.testbit (Grover.marked_index s) p =
  negb (Ascii.eqb (nth p (rev (list_ascii_of_string s)) "0"%char) "0").
Proof.
  unfold Grover.marked_index. rewrite <- fold_left_rev_right.
  generalize (rev (list_ascii_of_string s)) as L. intros L. revert p.
  induction L as [|c L IH]; intros p.
  - simpl. rewrite Nat.bits_0. now destruct p.
  - cbn [fold_right].
    replace (if Ascii.eqb c "0" then 0 else 1)
      with (Nat.b2n (negb (Ascii.eqb c "0")))
      by now destruct (Ascii.eqb c "0").
    destruct p as [|p].
    + now rewrite Nat.testbit_0_r.
    + rewrite Nat.testbit_succ_r. apply IH.
Qed.

Lemma all_set_seq m j :
  all_set (seq 0 m) j = true <-> forall p, p < m -> Nat.testbit j p = true.
Proof.
  unfold all_set. rewrite forallb_forall. split.
  - intros Hs p Hp. apply Hs, in_seq. lia.
  - intros Hs p Hp. apply Hs. apply in_seq in Hp. lia.
Qed.

(** After the X layer, all bits are set exactly at the marked index. *)
Lemma oracle_condition s i :
  1 <= String.length s -> i < 2 ^ String.length s ->
  let n := String.length s in
  let j := flip_all (Grover.zero_positions s) i in
  all_set (seq 0 (n - 1)) j && Nat.testbit j (n - 1) =
  (i =? Grover.marked_index s).
Proof.
  intros Hn Hi n j. apply eq_iff_eq_true.
  rewrite andb_true_iff, all_set_seq, Nat.eqb_eq.
  assert (Hj : forall p, Nat.testbit j p =
                xorb (Nat.testbit i p)
                  ((p <? n) &&
                   Ascii.eqb (nth p (rev (list_ascii_of_string s)) "0"%char)
                             "0")).
  { intros p. unfold j.
    rewrite testbit_flip_all by apply zero_positions_NoDup.
    now rewrite zero_positions_mem. }
  split.
  - intros [Hlow Htop]. apply Nat.bits_inj; intros p.
    rewrite testbit_marked_index. destruct (Nat.lt_ge_cases p n) as [Hp|Hp].
    + assert (Ep : Nat.testbit j p = true).
      { destruct (Nat.eq_dec p (n - 1)) as [->|Hne]; [exact Htop|].
        apply Hlow. lia. }
      rewrite Hj in Ep. apply Nat.ltb_lt in Hp. rewrite Hp in Ep.
      simpl in Ep. destruct (Nat.testbit i p), (Ascii.eqb _ _); easy.
    + rewrite (proj1 (lt_pow2_bits i n) Hi p Hp).
      rewrite nth_overflow; [reflexivity|].
      rewrite length_rev, length_list_ascii. exact Hp.
  - intros ->. assert (Hall : forall p, p < n -> Nat.testbit j p = true).
    { intros p Hp. rewrite Hj, testbit_marked_index.
      apply Nat.ltb_lt in Hp. rewrite Hp. simpl.
      now destruct (Ascii.eqb _ _). }
    split; [intros p Hp; apply Hall; lia|apply Hall; lia].
Qed.

Lemma run_fn_oracle s (psi : nat -> C) i :
  1 <= String.length s -> i < 2 ^ String.length s ->
  run_fn (Grover.oracle_operations s) psi i =
  phase_flip (Grover.marked_index s) psi i.
Proof.
  intros Hn Hi. unfold Grover.oracle_operations, Grover.x_layer.
  cbv zeta. rewrite run_fn_app, run_fn_app, run_fn_app.
  replace (run_fn [Barrier]) with (fun phi : nat -> C => phi) by reflexivity.
  cbv beta. rewrite run_fn_x_layer, run_fn_mcz.
  2:{ intros Hin. apply in_seq in Hin. lia. }
  rewrite !run_fn_x_layer.
  rewrite flip_all_involutive by apply zero_positions_NoDup.
  pose proof (oracle_condition s i Hn Hi) as Hc. cbv zeta in Hc.
  unfold phase_flip. now rewrite Hc.
Qed.

Lemma oracle_operations_wf s :
  1 <= String.length s ->
  Forall (wf_op (String.length s)) (Grover.oracle_operations s).
Proof.
  intros Hn. set (n := String.length s) in *.
  assert (Hx : Forall (wf_op n) (Grover.x_layer s)).
  { apply Forall_forall. intros op Hop.
    apply in_map_iff in Hop as (q & <- & Hq).
    assert (E : existsb (Nat.eqb q) (Grover.zero_positions s) = true)
      by (apply existsb_exists; exists q; now rewrite Nat.eqb_refl).
    rewrite zero_positions_mem in E. apply andb_true_iff in E as [E _].
    apply Nat.ltb_lt in E. apply indices_ok_spec.
    now apply indices_ok_single. }
  assert (Hh : wf_op n (Named Hadamard (n - 1)))
    by (apply indices_ok_spec, indices_ok_single; lia).
  assert (Hm : wf_op n (MCX (seq 0 (n - 1)) (n - 1))).
  { unfold wf_op, op_qubits. cbn [primitive].
    rewrite seq_pred_last by lia. split.
    - apply Forall_forall. intros q Hq. apply in_seq in Hq. lia.
    - apply seq_NoDup. }
  assert (Hb : wf_op n Barrier) by (split; constructor).
  unfold Grover.oracle_operations. fold n.
  apply Forall_app; split; [assumption|].
  apply Forall_app; split.
  { constructor; [exact Hh|]. constructor; [exact Hm|].
    constructor; [exact Hh|constructor]. }
  apply Forall_app; split; [assumption|].
  constructor; [exact Hb|constructor].
Qed.

Lemma length_scale c v : length (scale c v) = length v.
Proof. apply length_map. Qed.

Lemma amp_scale c v i : i < length v -> amp (scale c v) i = (c * amp v i)%C.
Proof.
  intros Hi. unfold amp, scale.
  rewrite (nth_indep _ Czero (c * Czero)%C) by now rewrite length_map.
  apply (map_nth (Cmult c)).
Qed.

(** For a string of binary digits the marked index is the number the
    string denotes. *)
Lemma marked_index_binary_from (s : string) (acc : nat) (v : Z) :
  Shor.int_base2_from (Z.of_nat acc) s = Ok v ->
  Z.of_nat
    (fold_left (fun a c => 2 * a + (if Ascii.eqb c "0" then 0 else 1))
               (list_ascii_of_string s) acc) = v.
Proof.
  revert acc. induction s as [|c s IH]; intros acc Hv.
  - simpl in *. now inversion Hv.
  - cbn [list_ascii_of_string fold_left]. cbn [Shor.int_base2_from] in Hv.
    destruct (Ascii.eqb c "0").
    + apply IH. rewrite <- Hv. f_equal. lia.
    + destruct (Ascii.eqb c "1"); [|discriminate].
      apply IH. rewrite <- Hv. f_equal. lia.
Qed.

Lemma marked_index_binary (s : string) (v : Z) :
  Shor.int_base2 s = Ok v -> Z.of_nat (Grover.marked_index s) = v.
Proof.
  intros Hv. apply marked_index_binary_from.
  destruct s; [discriminate|exact Hv].
Qed.

(** C4: the circuit built by [create_oracle] for a marked state of at
    least two characters sends the basis state of the marked index to its
    negative and fixes every other basis state; for a string of binary
    digits the marked index is the number the string denotes. *)
Theorem grover_oracle_phase_flip (marked_state : string) :
  2 <= String.length marked_state ->
  exists oracle : CircuitModel,
    Grover.create_oracle marked_state = Ok oracle /\
    num_qubits oracle = String.length marked_state /\
    (forall v : Z, Shor.int_base2 marked_state = Ok v ->
                   Z.of_nat (Grover.marked_index marked_state) = v) /\
    forall x : nat, x < 2 ^ num_qubits oracle ->
      run_ops (operations oracle) (basis (num_qubits oracle) x) =
      if x =? Grover.marked_index marked_state
      then scale (Copp Cone) (basis (num_qubits oracle) x)
      else basis (num_qubits oracle) x.
Proof.
  intros Hn. eexists. split; [now apply create_oracle_ok|].
  cbn [num_qubits operations]. split; [reflexivity|].
  split; [apply marked_index_binary|].
  set (n := String.length marked_state) in *. intros x Hx.
  apply Statevector_ext.
  - rewrite length_run_ops, length_basis.
    destruct (x =? _); now rewrite ?length_scale, length_basis.
  - rewrite length_run_ops, length_basis. intros i Hi.
    rewrite (amp_run_ops n _ (basis n x) (ket x)); try assumption.
    + rewrite run_fn_oracle by (fold n; lia). unfold phase_flip, ket.
      destruct (Nat.eqb_spec x (Grover.marked_index marked_state)) as [E|E].
      * rewrite amp_scale, amp_basis by (rewrite ?length_basis; assumption).
        rewrite <- E. destruct (i =? x); ring.
      * rewrite amp_basis by assumption.
        destruct (Nat.eqb_spec i (Grover.marked_index marked_state))
          as [E'|E']; [|reflexivity].
        replace (i =? x) with false; [csolve|].
        symmetry. apply Nat.eqb_neq. congruence.
    + apply oracle_operations_wf. fold n. lia.
    + apply length_basis.
    + intros j Hj. now apply amp_basis.
Qed.

(** C9: the gate returned by [c_amod15 7 1] sends the basis state 1 of
    the 4-qubit register to the basis state 8, whereas 7 * 1 mod 15 is 7. *)
Theorem c_amod15_7_1_sends_1_to_8 :
  exists gate : CircuitModel,
    Shor.c_amod15 7 1 = ([], Ok gate) /\
    operations gate = [SWAP 0 1; SWAP 1 2; SWAP 2 3] /\
    run_ops (operations gate) (basis 4 1) = basis 4 8 /\
    basis 4 8 <> basis 4 (7 * 1 mod 15).
Proof.
  eexists. split; [reflexivity|]. cbn [operations].
  split; [reflexivity|]. split.
  - apply run_ops_basis; [|reflexivity]. now apply wf_ops_check.
  - intros E. apply basis_inj in E; [discriminate|simpl; lia].
Qed.

(* ----------------------------------------------------------------- *)
(** ** Evaluating small circuits *)

(** Unfolds the engine on concrete indices, leaving real arithmetic. *)
Ltac qeval :=
  cbv -[Rplus Rmult Ropp Rminus Rinv Rdiv sqrt IZR cos sin PI].

(** Normalises a polynomial in 1 / sqrt 2 using (1 / sqrt 2)^2 = 1 / 2. *)
Ltac sqrt2_arith :=
  let Hs := fresh "Hs" in
  pose proof inv_sqrt2_square as Hs;
  let s := fresh "s" in
  set (s := (/ sqrt 2)%R) in *;
  let Hs2 := fresh "Hs2" in
  assert (Hs2 : (s ^ 2 = / 2)%R) by (rewrite <- Hs; ring);
  let Hs3 := fresh "Hs3" in
  assert (Hs3 : (s ^ 3 = s * / 2)%R) by (rewrite <- Hs; ring);
  let Hs4 := fresh "Hs4" in
  assert (Hs4 : (s ^ 4 = / 4)%R)
    by (replace (s ^ 4)%R with ((s * s) * (s * s))%R by ring;
        rewrite Hs; lra);
  ring_simplify; rewrite ?Hs4, ?Hs3, ?Hs2; try lra.

Ltac amplitude := qeval; apply C_eq; simpl; sqrt2_arith.

(** Decides the comparisons between concrete outcomes. *)
Ltac eval_eqb :=
  repeat match goal with
  | |- context [Nat.eqb ?a ?b] =>
      let v := eval vm_compute in (Nat.eqb a b) in
      change (Nat.eqb a b) with v
  end; cbv iota.

Lemma amp_simulate qc i :
  forallb (fun op => indices_ok (num_qubits qc) (op_qubits op))
          (operations qc) = true ->
  i < 2 ^ num_qubits qc ->
  amp (simulate qc) i = run_fn (operations qc) (ket 0) i.
Proof.
  intros Hwf Hi. unfold simulate, initial_state.
  apply (amp_run_ops (num_qubits qc)); try assumption.
  - now apply wf_ops_check.
  - apply length_basis.
  - intros j Hj. now apply amp_basis.
Qed.

Lemma length_simulate qc : length (simulate qc) = 2 ^ num_qubits qc.
Proof.
  unfold simulate, initial_state. now rewrite length_run_ops, length_basis.
Qed.

Lemma Cnorm2_inv_sqrt2 : Cnorm2 inv_sqrt2 = (1 / 2)%R.
Proof.
  unfold Cnorm2, inv_sqrt2, RtoC. simpl. rewrite inv_sqrt2_square. lra.
Qed.

(* ----------------------------------------------------------------- *)
(** ** The Bell pair of [entanglement.py] *)

Lemma bell_circuit_built : Entanglement.circuit = Ok bell_circuit.
Proof. reflexivity. Qed.

Lemma bell_amplitudes :
  amp (simulate bell_circuit) 0 = inv_sqrt2 /\
  amp (simulate bell_circuit) 1 = Czero /\
  amp (simulate bell_circuit) 2 = Czero /\
  amp (simulate bell_circuit) 3 = inv_sqrt2.
Proof.
  repeat split; rewrite amp_simulate by (try reflexivity; simpl; lia);
    amplitude.
Qed.

Lemma bell_distribution :
  let p := outcome_prob (measurements bell_circuit) (simulate bell_circuit) in
  p 0 = (1 / 2)%R /\ p 1 = 0%R /\ p 2 = 0%R /\ p 3 = (1 / 2)%R.
Proof.
  destruct bell_amplitudes as (A0 & A1 & A2 & A3).
  unfold outcome_prob, born. rewrite length_simulate.
  cbn [num_qubits measurements bell_circuit Nat.pow Nat.mul Nat.add Rsum].
  rewrite A0, A1, A2, A3, Cnorm2_inv_sqrt2, Cnorm2_zero.
  repeat split; eval_eqb; lra.
Qed.

(* ----------------------------------------------------------------- *)
(** ** Sampling *)

Lemma length_sample m p rnds : length (sample m p rnds) = length rnds.
Proof. apply length_map. Qed.

Lemma count_two (samples : list nat) (a b : nat) :
  a <> b -> Forall (fun y => y = a \/ y = b) samples ->
  count samples a + count samples b = length samples /\
  forall c, c <> a -> c <> b -> count samples c = 0.
Proof.
  intros Hab Hs. unfold count. induction Hs as [|y l Hy Hl [IH1 IH2]].
  - split; reflexivity.
  - split.
    + cbn [count_occ length].
      destruct Hy as [-> | ->];
        destruct (Nat.eq_dec a a), (Nat.eq_dec b b),
                 (Nat.eq_dec a b), (Nat.eq_dec b a); try congruence; lia.
    + intros c Ha Hb. cbn [count_occ].
      destruct (Nat.eq_dec y c) as [<-|Hne]; [|now apply IH2].
      destruct Hy; congruence.
Qed.

Lemma count_all (samples : list nat) (a : nat) :
  Forall (fun y => y = a) samples ->
  count samples a = length samples /\
  forall c, c <> a -> count samples c = 0.
Proof.
  intros Hs. unfold count. induction Hs as [|y l -> Hl [IH1 IH2]].
  - split; reflexivity.
  - split.
    + cbn [count_occ length]. destruct (Nat.eq_dec a a); [lia|congruence].
    + intros c Hc. cbn [count_occ].
      destruct (Nat.eq_dec a c); [congruence|now apply IH2].
Qed.

(** The draw from the Bell distribution is 00 or 11 for every variate. *)
Lemma bell_draw (p : nat -> R) (r : R) :
  p 0 = (1 / 2)%R -> p 1 = 0%R -> p 2 = 0%R ->
  draw p 3 0 0%R r = 0 \/ draw p 3 0 0%R r = 3.
Proof.
  intros P0 P1 P2. cbn [draw]. rewrite P0, P1, P2.
  repeat destruct (Rlt_dec _ _); auto; lra.
Qed.

Lemma bell_histogram (samples : list nat) :
  Forall (fun y => y = 0 \/ y = 3) samples ->
  let h := histogram 2 samples in
  Forall (fun kv => fst kv = "00"%string \/ fst kv = "11"%string) h /\
  get h "01" = 0 /\ get h "10" = 0 /\
  get h "00" + get h "11" = length samples.
Proof.
  intros Hs. destruct (count_two samples 0 3 ltac:(lia) Hs) as [Hsum Hz].
  unfold histogram. cbn [Nat.pow Nat.mul Nat.add seq filter].
  rewrite (Hz 1), (Hz 2) by lia. cbn [Nat.ltb Nat.leb].
  destruct (count samples 0) as [|c0] eqn:E0;
    destruct (count samples 3) as [|c3] eqn:E3;
    cbn [Nat.ltb Nat.leb map bitstring get];
    repeat split; try (repeat constructor; fail); cbn; try lia;
    repeat constructor; cbn; auto.
Qed.

(* ----------------------------------------------------------------- *)
(** ** The law of the number of occurrences among independent shots *)

Lemma Zsum_shift (f : nat -> Z) (m : nat) :
  Zsum f (S m) = (f O + Zsum (fun j => f (S j)) m)%Z.
Proof.
  induction m as [|m IH]; [simpl; lia|].
  cbn [Zsum] in *. rewrite IH. lia.
Qed.

Lemma band_sum_spec n k m :
  band_sum n k (binomial n k) m = Zsum (fun j => binomial n (k + j)) m.
Proof.
  revert k. induction m as [|m IH]; intros k; [reflexivity|].
  rewrite Zsum_shift. cbn [band_sum]. rewrite Nat.add_0_r. f_equal.
  change (binomial n k * (Z.of_nat n - Z.of_nat k) / Z.of_nat (S k))%Z
    with (binomial n (S k)).
  rewrite IH. clear.
  induction m as [|m IH]; [reflexivity|]. cbn [Zsum]. rewrite IH.
  now rewrite Nat.add_succ_r.
Qed.

Lemma Rsum_IZR (g : nat -> Z) (c : R) (m : nat) :
  Rsum (fun j => IZR (g j) * c)%R m = (IZR (Zsum g m) * c)%R.
Proof.
  induction m as [|m IH]; cbn [Rsum Zsum]; [ring|].
  rewrite IH, plus_IZR. ring.
Qed.

Lemma half_powers (n k : nat) :
  k <= n -> ((1 / 2) ^ k * (1 - 1 / 2) ^ (n - k) = (1 / 2) ^ n)%R.
Proof.
  intros Hk. replace (1 - 1 / 2)%R with (1 / 2)%R by lra.
  rewrite <- pow_add. f_equal. lia.
Qed.

Lemma band_count :
  (998 * 2 ^ 1000 <
   1000 * Zsum (fun j => binomial 1000 (450 + j)) 101)%Z.
Proof. rewrite <- band_sum_spec. vm_compute. reflexivity. Qed.

(** Among 1000 independent shots an outcome of probability 1/2 occurs
    between 450 and 550 times with probability above 0.998. *)
Lemma band_half : (998 / 1000 < band_probability 1000 (1 / 2) 450 550)%R.
Proof.
  unfold band_probability, shots_law.
  replace (550 - 450 + 1) with 101 by reflexivity.
  rewrite (Rsum_ext _ (fun j =>
     IZR (binomial 1000 (450 + j)) * (1 / 2) ^ 1000)%R).
  2:{ intros j Hj. rewrite Rmult_assoc, half_powers by lia. reflexivity. }
  rewrite Rsum_IZR.
  pose proof band_count as Hc. apply IZR_lt in Hc.
  rewrite !mult_IZR in Hc.
  replace (IZR (2 ^ 1000)) with (2 ^ 1000)%R in Hc
    by (rewrite pow_IZR; reflexivity).
  set (S := IZR (Zsum (fun j => binomial 1000 (450 + j)) 101)) in *.
  assert (Hpos : (0 < 2 ^ 1000)%R) by (apply pow_lt; lra).
  set (T := (2 ^ 1000)%R) in *.
  replace ((1 / 2) ^ 1000)%R with (/ T)%R.
  - apply (Rmult_lt_reg_r T); [exact Hpos|].
    rewrite Rmult_assoc, Rinv_l by lra. lra.
  - unfold T. replace (1 / 2)%R with (/ 2)%R by lra. now rewrite pow_inv.
Qed.

(* ----------------------------------------------------------------- *)
(** ** Deutsch's algorithm *)

Lemma deutsch_constant_distribution :
  let p := outcome_prob (measurements deutsch_constant_circuit)
                        (simulate deutsch_constant_circuit) in
  p 0 = 1%R /\ p 1 = 0%R.
Proof.
  assert (A0 : amp (simulate deutsch_constant_circuit) 0 = inv_sqrt2)
    by (rewrite amp_simulate by (try reflexivity; simpl; lia); amplitude).
  assert (A1 : amp (simulate deutsch_constant_circuit) 1 = Czero)
    by (rewrite amp_simulate by (try reflexivity; simpl; lia); amplitude).
  assert (A2 : amp (simulate deutsch_constant_circuit) 2 = Copp inv_sqrt2)
    by (rewrite amp_simulate by (try reflexivity; simpl; lia); amplitude).
  assert (A3 : amp (simulate deutsch_constant_circuit) 3 = Czero)
    by (rewrite amp_simulate by (try reflexivity; simpl; lia); amplitude).
  unfold outcome_prob, born. rewrite length_simulate.
  cbn [num_qubits measurements deutsch_constant_circuit
       Nat.pow Nat.mul Nat.add Rsum].
  rewrite A0, A1, A2, A3, Cnorm2_opp, Cnorm2_inv_sqrt2, Cnorm2_zero.
  split; eval_eqb; lra.
Qed.

Lemma deutsch_balanced_distribution :
  let p := outcome_prob (measurements deutsch_balanced_circuit)
                        (simulate deutsch_balanced_circuit) in
  p 0 = 0%R /\ p 1 = 1%R.
Proof.
  assert (A0 : amp (simulate deutsch_balanced_circuit) 0 = Czero)
    by (rewrite amp_simulate by (try reflexivity; simpl; lia); amplitude).
  assert (A1 : amp (simulate deutsch_balanced_circuit) 1 = inv_sqrt2)
    by (rewrite amp_simulate by (try reflexivity; simpl; lia); amplitude).
  assert (A2 : amp (simulate deutsch_balanced_circuit) 2 = Czero)
    by (rewrite amp_simulate by (try reflexivity; simpl; lia); amplitude).
  assert (A3 : amp (simulate deutsch_balanced_circuit) 3 = Copp inv_sqrt2)
    by (rewrite amp_simulate by (try reflexivity; simpl; lia); amplitude).
  unfold outcome_prob, born. rewrite length_simulate.
  cbn [num_qubits measurements deutsch_balanced_circuit
       Nat.pow Nat.mul Nat.add Rsum].
  rewrite A0, A1, A2, A3, Cnorm2_opp, Cnorm2_inv_sqrt2, Cnorm2_zero.
  split; eval_eqb; lra.
Qed.

Lemma histogram_single_bit (samples : list nat) (y : nat) :
  y < 2 -> samples <> [] -> Forall (fun s => s = y) samples ->
  histogram 1 samples = [(bitstring 1 y, length samples)].
Proof.
  intros Hy Hne Hs. destruct (count_all samples y Hs) as [Hc Hz].
  assert (Hpos : 0 < length samples)
    by (destruct samples; [congruence|simpl; lia]).
  unfold histogram. cbn [Nat.pow Nat.mul Nat.add seq filter].
  destruct y as [|[|y]]; [| |lia].
  - rewrite Hc, (Hz 1) by lia. apply Nat.ltb_lt in Hpos. rewrite Hpos.
    cbn [Nat.ltb Nat.leb map]. now rewrite Hc.
  - rewrite Hc, (Hz 0) by lia. apply Nat.ltb_lt in Hpos. rewrite Hpos.
    cbn [Nat.ltb Nat.leb map]. now rewrite Hc.
Qed.

(** C3: with the constant oracle the measured bit is 0 with probability
    1 and with the balanced oracle it is 1 with probability 1; for every
    uniform random source all 1024 shots of [deutsch_algorithm] give 0
    for the constant oracle and 1 for the balanced one. *)
Theorem deutsch_distinguishes (rng : nat -> R) :
  uniform_source rng ->
  exists constant balanced qc0 qc1 : CircuitModel,
    Deutsch.create_oracle "constant" = Ok constant /\
    Deutsch.create_oracle "balanced" = Ok balanced /\
    Deutsch.deutsch_circuit constant = Ok qc0 /\
    Deutsch.deutsch_circuit balanced = Ok qc1 /\
    outcome_prob (measurements qc0) (simulate qc0) 0 = 1%R /\
    outcome_prob (measurements qc1) (simulate qc1) 1 = 1%R /\
    Deutsch.deutsch_algorithm constant rng = Ok [("0"%string, 1024)] /\
    Deutsch.deutsch_algorithm balanced rng = Ok [("1"%string, 1024)].
Proof.
  intros Hu.
  exists (mkCircuit 2 0 [] []), (mkCircuit 2 0 [CNOT 0 1] []),
    deutsch_constant_circuit, deutsch_balanced_circuit.
  destruct deutsch_constant_distribution as [C0 C1].
  destruct deutsch_balanced_distribution as [B0 B1].
  do 4 (split; [reflexivity|]).
  split; [exact C0|]. split; [exact B1|].
  assert (Hlen : forall m p, length (sample m p (map rng (seq 0 1024))) = 1024)
    by (intros; now rewrite length_sample, length_map, length_seq).
  assert (Hne : forall m p, sample m p (map rng (seq 0 1024)) <> []).
  { intros m p E. specialize (Hlen m p). rewrite E in Hlen. discriminate. }
  split.
  - unfold Deutsch.deutsch_algorithm.
    change (Deutsch.deutsch_circuit (mkCircuit 2 0 [] []))
      with (Ok deutsch_constant_circuit).
    cbn [bind]. unfold transpile, AerSimulator_run, get_counts, run_samples.
    rewrite (histogram_single_bit _ 0); [now rewrite Hlen|lia|apply Hne|].
    apply Forall_forall. intros y Hy.
    apply in_map_iff in Hy as (r & <- & Hr).
    apply in_map_iff in Hr as (k & <- & _). destruct (Hu k) as [Hlo Hhi].
    cbn [num_clbits deutsch_constant_circuit Nat.pow Nat.mul Nat.add
         Nat.sub draw].
    rewrite C0. destruct (Rlt_dec _ _); [reflexivity|lra].
  - unfold Deutsch.deutsch_algorithm.
    change (Deutsch.deutsch_circuit (mkCircuit 2 0 [CNOT 0 1] []))
      with (Ok deutsch_balanced_circuit).
    cbn [bind]. unfold transpile, AerSimulator_run, get_counts, run_samples.
    rewrite (histogram_single_bit _ 1); [now rewrite Hlen|lia|apply Hne|].
    apply Forall_forall. intros y Hy.
    apply in_map_iff in Hy as (r & <- & Hr).
    apply in_map_iff in Hr as (k & <- & _). destruct (Hu k) as [Hlo Hhi].
    cbn [num_clbits deutsch_balanced_circuit Nat.pow Nat.mul Nat.add
         Nat.sub draw].
    rewrite B0. destruct (Rlt_dec _ _); [lra|reflexivity].
Qed.

(* ----------------------------------------------------------------- *)
(** ** Reproducibility of the sampled histogram *)




(* ----------------------------------------------------------------- *)
(** ** Unsupported configurations *)

(** C7 as stated fails for [c_amod15]: with a base other than 7 it
    prints a line and returns the gate of the empty circuit, so the
    caller receives a value, not an error. *)
Lemma c_amod15_base_2_returns_gate :
  Shor.c_amod15 2 1 =
    (["Error: This function is hard-coded for a=7."%string],
     Ok (mkCircuit 4 0 [] [])) /\
  forall e : exn, snd (Shor.c_amod15 2 1) <> Raise e.
Proof. split; [reflexivity|]. intros e. discriminate. Qed.

(** C7 (as amended): the Deutsch oracle builder raises [ValueError] for
    every type other than 'constant' and 'balanced', and the error
    reaches the caller of a computation that uses the builder; the
    modular-exponentiation builder with a base other than 7 prints an
    error line and returns the gate of the empty 4-qubit circuit, which
    leaves every amplitude vector unchanged. *)
Theorem unsupported_configurations (type : string) (a power : Z) :
  type <> "constant"%string -> type <> "balanced"%string -> a <> 7%Z ->
  Deutsch.create_oracle type =
    Raise (ValueError "type must be 'constant' or 'balanced'") /\
  (forall rng : nat -> R,
     Deutsch.create_oracle type
       >>= (fun oracle => Deutsch.deutsch_algorithm oracle rng) =
     Raise (ValueError "type must be 'constant' or 'balanced'")) /\
  Shor.c_amod15 a power =
    (["Error: This function is hard-coded for a=7."%string],
     Ok (mkCircuit 4 0 [] [])) /\
  forall v : Statevector, run_ops (operations (mkCircuit 4 0 [] [])) v = v.
Proof.
  intros Hc Hb Ha.
  assert (E : Deutsch.create_oracle type =
              Raise (ValueError "type must be 'constant' or 'balanced'")).
  { unfold Deutsch.create_oracle, QC.new. cbn [bind].
    destruct (String.eqb_spec type "constant"); [contradiction|].
    destruct (String.eqb_spec type "balanced"); [contradiction|].
    reflexivity. }
  split; [exact E|]. split; [intros rng; now rewrite E|]. split.
  - unfold Shor.c_amod15. destruct (Z.eqb_spec a 7); [contradiction|].
    reflexivity.
  - reflexivity.
Qed.

Lemma unsupported_configurations_witness :
  Deutsch.create_oracle "periodic" =
    Raise (ValueError "type must be 'constant' or 'balanced'").
Proof.
  apply (unsupported_configurations "periodic" 2 1);
    [discriminate|discriminate|discriminate].
Defined.

(* ----------------------------------------------------------------- *)
(** ** Period recovery in [shor_algorithm] *)

Lemma existsb_Zeqb (r : Z) (l : list Z) :
  existsb (Z.eqb r) l = true <-> In r l.
Proof.
  rewrite existsb_exists. split.
  - intros (y & Hy & E). apply Z.eqb_eq in E. now subst.
  - intros Hin. exists r. split; [assumption|apply Z.eqb_refl].
Qed.

Lemma even_mod2 (r : Z) : (r mod 2 =? 0)%Z = Z.even r.
Proof.
  rewrite Zeven_mod. reflexivity.
Qed.

(** What one pass of the loop body does to the list of candidates. *)
Lemma period_step_cases (ps : list Z) (d : Z) :
  let r := (2 ^ 8 / d)%Z in
  (d <> 0%Z /\ (2 ^ 8 mod d = 0)%Z /\ Z.even r = true /\ ~ In r ps /\
   Shor.period_step ps d = ps ++ [r]) \/
  (~ (d <> 0%Z /\ (2 ^ 8 mod d = 0)%Z /\ Z.even r = true /\ ~ In r ps) /\
   Shor.period_step ps d = ps).
Proof.
  intros r. unfold Shor.period_step.
  change (2 ^ Z.of_nat Shor.n_count)%Z with (2 ^ 8)%Z. fold r.
  destruct (Z.eqb_spec d 0) as [->|Hd]; cbn [negb].
  { right. split; [|reflexivity]. intros (H0 & _). now apply H0. }
  destruct (Z.eqb_spec (2 ^ 8 mod d) 0) as [Hm|Hm].
  2:{ right. split; [|reflexivity]. intros (_ & H0 & _). now apply Hm. }
  rewrite even_mod2.
  destruct (Z.even r) eqn:He; cbn [andb].
  2:{ right. split; [|reflexivity]. intros (_ & _ & H0 & _). discriminate. }
  destruct (existsb (Z.eqb r) ps) eqn:Hin; cbn [negb].
  - right. split; [|reflexivity]. intros (_ & _ & _ & H0).
    apply H0. now apply existsb_Zeqb.
  - left. repeat split; try assumption.
    intros Hr. apply existsb_Zeqb in Hr. congruence.
Qed.

Lemma exact_quotient (d r : Z) :
  d <> 0%Z -> ((2 ^ 8 = r * d)%Z <-> (2 ^ 8 mod d = 0)%Z /\ r = (2 ^ 8 / d)%Z).
Proof.
  intros Hd. split.
  - intros E. split.
    + rewrite E. now apply Z.mod_mul.
    + rewrite E. symmetry. now apply Z.div_mul.
  - intros [Hm ->]. rewrite Z.mul_comm. now apply Z.div_exact.
Qed.

Lemma period_step_in (ps : list Z) (d r : Z) :
  In r (Shor.period_step ps d) <->
  In r ps \/ (d <> 0%Z /\ (2 ^ 8 = r * d)%Z /\ Z.even r = true).
Proof.
  destruct (period_step_cases ps d) as [(Hd & Hm & He & Hn & ->)|[Hno ->]].
  - rewrite in_app_iff. cbn [In]. split.
    + intros [Hin|[<-|[]]]; [now left|right].
      split; [assumption|]. split; [|assumption].
      apply exact_quotient; [assumption|now split].
    + intros [Hin|(_ & E & _)]; [now left|right; left].
      apply exact_quotient in E; [|assumption]. now destruct E.
  - split; [now left|]. intros [Hin|(Hd & E & He)]; [assumption|].
    apply exact_quotient in E as [Hm ->]; [|assumption].
    destruct (in_dec Z.eq_dec (2 ^ 8 / d)%Z ps) as [Hin|Hn]; [assumption|].
    exfalso. apply Hno. now repeat split.
Qed.

Lemma period_step_even (ps : list Z) (d : Z) :
  Forall (fun r => Z.even r = true) ps ->
  Forall (fun r => Z.even r = true) (Shor.period_step ps d).
Proof.
  intros Hps.
  destruct (period_step_cases ps d) as [(Hd & Hm & He & Hn & ->)|[Hno ->]];
    [|assumption].
  apply Forall_app. split; [assumption|]. now repeat constructor.
Qed.

Lemma period_step_NoDup (ps : list Z) (d : Z) :
  NoDup ps -> NoDup (Shor.period_step ps d).
Proof.
  intros Hps.
  destruct (period_step_cases ps d) as [(Hd & Hm & He & Hn & ->)|[Hno ->]];
    [|assumption].
  apply NoDup_app; [assumption|repeat constructor; easy|].
  intros x Hx [<-|[]]. contradiction.
Qed.

Lemma period_loop (keys : list string) (acc periods : list Z) :
  for_each keys
    (fun measurement ps =>
       Shor.int_base2 measurement >>= fun decimal =>
       Ok (Shor.period_step ps decimal)) acc = Ok periods ->
  (Forall (fun r => Z.even r = true) acc ->
   Forall (fun r => Z.even r = true) periods) /\
  (NoDup acc -> NoDup periods) /\
  forall r : Z, In r periods <->
    In r acc \/
    exists measurement decimal, In measurement keys /\
      Shor.int_base2 measurement = Ok decimal /\ decimal <> 0%Z /\
      (2 ^ 8 = r * decimal)%Z /\ Z.even r = true.
Proof.
  revert acc. induction keys as [|m keys IH]; intros acc Hrun.
  - cbn [for_each] in Hrun. inversion Hrun; subst.
    repeat split; try tauto. intros [Hin|(m & d & [] & _)]. assumption.
  - cbn [for_each] in Hrun.
    destruct (Shor.int_base2 m) as [d|e] eqn:Hm; [|discriminate].
    cbn [bind] in Hrun. destruct (IH _ Hrun) as (He & Hn & Hin).
    split; [intros Ha; now apply He, period_step_even|].
    split; [intros Ha; now apply Hn, period_step_NoDup|].
    intros r. rewrite Hin, period_step_in. split.
    + intros [[Ha|(Hd & E & Hev)]|(m' & d' & Hm' & Hrest)].
      * now left.
      * right. exists m, d. split; [now left|]. now repeat split.
      * right. exists m', d'. split; [now right|assumption].
    + intros [Ha|(m' & d' & [<-|Hm'] & Hd' & Hrest)].
      * left. now left.
      * rewrite Hm in Hd'. inversion Hd'; subst. left. right. exact Hrest.
      * right. exists m', d'. now split.
Qed.

(** C8: the candidates returned by the period-recovery loop are even and
    pairwise distinct; r is returned exactly when some measured value d,
    other than 0, satisfies 2^8 = r * d with r even; a measured 0 leaves
    the candidates unchanged; and a nonzero d appends 2^8 / d exactly
    when d divides 2^8, the quotient is even and it is not yet a
    candidate. *)
Theorem period_recovery (counts : list (string * nat)) (periods : list Z) :
  Shor.measured_periods counts = Ok periods ->
  Forall (fun r => Z.even r = true) periods /\
  NoDup periods /\
  (forall r : Z, In r periods <->
     exists measurement decimal, In measurement (map fst counts) /\
       Shor.int_base2 measurement = Ok decimal /\ decimal <> 0%Z /\
       (2 ^ 8 = r * decimal)%Z /\ Z.even r = true) /\
  (forall ps : list Z, Shor.period_step ps 0 = ps) /\
  (forall (ps : list Z) (d : Z), d <> 0%Z ->
     ((2 ^ 8 mod d = 0)%Z /\ Z.even (2 ^ 8 / d) = true /\
      ~ In (2 ^ 8 / d)%Z ps ->
      Shor.period_step ps d = ps ++ [(2 ^ 8 / d)%Z]) /\
     (~ ((2 ^ 8 mod d = 0)%Z /\ Z.even (2 ^ 8 / d) = true /\
         ~ In (2 ^ 8 / d)%Z ps) ->
      Shor.period_step ps d = ps)).
Proof.
  intros Hrun. unfold Shor.measured_periods in Hrun.
  destruct (period_loop _ _ _ Hrun) as (He & Hn & Hin).
  split; [apply He; constructor|]. split; [apply Hn; constructor|].
  split.
  { intros r. rewrite Hin. split; [intros [[]|Hex]; exact Hex|now right]. }
  split; [reflexivity|].
  intros ps d Hd.
  destruct (period_step_cases ps d) as [(_ & Hm & Hev & Hni & E)|[Hno E]].
  - split; [intros _; exact E|]. intros Hneg. exfalso. apply Hneg.
    now repeat split.
  - split; [|intros _; exact E]. intros (Hm & Hev & Hni). exfalso.
    apply Hno. now repeat split.
Qed.

Lemma period_recovery_witness :
  Shor.measured_periods
    [("00000000"%string, 510); ("01000000"%string, 240);
     ("10000000"%string, 250)] = Ok [4%Z; 2%Z] /\
  Forall (fun r => Z.even r = true) [4%Z; 2%Z].
Proof.
  split; [reflexivity|].
  apply (period_recovery
           [("00000000"%string, 510); ("01000000"%string, 240);
            ("10000000"%string, 250)] [4%Z; 2%Z]).
  reflexivity.
Defined.

(* ----------------------------------------------------------------- *)
(** ** The Simon circuit for the secret string 101 *)

Lemma apply_fn_classical n op (psi : nat -> C) i j :
  wf_op n op -> classical_op op i = Some j -> apply_fn op psi i = psi j.
Proof.
  unfold wf_op, op_qubits. intros [_ Hnd] Hop.
  destruct op as [[| | |] q| |c t|a b| | |cs t| |]; simpl in *;
    try discriminate; inversion Hop; subst; clear Hop.
  - apply apply_fn_X.
  - apply apply_fn_I.
  - rewrite apply_fn_CNOT. now destruct (Nat.testbit i c).
  - inversion Hnd as [|? ? Hnotin _]; subst.
    apply apply_fn_SWAP. intros ->. apply Hnotin. now left.
  - rewrite apply_fn_MCX. now destruct (all_set cs i).
  - reflexivity.
Qed.

Lemma classical_run_app ops1 ops2 i :
  classical_run (ops1 ++ ops2) i =
  match classical_run ops1 i with
  | Some j => classical_run ops2 j
  | None => None
  end.
Proof.
  revert i. induction ops1 as [|op ops1 IH]; intros i; [reflexivity|].
  simpl. destruct (classical_op op i); [apply IH|reflexivity].
Qed.

(** A circuit of permutation gates reads each amplitude from the index
    its reversed sequence sends the index to. *)
Lemma run_fn_classical n ops (psi : nat -> C) i j :
  Forall (wf_op n) ops -> classical_run (rev ops) i = Some j ->
  run_fn ops psi i = psi j.
Proof.
  revert psi j. induction ops as [|op ops IH]; intros psi j Hwf Hrun.
  - simpl in Hrun. now inversion Hrun.
  - inversion Hwf; subst. simpl rev in Hrun.
    rewrite classical_run_app in Hrun.
    destruct (classical_run (rev ops) i) as [k|] eqn:Hk; [|discriminate].
    simpl in Hrun.
    destruct (classical_op op k) as [k'|] eqn:Hop; [|discriminate].
    inversion Hrun; subst. simpl.
    rewrite (IH (apply_fn op psi) k) by (assumption || reflexivity).
    now apply apply_fn_classical with n.
Qed.

Lemma simon_circuit_built :
  Simon.make_simon_oracle 3 "101" >>= Simon.make_simon_circuit 3 =
  Ok simon_circuit.
Proof. reflexivity. Qed.

(** The final Hadamard stage at index 1 of the register. *)
Lemma simon_last_stage (phi : nat -> C) :
  run_fn simon_stage_h phi 1 =
  (inv_sqrt2 * (inv_sqrt2 * (inv_sqrt2 *
     (phi 0 - phi 1 + phi 2 - phi 3 + phi 4 - phi 5 + phi 6 - phi 7))))%C.
Proof.
  unfold simon_stage_h. cbn [run_fn fold_left].
  rewrite apply_fn_Barrier, !apply_fn_H.
  repeat match goal with
  | |- context [assign_bit ?i ?q ?b] =>
      let v := eval vm_compute in (assign_bit i q b) in
      change (assign_bit i q b) with v
  | |- context [Nat.testbit ?i ?q] =>
      let v := eval vm_compute in (Nat.testbit i q) in
      change (Nat.testbit i q) with v
  end.
  cbv iota. ring.
Qed.

Lemma simon_first_stage :
  run_fn simon_stage_h (ket 0) 0 =
    (inv_sqrt2 * (inv_sqrt2 * inv_sqrt2))%C /\
  forall j, In j [49; 18; 35; 28; 45; 14; 63] ->
            run_fn simon_stage_h (ket 0) j = Czero.
Proof.
  split.
  - qeval. apply C_eq; simpl; ring.
  - intros j Hj. simpl in Hj.
    repeat (destruct Hj as [<-|Hj]; [qeval; apply C_eq; simpl; ring|]).
    contradiction.
Qed.

Lemma simon_amplitude :
  run_fn (operations simon_circuit) (ket 0) 1 = RtoC (1 / 8).
Proof.
  cbn [operations simon_circuit]. rewrite !run_fn_app, simon_last_stage.
  assert (Hwf : Forall (wf_op 6) simon_stage_oracle)
    by now apply wf_ops_check.
  destruct simon_first_stage as [F0 Fz].
  rewrite (run_fn_classical 6 simon_stage_oracle _ 0 0 Hwf eq_refl).
  rewrite (run_fn_classical 6 simon_stage_oracle _ 1 49 Hwf eq_refl).
  rewrite (run_fn_classical 6 simon_stage_oracle _ 2 18 Hwf eq_refl).
  rewrite (run_fn_classical 6 simon_stage_oracle _ 3 35 Hwf eq_refl).
  rewrite (run_fn_classical 6 simon_stage_oracle _ 4 28 Hwf eq_refl).
  rewrite (run_fn_classical 6 simon_stage_oracle _ 5 45 Hwf eq_refl).
  rewrite (run_fn_classical 6 simon_stage_oracle _ 6 14 Hwf eq_refl).
  rewrite (run_fn_classical 6 simon_stage_oracle _ 7 63 Hwf eq_refl).
  rewrite F0, !Fz by (simpl; tauto).
  unfold inv_sqrt2, RtoC, Cmult, Cplus, Cminus, Copp, Czero. simpl.
  pose proof inv_sqrt2_square as Hs.
  set (s := (/ sqrt 2)%R) in *.
  assert (Hs6 : (s * s * (s * s) * (s * s) = 1 / 8)%R) by (rewrite Hs; lra).
  apply C_eq; simpl; ring_simplify; [|reflexivity].
  replace (s ^ 6)%R with (s * s * (s * s) * (s * s))%R by ring. exact Hs6.
Qed.

Lemma Rsum_ge_term (f : nat -> R) (n j : nat) :
  (forall i, i < n -> (0 <= f i)%R) -> j < n -> (f j <= Rsum f n)%R.
Proof.
  induction n as [|n IH]; intros Hpos Hj; [lia|]. cbn [Rsum].
  assert (0 <= Rsum f n)%R by (apply Rsum_nonneg; auto with arith).
  pose proof (Hpos n (Nat.lt_succ_diag_r n)).
  destruct (Nat.eq_dec j n) as [->|Hne]; [lra|].
  assert (f j <= Rsum f n)%R by (apply IH; [auto with arith|lia]). lra.
Qed.

(** The string 001 is measured with positive probability although its
    inner product with 101 is 1. *)
Lemma simon_measures_001 :
  Simon.dot 3 1 5 = true /\
  (0 < outcome_prob (measurements simon_circuit) (simulate simon_circuit) 1)%R.
Proof.
  split; [reflexivity|].
  unfold outcome_prob. rewrite length_simulate.
  apply Rlt_le_trans with (born (simulate simon_circuit) 1).
  - unfold born. rewrite amp_simulate by (try reflexivity; simpl; lia).
    rewrite simon_amplitude. unfold Cnorm2, RtoC. simpl. lra.
  - apply (Rsum_ge_term
             (fun i => if outcome_of (measurements simon_circuit) i =? 1
                       then born (simulate simon_circuit) i else 0%R)
             (2 ^ num_qubits simon_circuit) 1).
    + intros i _. destruct (_ =? _); [apply Cnorm2_nonneg|lra].
    + simpl. lia.
Qed.

(** C10: for the oracle built by [make_simon_oracle 3 "101"] the output
    register holds 0 on input 000 and 5 on input 000 xor 101, so the
    function it computes does not have the period 101; and in the Simon
    circuit built around it the string 001, whose inner product with 101
    is 1, is measured with positive probability. *)
Theorem simon_oracle_breaks_period :
  exists oracle qc : CircuitModel,
    Simon.make_simon_oracle 3 "101" = Ok oracle /\
    Simon.make_simon_circuit 3 oracle = Ok qc /\
    Simon.oracle_function 3 oracle 0 = Some 0 /\
    Simon.oracle_function 3 oracle (Nat.lxor 0 5) = Some 5 /\
    run_ops (operations oracle) (basis 6 0) = basis 6 0 /\
    run_ops (operations oracle) (basis 6 5) = basis 6 (5 + 2 ^ 3 * 5) /\
    Simon.dot 3 1 5 = true /\
    (0 < outcome_prob (measurements qc) (simulate qc) 1)%R.
Proof.
  eexists. exists simon_circuit. split; [reflexivity|].
  cbn [operations]. split; [reflexivity|].
  split; [reflexivity|]. split; [reflexivity|]. split.
  { apply run_ops_basis; [|reflexivity]. now apply wf_ops_check. }
  split.
  { apply run_ops_basis; [|reflexivity]. now apply wf_ops_check. }
  exact simon_measures_001.
Qed.

(* ----------------------------------------------------------------- *)
(** ** Instances *)

Lemma QFT_round_trip_witness :
  length (basis 2 1) = 2 ^ 2 /\ 0 + 2 <= 2 /\
  run_ops (inverse_QFT 0 2) (run_ops (QFT 0 2) (basis 2 1)) = basis 2 1.
Proof.
  split; [reflexivity|]. split; [lia|].
  apply (QFT_round_trip 2 0 2 (basis 2 1)); [reflexivity|lia].
Defined.

Lemma unitarity_preservation_witness :
  valid_circuit bell_circuit /\ norm2 (simulate bell_circuit) = 1%R.
Proof.
  assert (Hv : valid_circuit bell_circuit).
  { unfold valid_circuit. cbn [operations bell_circuit num_qubits].
    constructor; [|constructor; [|constructor]];
      (apply library_op_valid; [apply indices_ok_spec; reflexivity|exact I]). }
  split; [exact Hv|].
  exact (proj1 (proj2 (unitarity_preservation bell_circuit Hv) 2)).
Defined.

Lemma deutsch_distinguishes_witness :
  uniform_source (fun _ => 0%R) /\
  exists constant : CircuitModel,
    Deutsch.create_oracle "constant" = Ok constant /\
    Deutsch.deutsch_algorithm constant (fun _ => 0%R) =
      Ok [("0"%string, 1024)].
Proof.
  assert (Hu : uniform_source (fun _ => 0%R)) by (intros k; lra).
  split; [exact Hu|].
  destruct (deutsch_distinguishes (fun _ => 0%R) Hu)
    as (c & b & q0 & q1 & H1 & _ & _ & _ & _ & _ & H7 & _).
  exists c. split; assumption.
Defined.

Lemma grover_oracle_phase_flip_witness :
  2 <= String.length "1101" /\
  exists oracle : CircuitModel,
    Grover.create_oracle "1101" = Ok oracle /\
    num_qubits oracle = 4 /\
    run_ops (operations oracle) (basis (num_qubits oracle) 13) =
      scale (Copp Cone) (basis (num_qubits oracle) 13).
Proof.
  assert (Hn : 2 <= String.length "1101") by (simpl; lia).
  split; [exact Hn|].
  destruct (grover_oracle_phase_flip "1101" Hn)
    as (oracle & H1 & H2 & _ & H4).
  exists oracle. split; [exact H1|]. split; [exact H2|].
  apply (H4 13). rewrite H2. simpl. lia.
Defined.

(* ================================================================= *)
(** * Further properties of the programs *)

(** ** The GHZ state of [ghz_state.py] *)

Lemma ghz_amplitudes :
  amp (simulate ghz_circuit) 0 = inv_sqrt2 /\
  amp (simulate ghz_circuit) 7 = inv_sqrt2 /\
  forall i, In i [1; 2; 3; 4; 5; 6] -> amp (simulate ghz_circuit) i = Czero.
Proof.
  split; [|split].
  - rewrite amp_simulate by (try reflexivity; simpl; lia). amplitude.
  - rewrite amp_simulate by (try reflexivity; simpl; lia). amplitude.
  - intros i Hi. simpl in Hi.
    repeat (destruct Hi as [<-|Hi];
            [rewrite amp_simulate by (try reflexivity; simpl; lia);
             amplitude|]).
    contradiction.
Qed.

Lemma ghz_distribution :
  let p := outcome_prob (measurements ghz_circuit) (simulate ghz_circuit) in
  p 0 = (1 / 2)%R /\ p 7 = (1 / 2)%R /\
  forall y, In y [1; 2; 3; 4; 5; 6] -> p y = 0%R.
Proof.
  destruct ghz_amplitudes as (A0 & A7 & Az).
  assert (A1 := Az 1 ltac:(simpl; tauto)).
  assert (A2 := Az 2 ltac:(simpl; tauto)).
  assert (A3 := Az 3 ltac:(simpl; tauto)).
  assert (A4 := Az 4 ltac:(simpl; tauto)).
  assert (A5 := Az 5 ltac:(simpl; tauto)).
  assert (A6 := Az 6 ltac:(simpl; tauto)).
  cbv zeta. unfold outcome_prob, born. rewrite length_simulate.
  cbn [num_qubits measurements ghz_circuit Nat.pow Nat.mul Nat.add Rsum].
  rewrite A0, A1, A2, A3, A4, A5, A6, A7, Cnorm2_inv_sqrt2, Cnorm2_zero.
  split; [eval_eqb; lra|]. split; [eval_eqb; lra|].
  intros y Hy. simpl in Hy.
  repeat (destruct Hy as [<-|Hy]; [eval_eqb; lra|]). contradiction.
Qed.

Lemma ghz_draw (p : nat -> R) (r : R) :
  p 0 = (1 / 2)%R ->
  (forall y, In y [1; 2; 3; 4; 5; 6] -> p y = 0%R) ->
  draw p 7 0 0%R r = 0 \/ draw p 7 0 0%R r = 7.
Proof.
  intros P0 Pz. cbn [draw].
  rewrite P0, !Pz by (simpl; tauto).
  repeat destruct (Rlt_dec _ _); auto; lra.
Qed.

Lemma ghz_histogram (samples : list nat) :
  Forall (fun y => y = 0 \/ y = 7) samples ->
  let h := histogram 3 samples in
  Forall (fun kv => fst kv = "000"%string \/ fst kv = "111"%string) h /\
  get h "000" + get h "111" = length samples.
Proof.
  intros Hs. destruct (count_two samples 0 7 ltac:(lia) Hs) as [Hsum Hz].
  unfold histogram. cbn [Nat.pow Nat.mul Nat.add seq filter].
  rewrite (Hz 1), (Hz 2), (Hz 3), (Hz 4), (Hz 5), (Hz 6) by lia.
  cbn [Nat.ltb Nat.leb].
  destruct (count samples 0) as [|c0] eqn:E0;
    destruct (count samples 7) as [|c7] eqn:E7;
    cbn [Nat.ltb Nat.leb map bitstring get];
    repeat split; try (repeat constructor; fail); cbn; try lia;
    repeat constructor; cbn; auto.
Qed.

(** X1: the circuit of [ghz_state.py] (H on qubit 0, CNOT 0 to 1, CNOT 1
    to 2, all three qubits measured) gives 000 and 111 probability 1/2
    each and every other string probability 0; for every random source
    the histogram of the 1000 shots has no key other than 000 and 111
    and their counts add up to 1000. *)
Theorem ghz_state_histogram (rng : nat -> R) :
  exists (qc : CircuitModel) (counts : list (string * nat)),
    GHZ.circuit = Ok qc /\
    GHZ.counts rng = Ok counts /\
    (let p := outcome_prob (measurements qc) (simulate qc) in
     p 0 = (1 / 2)%R /\ p 7 = (1 / 2)%R /\
     forall y, In y [1; 2; 3; 4; 5; 6] -> p y = 0%R) /\
    map (bitstring (num_clbits qc)) [0; 7] = ["000"; "111"]%string /\
    Forall (fun kv => fst kv = "000"%string \/ fst kv = "111"%string)
           counts /\
    get counts "000" + get counts "111" = 1000.
Proof.
  exists ghz_circuit. eexists.
  split; [reflexivity|]. split; [reflexivity|].
  destruct ghz_distribution as (P0 & P7 & Pz).
  split; [now repeat split|]. split; [reflexivity|].
  unfold AerSimulator_run, get_counts, run_samples.
  set (samples := sample _ _ _).
  assert (Hs : Forall (fun y => y = 0 \/ y = 7) samples).
  { unfold samples, sample. apply Forall_forall. intros y Hy.
    apply in_map_iff in Hy as (r & <- & _). now apply ghz_draw. }
  assert (Hlen : length samples = 1000).
  { unfold samples. now rewrite length_sample, length_map, length_seq. }
  destruct (ghz_histogram samples Hs) as (H1 & H2).
  rewrite Hlen in H2. split; assumption.
Qed.

(* ----------------------------------------------------------------- *)
(** ** The deterministic circuit of [cnot_examples.py] *)

Lemma filter_seq_single (P : nat -> bool) (N y : nat) :
  y < N -> P y = true ->
  (forall z, z < N -> z <> y -> P z = false) ->
  filter P (seq 0 N) = [y].
Proof.
  intros Hy Py Pz.
  replace N with (y + (1 + (N - y - 1))) by lia.
  rewrite !seq_app, !filter_app. cbn [seq filter Nat.add]. rewrite Py.
  assert (Hnil : forall a k, (forall z, In z (seq a k) -> P z = false) ->
                 filter P (seq a k) = []).
  { intros a k Hf. induction (seq a k) as [|z l IH]; [reflexivity|].
    cbn [filter]. rewrite Hf by now left.
    apply IH. intros; apply Hf; now right. }
  rewrite !Hnil; [reflexivity| |].
  - intros z Hz. apply in_seq in Hz. apply Pz; lia.
  - intros z Hz. apply in_seq in Hz. apply Pz; lia.
Qed.

(** When every shot gives the same outcome the histogram has one
    entry. *)
Lemma histogram_constant (m : nat) (samples : list nat) (y : nat) :
  y < 2 ^ m -> samples <> [] -> Forall (fun s => s = y) samples ->
  histogram m samples = [(bitstring m y, length samples)].
Proof.
  intros Hy Hne Hs. destruct (count_all samples y Hs) as [Hc Hz].
  assert (Hpos : 0 < length samples)
    by (destruct samples; [congruence|simpl; lia]).
  unfold histogram. rewrite (filter_seq_single _ (2 ^ m) y).
  - cbn [map]. now rewrite Hc.
  - exact Hy.
  - rewrite Hc. now apply Nat.ltb_lt.
  - intros z _ Hzy. now rewrite (Hz z) by congruence.
Qed.

(** X2: the circuit of [cnot_examples.py] (X on both qubits, then CNOT
    from 0 to 1) ends in the basis state with qubit 0 set and qubit 1
    clear, and for every uniform random source all 1000 shots read 01. *)
Theorem cnot_example_histogram (rng : nat -> R) :
  uniform_source rng ->
  exists qc : CircuitModel,
    CnotExamples.circuit = Ok qc /\
    simulate qc = basis 2 1 /\
    CnotExamples.counts rng = Ok [("01"%string, 1000)].
Proof.
  intros Hu. exists cnot_circuit. split; [reflexivity|].
  assert (Hst : simulate cnot_circuit = basis 2 1).
  { unfold simulate, initial_state. apply run_ops_basis; [|reflexivity].
    now apply wf_ops_check. }
  split; [exact Hst|].
  assert (P : forall y, y < 4 ->
            outcome_prob (measurements cnot_circuit) (simulate cnot_circuit) y
            = if y =? 1 then 1%R else 0%R).
  { intros y Hy. unfold outcome_prob, born. rewrite Hst, length_basis.
    cbn [Nat.pow Nat.mul Nat.add Rsum].
    rewrite !amp_basis by (simpl; lia).
    cbn [Nat.eqb]. rewrite Cnorm2_one, Cnorm2_zero.
    destruct y as [|[|[|[|y]]]]; try lia; eval_eqb; lra. }
  unfold CnotExamples.counts.
  change CnotExamples.circuit with (Ok cnot_circuit). cbn [bind].
  unfold AerSimulator_run, get_counts, run_samples. f_equal.
  rewrite (histogram_constant _ _ 1).
  - now rewrite length_sample, length_map, length_seq.
  - simpl. lia.
  - intros E. apply (f_equal (@length nat)) in E.
    rewrite length_sample, length_map, length_seq in E. discriminate.
  - apply Forall_forall. intros y Hy.
    apply in_map_iff in Hy as (r & <- & Hr).
    apply in_map_iff in Hr as (k & <- & _). destruct (Hu k) as [Hlo Hhi].
    cbn [num_clbits cnot_circuit Nat.pow Nat.mul Nat.add Nat.sub draw].
    rewrite (P 0), (P 1) by lia. cbn [Nat.eqb].
    destruct (Rlt_dec _ _); [lra|].
    destruct (Rlt_dec _ _); [reflexivity|lra].
Qed.

Lemma cnot_example_histogram_witness :
  uniform_source (fun _ => 0%R) /\
  CnotExamples.counts (fun _ => 0%R) = Ok [("01"%string, 1000)].
Proof.
  assert (Hu : uniform_source (fun _ => 0%R)) by (intros k; lra).
  split; [exact Hu|].
  destruct (cnot_example_histogram (fun _ => 0%R) Hu) as (qc & _ & _ & H).
  exact H.
Defined.

(* ----------------------------------------------------------------- *)
(** ** The Deutsch circuit of [ibm_brisbane_deutsch.py] *)

Lemma hardware_deutsch_circuit (secret_bit : Z) :
  HardwareDeutsch.deutsch_algorithm secret_bit =
  Ok (mkCircuit 2 1
        [Named PauliX 1; Named Hadamard 0; Named Hadamard 1;
         (if (secret_bit =? 1)%Z then CNOT 0 1 else Named Identity 0);
         Named Hadamard 0; Named Hadamard 1; Named PauliZ 1]
        [(0, 0)]).
Proof.
  unfold HardwareDeutsch.deutsch_algorithm, HardwareDeutsch.build_oracle.
  destruct (secret_bit =? 1)%Z; reflexivity.
Qed.

Lemma minus_basis_amp (n x i : nat) :
  i < 2 ^ n ->
  amp (scale (Copp Cone) (basis n x)) i =
  if i =? x then Copp Cone else Czero.
Proof.
  intros Hi. rewrite amp_scale, amp_basis by (rewrite ?length_basis; lia).
  destruct (i =? x); csolve.
Qed.

Lemma apply_fn_Z q (psi : nat -> C) i :
  apply_fn (Named PauliZ q) psi i =
  if Nat.testbit i q then (- psi i)%C else psi i.
Proof.
  unfold apply_fn. cbn [primitive primitive1_matrix].
  unfold Z_matrix. rewrite update_mat2.
  unfold all_set. cbn [forallb]. destruct (Nat.testbit i q) eqn:E.
  - replace (assign_bit i q true) with i
      by (rewrite <- E; symmetry; apply assign_same). ring.
  - replace (assign_bit i q false) with i
      by (rewrite <- E; symmetry; apply assign_same). ring.
Qed.

(** Evaluates the bit operations on concrete indices. *)
Ltac eval_bits :=
  repeat match goal with
  | |- context [assign_bit ?i ?q ?b] =>
      let v := eval vm_compute in (assign_bit i q b) in
      change (assign_bit i q b) with v
  | |- context [flip_bit ?q ?i] =>
      let v := eval vm_compute in (flip_bit q i) in
      change (flip_bit q i) with v
  | |- context [Nat.testbit ?i ?q] =>
      let v := eval vm_compute in (Nat.testbit i q) in
      change (Nat.testbit i q) with v
  end; cbv iota.

Lemma hardware_deutsch_state (balanced : bool) :
  run_ops
    [Named PauliX 1; Named Hadamard 0; Named Hadamard 1;
     (if balanced then CNOT 0 1 else Named Identity 0);
     Named Hadamard 0; Named Hadamard 1; Named PauliZ 1]
    (initial_state 2) =
  scale (Copp Cone) (basis 2 (if balanced then 3 else 2)).
Proof.
  apply Statevector_ext.
  - now rewrite length_run_ops, length_scale, !length_basis.
  - unfold initial_state. rewrite length_run_ops, length_basis.
    intros i Hi.
    rewrite (amp_run_ops 2 _ (basis 2 0) (ket 0));
      [| |apply length_basis|intros j Hj; now apply amp_basis|assumption].
    2:{ apply wf_ops_check. now destruct balanced. }
    rewrite minus_basis_amp by assumption.
    simpl in Hi. cbn [run_fn fold_left].
    destruct balanced; destruct i as [|[|[|[|i]]]]; try lia;
      rewrite apply_fn_Z; eval_bits;
      rewrite !apply_fn_H; eval_bits;
      rewrite ?apply_fn_CNOT, ?apply_fn_I; eval_bits;
      rewrite !apply_fn_H; eval_bits;
      rewrite !apply_fn_X; eval_bits;
      unfold ket; eval_eqb;
      first [ring
            |ring_simplify;
             unfold inv_sqrt2, RtoC, Cmult, Cplus, Cminus, Copp, Czero, Cone;
             apply C_eq; simpl; sqrt2_arith].
Qed.

(** X3: the circuit returned by [deutsch_algorithm(secret_bit)] of
    [ibm_brisbane_deutsch.py] ends, up to the sign -1, in a basis state:
    helper qubit 1 set and oracle qubit 0 clear for every secret bit
    other than 1, both qubits set for secret bit 1.  The measured bit is
    therefore 0 with probability 1 in the first case and 1 with
    probability 1 in the second. *)
Theorem hardware_deutsch_outcome (secret_bit : Z) :
  exists qc : CircuitModel,
    HardwareDeutsch.deutsch_algorithm secret_bit = Ok qc /\
    measurements qc = [(0, 0)] /\
    simulate qc =
      scale (Copp Cone) (basis 2 (if (secret_bit =? 1)%Z then 3 else 2)) /\
    outcome_prob (measurements qc) (simulate qc)
                 (if (secret_bit =? 1)%Z then 1 else 0) = 1%R.
Proof.
  eexists. split; [apply hardware_deutsch_circuit|].
  cbn [measurements]. split; [reflexivity|].
  assert (Hst := hardware_deutsch_state (secret_bit =? 1)%Z).
  unfold simulate. cbn [operations num_qubits]. split; [exact Hst|].
  rewrite Hst. unfold outcome_prob, born.
  rewrite length_scale, length_basis.
  cbn [Nat.pow Nat.mul Nat.add Rsum].
  rewrite !minus_basis_amp by (simpl; lia).
  destruct (secret_bit =? 1)%Z; cbn [Nat.eqb];
    rewrite Cnorm2_opp, Cnorm2_one, Cnorm2_zero; eval_eqb; lra.
Qed.

(* ----------------------------------------------------------------- *)
(** ** The gates of [c_amod15] as multiplications modulo 15 *)

Lemma pow4096_mod15 (k : Z) : (0 <= k)%Z -> (4096 ^ k mod 15 = 1)%Z.
Proof.
  intros Hk. pattern k. apply natlike_ind; [reflexivity| |assumption].
  intros j Hj IH. rewrite Z.pow_succ_r, Zmult_mod, IH by assumption.
  reflexivity.
Qed.

Lemma pow8_mod15 (p : Z) :
  (0 <= p)%Z -> (8 ^ p mod 15 = 8 ^ (p mod 4) mod 15)%Z.
Proof.
  intros Hp.
  assert (Hm : (0 <= p mod 4 < 4)%Z) by (apply Z.mod_pos_bound; lia).
  assert (Hq : (0 <= p / 4)%Z) by (apply Z.div_pos; lia).
  rewrite (Z.div_mod p 4) at 1 by lia.
  rewrite Z.pow_add_r, Z.pow_mul_r by lia.
  change (8 ^ 4)%Z with 4096%Z.
  rewrite Zmult_mod, pow4096_mod15 by assumption.
  rewrite Z.mul_1_l. now rewrite Z.mod_mod by lia.
Qed.

Lemma c_amod15_gate (power : Z) :
  Shor.c_amod15 7 power =
  ([], Ok (mkCircuit 4 0
             (if (power mod 4 =? 0)%Z then []
              else if (power mod 4 =? 1)%Z
                then [SWAP 0 1; SWAP 1 2; SWAP 2 3]
              else if (power mod 4 =? 2)%Z then [SWAP 1 3; SWAP 0 2]
              else if (power mod 4 =? 3)%Z
                then [SWAP 0 3; SWAP 0 2; SWAP 1 3]
              else []) [])).
Proof.
  unfold Shor.c_amod15. cbn [Z.eqb Pos.eqb negb].
  destruct (power mod 4 =? 0)%Z; [reflexivity|].
  destruct (power mod 4 =? 1)%Z; [reflexivity|].
  destruct (power mod 4 =? 2)%Z; [reflexivity|].
  destruct (power mod 4 =? 3)%Z; reflexivity.
Qed.

(** X4: for every power whose remainder modulo 4 is not 3 (as for the
    powers 2^q the driver passes) the gate of [c_amod15 7 power] sends
    the basis state x < 15 of its 4-qubit register to the basis state
    8^power * x mod 15: it multiplies by a power of 8, an element of
    order 4 modulo 15 like 7. *)
Theorem c_amod15_multiplies_by_8 (power : Z) (x : nat) :
  (0 <= power)%Z -> (power mod 4 <> 3)%Z -> x < 15 ->
  exists gate : CircuitModel,
    Shor.c_amod15 7 power = ([], Ok gate) /\
    num_qubits gate = 4 /\
    run_ops (operations gate) (basis 4 x) =
    basis 4 (Z.to_nat ((8 ^ power * Z.of_nat x) mod 15)).
Proof.
  intros Hp H3 Hx. eexists. split; [apply c_amod15_gate|].
  cbn [num_qubits operations]. split; [reflexivity|].
  rewrite <- Zmult_mod_idemp_l, pow8_mod15 by assumption.
  assert (Hm : (0 <= power mod 4 < 4)%Z) by (apply Z.mod_pos_bound; lia).
  assert (Hc : (power mod 4 = 0 \/ power mod 4 = 1 \/ power mod 4 = 2)%Z)
    by lia.
  destruct Hc as [E|[E|E]]; rewrite E; cbn [Z.eqb Pos.eqb];
    do 15 (destruct x as [|x];
           [apply run_ops_basis; [now apply wf_ops_check|reflexivity]|]);
    lia.
Qed.

Lemma c_amod15_multiplies_by_8_witness :
  (0 <= 2)%Z /\ (2 mod 4 <> 3)%Z /\ 7 < 15 /\
  exists gate : CircuitModel,
    Shor.c_amod15 7 2 = ([], Ok gate) /\
    num_qubits gate = 4 /\
    run_ops (operations gate) (basis 4 7) =
    basis 4 (Z.to_nat ((8 ^ 2 * Z.of_nat 7) mod 15)).
Proof.
  assert (H0 : (0 <= 2)%Z) by lia.
  assert (H3 : (2 mod 4 <> 3)%Z) by (cbn; lia).
  assert (Hx : 7 < 15) by lia.
  split; [exact H0|]. split; [exact H3|]. split; [exact Hx|].
  exact (c_amod15_multiplies_by_8 2 7 H0 H3 Hx).
Defined.

(* ----------------------------------------------------------------- *)
(** ** Post-processing of the simulator's histogram in [shor_algorithm] *)

Lemma int_base2_from_bitstring (m y : nat) (acc : Z) :
  Shor.int_base2_from acc (bitstring m y) =
  Ok (acc * 2 ^ Z.of_nat m + Z.of_nat (y mod 2 ^ m))%Z.
Proof.
  revert acc. induction m as [|m IH]; intros acc.
  - cbn [bitstring Shor.int_base2_from].
    rewrite Nat.pow_0_r, Nat.mod_1_r. f_equal. cbn. lia.
  - cbn [bitstring Shor.int_base2_from].
    assert (Hy : y mod 2 ^ S m =
                 y mod 2 ^ m + 2 ^ m * Nat.b2n (Nat.testbit y m)).
    { rewrite Nat.pow_succ_r', (Nat.mul_comm 2), Nat.Div0.mod_mul_r.
      now rewrite Nat.testbit_spec'. }
    rewrite Hy, Nat2Z.inj_add, Nat2Z.inj_mul, Nat2Z.inj_pow.
    rewrite Nat2Z.inj_succ, Z.pow_succ_r by lia.
    destruct (Nat.testbit y m).
    + change (Ascii.eqb "1" "0") with false.
      change (Ascii.eqb "1" "1") with true. cbv iota.
      rewrite IH. f_equal. cbn [Nat.b2n]. change (Z.of_nat 2) with 2%Z.
      change (Z.of_nat 1) with 1%Z. ring.
    + change (Ascii.eqb "0" "0") with true. cbv iota.
      rewrite IH. f_equal. cbn [Nat.b2n]. change (Z.of_nat 2) with 2%Z.
      change (Z.of_nat 0) with 0%Z. ring.
Qed.

(** Reading a key of the histogram back gives the measured value. *)
Lemma int_base2_bitstring (m y : nat) :
  1 <= m -> y < 2 ^ m ->
  Shor.int_base2 (bitstring m y) = Ok (Z.of_nat y).
Proof.
  intros Hm Hy. destruct m as [|m]; [lia|].
  unfold Shor.int_base2.
  change (match bitstring (S m) y with
          | EmptyString => Raise (ValueError "invalid literal for int() with base 2")
          | String _ _ => Shor.int_base2_from 0 (bitstring (S m) y)
          end)
    with (Shor.int_base2_from 0 (bitstring (S m) y)).
  rewrite int_base2_from_bitstring, Nat.mod_small by assumption.
  reflexivity.
Qed.

Lemma histogram_keys (m : nat) (samples : list nat) (key : string) :
  In key (map fst (histogram m samples)) <->
  exists y, key = bitstring m y /\ y < 2 ^ m /\ In y samples.
Proof.
  unfold histogram. rewrite map_map. cbn [fst]. rewrite in_map_iff.
  split.
  - intros (y & <- & Hy). apply filter_In in Hy as [Hy Hc].
    apply in_seq in Hy. apply Nat.ltb_lt in Hc.
    exists y. split; [reflexivity|]. split; [lia|].
    unfold count in Hc. now apply (count_occ_In Nat.eq_dec).
  - intros (y & -> & Hy & Hin). exists y. split; [reflexivity|].
    apply filter_In. split; [apply in_seq; lia|].
    apply Nat.ltb_lt. unfold count. now apply (count_occ_In Nat.eq_dec).
Qed.

(** The loop of step 8 does not raise on keys that are binary numerals. *)
Lemma period_loop_total (keys : list string) (acc : list Z) :
  (forall key, In key keys -> exists d, Shor.int_base2 key = Ok d) ->
  exists periods,
    for_each keys
      (fun measurement ps =>
         Shor.int_base2 measurement >>= fun decimal =>
         Ok (Shor.period_step ps decimal)) acc = Ok periods.
Proof.
  revert acc. induction keys as [|k keys IH]; intros acc Hk.
  - now exists acc.
  - cbn [for_each]. destruct (Hk k) as [d Hd]; [now left|].
    rewrite Hd. cbn [bind]. apply IH. intros key Hin. apply Hk. now right.
Qed.

(** The loop of step 8 on a histogram: it returns, and its candidates
    are those the keys give rise to. *)
Lemma histogram_run (samples : list nat) :
  exists periods : list Z,
    Shor.measured_periods (histogram Shor.n_count samples) = Ok periods /\
    NoDup periods /\
    forall r : Z, In r periods <->
      exists key decimal,
        In key (map fst (histogram Shor.n_count samples)) /\
        Shor.int_base2 key = Ok decimal /\ decimal <> 0%Z /\
        (2 ^ 8 = r * decimal)%Z /\ Z.even r = true.
Proof.
  unfold Shor.measured_periods.
  destruct (period_loop_total
              (map fst (histogram Shor.n_count samples)) [])
    as [periods Hrun].
  { intros key Hin. apply histogram_keys in Hin as (y & -> & Hy & _).
    exists (Z.of_nat y). apply int_base2_bitstring; [|assumption].
    unfold Shor.n_count. lia. }
  exists periods. split; [exact Hrun|].
  destruct (period_loop _ _ _ Hrun) as (_ & Hn & Hin).
  split; [apply Hn; constructor|].
  intros r. rewrite Hin. split; [intros [[]|H]; exact H|now right].
Qed.

(** X5: on the histogram of any run of the 8-bit counting register the
    period-recovery loop of [shor_algorithm] does not raise, and its
    candidates are exactly the even r with 2^8 = r * y for a measured
    value y other than 0, each listed once. *)
Theorem histogram_periods (samples : list nat) :
  exists periods : list Z,
    Shor.measured_periods (histogram Shor.n_count samples) = Ok periods /\
    NoDup periods /\
    forall r : Z, In r periods <->
      Z.even r = true /\
      exists y, In y samples /\ y < 2 ^ Shor.n_count /\ y <> 0 /\
                (2 ^ 8 = r * Z.of_nat y)%Z.
Proof.
  destruct (histogram_run samples) as (periods & Hrun & Hn & Hin).
  exists periods. split; [exact Hrun|]. split; [exact Hn|].
  intros r. rewrite Hin. split.
  - intros (key & d & Hkey & Hd & Hd0 & E & He).
    apply histogram_keys in Hkey as (y & -> & Hy & Hs).
    rewrite int_base2_bitstring in Hd
      by (assumption || (unfold Shor.n_count; lia)).
    inversion Hd; subst d. split; [assumption|].
    exists y. repeat split; try assumption. lia.
  - intros (He & y & Hs & Hy & Hy0 & E).
    exists (bitstring Shor.n_count y), (Z.of_nat y).
    split; [apply histogram_keys; now exists y|].
    split; [apply int_base2_bitstring; [unfold Shor.n_count; lia|assumption]|].
    repeat split; try assumption. lia.
Qed.

(* ----------------------------------------------------------------- *)
(** ** From candidate periods to factors *)

Lemma gcd_15_residue (x : Z) : Z.gcd x 15 = Z.gcd (x mod 15) 15.
Proof. rewrite Z.gcd_mod by lia. apply Z.gcd_comm. Qed.

(** The factor test can only pass with the factors 3 and 5: the two
    greatest common divisors depend on x modulo 15 only. *)
Lemma factor_test_sound (x : Z) :
  Z.gcd (x - 1) 15 <> 1%Z -> Z.gcd (x - 1) 15 <> 15%Z ->
  Z.gcd (x + 1) 15 <> 1%Z -> Z.gcd (x + 1) 15 <> 15%Z ->
  (Z.gcd (x - 1) 15 = 3 /\ Z.gcd (x + 1) 15 = 5)%Z \/
  (Z.gcd (x - 1) 15 = 5 /\ Z.gcd (x + 1) 15 = 3)%Z.
Proof.
  rewrite (gcd_15_residue (x - 1)), (gcd_15_residue (x + 1)).
  rewrite <- Zminus_mod_idemp_l, <- Zplus_mod_idemp_l.
  assert (Hk : (0 <= x mod 15 < 15)%Z) by (apply Z.mod_pos_bound; lia).
  set (k := (x mod 15)%Z) in *.
  assert (Hc : (k = 0 \/ k = 1 \/ k = 2 \/ k = 3 \/ k = 4 \/ k = 5 \/
                k = 6 \/ k = 7 \/ k = 8 \/ k = 9 \/ k = 10 \/ k = 11 \/
                k = 12 \/ k = 13 \/ k = 14)%Z) by lia.
  clearbody k.
  repeat (destruct Hc as [->|Hc]; [cbn; intros; (tauto || congruence)|]).
  subst k. cbn. intros; (tauto || congruence).
Qed.

(** The test of the loop, as it is evaluated. *)
Lemma factor_test_passes (x : Z) :
  negb (Z.gcd (x - 1) 15 =? 1)%Z && negb (Z.gcd (x - 1) 15 =? 15)%Z &&
  negb (Z.gcd (x + 1) 15 =? 1)%Z && negb (Z.gcd (x + 1) 15 =? 15)%Z = true ->
  (Z.gcd (x - 1) 15 = 3 /\ Z.gcd (x + 1) 15 = 5)%Z \/
  (Z.gcd (x - 1) 15 = 5 /\ Z.gcd (x + 1) 15 = 3)%Z.
Proof.
  intros Ht. repeat (apply andb_true_iff in Ht as [Ht ?]).
  apply factor_test_sound;
    match goal with
    | H : negb (?a =? ?b)%Z = true |- ?a <> ?b =>
        apply Z.eqb_neq; now apply negb_true_iff
    end.
Qed.

Lemma find_factors_complete (pow_int : Z -> Z) (periods : list Z) :
  In 4%Z periods -> pow_int 4%Z = 49%Z ->
  exists r f1 f2,
    ShorFactors.find_factors pow_int periods = Some (r, f1, f2) /\
    (f1 * f2 = ShorFactors.N)%Z.
Proof.
  intros Hin H49. induction periods as [|r0 rest IH]; [contradiction|].
  cbn [ShorFactors.find_factors]. unfold ShorFactors.N in *.
  destruct (negb (r0 =? 0)%Z && (r0 mod 2 =? 0)%Z) eqn:Hel.
  - match goal with
    | |- context [if ?c then _ else _] => destruct c eqn:Hc
    end.
    + eexists _, _, _. split; [reflexivity|].
      destruct (factor_test_passes _ Hc) as [[-> ->]|[-> ->]]; reflexivity.
    + destruct Hin as [->|Hin]; [|now apply IH].
      rewrite H49 in Hc. discriminate.
  - destruct Hin as [->|Hin]; [discriminate|now apply IH].
Qed.

(** X6: whatever value the floating-point power [int(math.pow(a, r/2))]
    takes, factors the loop of [shor_algorithm] reports are right: the
    period it stops at is one of the candidates, even and not 0, and the
    two reported numbers are 3 and 5 in some order. *)
Theorem find_factors_sound (pow_int : Z -> Z) (periods : list Z)
  (r f1 f2 : Z) :
  ShorFactors.find_factors pow_int periods = Some (r, f1, f2) ->
  In r periods /\ r <> 0%Z /\ Z.even r = true /\
  f1 = Z.gcd (pow_int r - 1) 15 /\ f2 = Z.gcd (pow_int r + 1) 15 /\
  ((f1 = 3 /\ f2 = 5)%Z \/ (f1 = 5 /\ f2 = 3)%Z).
Proof.
  induction periods as [|r0 rest IH]; [discriminate|].
  cbn [ShorFactors.find_factors]. unfold ShorFactors.N.
  destruct (Z.eqb_spec r0 0) as [E0|E0]; cbn [negb andb].
  { intros H. destruct (IH H) as (Hin & Hrest). split; [now right|exact Hrest]. }
  rewrite even_mod2.
  destruct (Z.even r0) eqn:Hev.
  2:{ intros H. destruct (IH H) as (Hin & Hrest).
      split; [now right|exact Hrest]. }
  match goal with
  | |- context [if ?c then _ else _] => destruct c eqn:Hc
  end.
  - intros H. inversion H; subst. split; [now left|].
    repeat (split; [assumption || reflexivity|]).
    now apply factor_test_passes.
  - intros H. destruct (IH H) as (Hin & Hrest). split; [now right|exact Hrest].
Qed.

Lemma find_factors_sound_witness :
  ShorFactors.find_factors (fun r => 7 ^ (r / 2))%Z [2; 4]%Z
    = Some (4, 3, 5)%Z /\
  In 4%Z [2; 4]%Z.
Proof.
  assert (H : ShorFactors.find_factors (fun r => 7 ^ (r / 2))%Z [2; 4]%Z
              = Some (4, 3, 5)%Z) by reflexivity.
  split; [exact H|].
  exact (proj1 (find_factors_sound (fun r => 7 ^ (r / 2))%Z [2; 4]%Z
                  4 3 5 H)).
Defined.

(** X7: when the value 64 = 2^8 / 4 is among the measured values and the
    power [int(math.pow(7, 2))] is 49, the post-processing of
    [shor_algorithm] on the histogram lists 4 among the candidate
    periods and reports two factors whose product is 15. *)
Theorem shor_post_processing (samples : list nat) (pow_int : Z -> Z) :
  In 64 samples -> pow_int 4%Z = 49%Z ->
  exists (periods : list Z) (r f1 f2 : Z),
    Shor.measured_periods (histogram Shor.n_count samples) = Ok periods /\
    In 4%Z periods /\
    ShorFactors.find_factors pow_int periods = Some (r, f1, f2) /\
    (f1 * f2 = ShorFactors.N)%Z.
Proof.
  intros H64 H49.
  destruct (histogram_run samples) as (periods & Hrun & _ & Hin).
  assert (H4 : In 4%Z periods).
  { apply Hin. exists (bitstring Shor.n_count 64), 64%Z.
    split; [apply histogram_keys; exists 64|].
    - split; [reflexivity|]. split; [|assumption].
      unfold Shor.n_count. simpl. lia.
    - repeat split; try reflexivity. discriminate. }
  destruct (find_factors_complete pow_int periods H4 H49)
    as (r & f1 & f2 & Hf & Hprod).
  now exists periods, r, f1, f2.
Qed.

Lemma shor_post_processing_witness :
  In 64 [0; 64; 128; 192] /\
  exists (periods : list Z) (r f1 f2 : Z),
    Shor.measured_periods (histogram Shor.n_count [0; 64; 128; 192])
      = Ok periods /\
    In 4%Z periods /\
    ShorFactors.find_factors (fun r => 7 ^ (r / 2))%Z periods
      = Some (r, f1, f2) /\
    (f1 * f2 = ShorFactors.N)%Z.
Proof.
  assert (H64 : In 64 [0; 64; 128; 192]) by (simpl; auto).
  split; [exact H64|].
  exact (shor_post_processing [0; 64; 128; 192]
           (fun r => 7 ^ (r / 2))%Z H64 eq_refl).
Defined.

(* ----------------------------------------------------------------- *)
(** ** The Grover oracle on superpositions *)

Lemma oracle_amp (marked_state : string) (v : Statevector) (i : nat) :
  1 <= String.length marked_state ->
  length v = 2 ^ String.length marked_state ->
  i < length v ->
  amp (run_ops (Grover.oracle_operations marked_state) v) i =
  if i =? Grover.marked_index marked_state then Copp (amp v i) else amp v i.
Proof.
  intros Hn Hlen Hi.
  rewrite (amp_run_ops (String.length marked_state) _ v (amp v)).
  - rewrite run_fn_oracle by (assumption || lia). reflexivity.
  - now apply oracle_operations_wf.
  - assumption.
  - reflexivity.
  - lia.
Qed.

Lemma amp_out_of_range (v : Statevector) (i : nat) :
  length v <= i -> amp v i = Czero.
Proof. intros Hi. unfold amp. now apply nth_overflow. Qed.

(** X8: on every amplitude vector of the register the circuit of
    [create_oracle] negates the amplitude of the marked index and leaves
    all other amplitudes as they are; the Born weight of every basis
    state is unchanged, so the oracle alone does not change what a
    measurement returns. *)
Theorem grover_oracle_on_superpositions (marked_state : string)
  (v : Statevector) :
  2 <= String.length marked_state ->
  length v = 2 ^ String.length marked_state ->
  exists oracle : CircuitModel,
    Grover.create_oracle marked_state = Ok oracle /\
    length (run_ops (operations oracle) v) = length v /\
    (forall i, i < length v ->
       amp (run_ops (operations oracle) v) i =
       if i =? Grover.marked_index marked_state
       then Copp (amp v i) else amp v i) /\
    (forall i, born (run_ops (operations oracle) v) i = born v i).
Proof.
  intros Hn Hlen. eexists. split; [now apply create_oracle_ok|].
  cbn [operations]. split; [apply length_run_ops|].
  split; [intros i Hi; apply oracle_amp; (assumption || lia)|].
  intros i. unfold born. destruct (Nat.lt_ge_cases i (length v)) as [Hi|Hi].
  - rewrite oracle_amp by (assumption || lia).
    destruct (i =? _); [apply Cnorm2_opp|reflexivity].
  - now rewrite !amp_out_of_range by (rewrite ?length_run_ops; assumption).
Qed.

Lemma grover_oracle_on_superpositions_witness :
  2 <= String.length "11" /\
  exists oracle : CircuitModel,
    Grover.create_oracle "11" = Ok oracle /\
    (forall i, born (run_ops (operations oracle)
                       [inv_sqrt2; Czero; Czero; inv_sqrt2]) i =
               born [inv_sqrt2; Czero; Czero; inv_sqrt2] i).
Proof.
  assert (Hn : 2 <= String.length "11") by (simpl; lia).
  split; [exact Hn|].
  destruct (grover_oracle_on_superpositions
              "11" [inv_sqrt2; Czero; Czero; inv_sqrt2] Hn eq_refl)
    as (oracle & Hb & _ & _ & Hw).
  exists oracle. split; [exact Hb|exact Hw].
Defined.

(** X9: applying the circuit of [create_oracle] twice returns every
    amplitude vector of the register unchanged. *)
Theorem grover_oracle_involutive (marked_state : string) (v : Statevector) :
  2 <= String.length marked_state ->
  length v = 2 ^ String.length marked_state ->
  exists oracle : CircuitModel,
    Grover.create_oracle marked_state = Ok oracle /\
    run_ops (operations oracle ++ operations oracle) v = v.
Proof.
  intros Hn Hlen. eexists. split; [now apply create_oracle_ok|].
  cbn [operations]. rewrite run_ops_app.
  apply Statevector_ext; [now rewrite !length_run_ops|].
  rewrite !length_run_ops. intros i Hi.
  rewrite !oracle_amp by (rewrite ?length_run_ops; assumption || lia).
  destruct (i =? _); [ring|reflexivity].
Qed.

Lemma grover_oracle_involutive_witness :
  2 <= String.length "1101" /\
  exists oracle : CircuitModel,
    Grover.create_oracle "1101" = Ok oracle /\
    run_ops (operations oracle ++ operations oracle) (basis 4 13) =
    basis 4 13.
Proof.
  assert (Hn : 2 <= String.length "1101") by (simpl; lia).
  split; [exact Hn|].
  exact (grover_oracle_involutive "1101" (basis 4 13) Hn eq_refl).
Defined.

(* ----------------------------------------------------------------- *)
(** ** Building the Simon oracle for any secret string *)

Lemma for_each_app {A S : Type} (l1 l2 : list A)
  (body : A -> S -> result S) (s : S) :
  for_each (l1 ++ l2) body s = for_each l1 body s >>= for_each l2 body.
Proof.
  revert s. induction l1 as [|a l1 IH]; intros s; [reflexivity|].
  cbn [for_each app]. destruct (body a s); [apply IH|reflexivity].
Qed.

Lemma append_all_ok {A : Type} (f : A -> Operation) (l : list A) qc :
  (forall a, In a l -> indices_ok (num_qubits qc) (op_qubits (f a)) = true) ->
  for_each l (fun a => QC.append (f a)) qc =
  Ok (mkCircuit (num_qubits qc) (num_clbits qc)
        (operations qc ++ map f l) (measurements qc)).
Proof.
  revert qc. induction l as [|a l IH]; intros qc Hok.
  - cbn [for_each map]. rewrite app_nil_r. now destruct qc.
  - cbn [for_each map]. rewrite append_ok by (apply Hok; now left).
    cbn [bind]. rewrite IH.
    + cbn [num_qubits num_clbits operations measurements].
      now rewrite <- app_assoc.
    + intros b Hb. cbn [num_qubits]. apply Hok. now right.
Qed.

Lemma cnot_indices_ok (n c t : nat) :
  c < n -> n <= t -> t < 2 * n ->
  indices_ok (2 * n) (op_qubits (CNOT c t)) = true.
Proof.
  intros Hc Ht Ht'. apply indices_ok_spec.
  change (op_qubits (CNOT c t)) with [c; t]. split.
  - repeat constructor; lia.
  - constructor; [intros [E|[]]; lia|]. constructor; [easy|constructor].
Qed.

Lemma index_ok (l : list nat) (i : nat) :
  i < length l -> Simon.index l i = Ok (nth i l 0).
Proof.
  intros Hi. unfold Simon.index. now rewrite (nth_error_nth' l 0 Hi).
Qed.

Lemma index_raises (l : list nat) (i : nat) :
  length l <= i -> Simon.index l i = Raise IndexError.
Proof.
  intros Hi. unfold Simon.index.
  now rewrite (proj2 (nth_error_None l i) Hi).
Qed.

Lemma fan_loop_ok (n : nat) (s_list l : list nat) qc :
  num_qubits qc = 2 * n ->
  (forall i, In i l -> i < n /\ i < length s_list) ->
  for_each l
    (fun i qc' =>
       Simon.index s_list i >>= fun s_i =>
       if s_i =? 1
       then for_each (seq 0 n) (fun j => QC.cx i (j + n)) qc'
       else Ok qc') qc =
  Ok (mkCircuit (num_qubits qc) (num_clbits qc)
        (operations qc ++
           flat_map (fun i => if nth i s_list 0 =? 1 then simon_fan n i
                              else []) l)
        (measurements qc)).
Proof.
  revert qc. induction l as [|i l IH]; intros qc Hq Hl.
  - cbn [for_each flat_map]. rewrite app_nil_r. now destruct qc.
  - cbn [for_each flat_map]. destruct (Hl i) as [Hi Hs]; [now left|].
    rewrite index_ok by assumption. cbn [bind].
    assert (Hl' : forall j, In j l -> j < n /\ j < length s_list)
      by (intros j Hj; apply Hl; now right).
    destruct (nth i s_list 0 =? 1).
    + unfold QC.cx.
      rewrite (append_all_ok (fun j => CNOT i (j + n))).
      * cbn [bind]. rewrite IH by assumption.
        cbn [num_qubits num_clbits operations measurements].
        unfold simon_fan. now rewrite <- app_assoc.
      * intros j Hj. apply in_seq in Hj. rewrite Hq.
        apply cnot_indices_ok; lia.
    + cbn [bind app]. now apply IH.
Qed.

Lemma simon_loops_ok (n : nat) (s_list : list nat) :
  n <= length s_list ->
  for_each (seq 0 n) (fun i => QC.cx i (i + n)) (mkCircuit (2 * n) 0 [] [])
    >>= (fun qc =>
     for_each (seq 0 n)
       (fun i qc' =>
          Simon.index s_list i >>= fun s_i =>
          if s_i =? 1
          then for_each (seq 0 n) (fun j => QC.cx i (j + n)) qc'
          else Ok qc') qc) =
  Ok (mkCircuit (2 * n) 0 (simon_copy n ++ simon_fans n s_list) []).
Proof.
  intros Hn. unfold QC.cx at 1.
  rewrite (append_all_ok (fun i => CNOT i (i + n))).
  - cbn [bind]. rewrite fan_loop_ok.
    + reflexivity.
    + reflexivity.
    + intros i Hi. apply in_seq in Hi. lia.
  - intros i Hi. apply in_seq in Hi. cbn [num_qubits].
    apply cnot_indices_ok; lia.
Qed.

Lemma int_of_char_digit (c : ascii) :
  48 <= nat_of_ascii c <= 57 ->
  Simon.int_of_char c = Ok (nat_of_ascii c - 48).
Proof.
  intros [Hlo Hhi]. unfold Simon.int_of_char.
  now rewrite (proj2 (Nat.leb_le _ _) Hlo), (proj2 (Nat.leb_le _ _) Hhi).
Qed.

Lemma ints_of_digits (cs : list ascii) :
  Forall (fun c => 48 <= nat_of_ascii c <= 57) cs ->
  Simon.ints_of cs = Ok (map (fun c => nat_of_ascii c - 48) cs).
Proof.
  induction 1 as [|c cs Hc Hcs IH]; [reflexivity|].
  cbn [Simon.ints_of map]. rewrite int_of_char_digit by assumption.
  cbn [bind]. now rewrite IH.
Qed.

Lemma ints_of_raises (cs : list ascii) (c : ascii) :
  In c cs -> nat_of_ascii c < 48 \/ 57 < nat_of_ascii c ->
  Simon.ints_of cs =
  Raise (ValueError "invalid literal for int() with base 10").
Proof.
  intros Hin Hc. induction cs as [|c0 cs IH]; [contradiction|].
  cbn [Simon.ints_of]. unfold Simon.int_of_char at 1.
  destruct ((48 <=? nat_of_ascii c0) && (nat_of_ascii c0 <=? 57)) eqn:Hd.
  - cbn [bind]. destruct Hin as [->|Hin].
    + apply andb_true_iff in Hd as [Hlo Hhi].
      apply Nat.leb_le in Hlo, Hhi. lia.
    + now rewrite IH.
  - reflexivity.
Qed.

(** X10: what [make_simon_oracle] does with its arguments.  A character
    of [s] that is not a decimal digit raises ValueError; a string of
    digits shorter than [n] raises IndexError (for n > length s the
    loop reads [s_list] past its end); a string of at least [n] digits
    gives a circuit on 2n qubits. *)
Theorem simon_oracle_input_checks (n : nat) (s : string) :
  ((exists c, In c (list_ascii_of_string s) /\
              (nat_of_ascii c < 48 \/ 57 < nat_of_ascii c)) ->
   Simon.make_simon_oracle n s =
   Raise (ValueError "invalid literal for int() with base 10")) /\
  (Forall (fun c => 48 <= nat_of_ascii c <= 57) (list_ascii_of_string s) ->
   String.length s < n ->
   Simon.make_simon_oracle n s = Raise IndexError) /\
  (Forall (fun c => 48 <= nat_of_ascii c <= 57) (list_ascii_of_string s) ->
   n <= String.length s ->
   exists oracle, Simon.make_simon_oracle n s = Ok oracle /\
                  num_qubits oracle = 2 * n).
Proof.
  unfold Simon.make_simon_oracle, QC.new. cbn [bind]. repeat split.
  - intros (c & Hin & Hc).
    rewrite (ints_of_raises _ c); [reflexivity| |assumption].
    now apply in_rev in Hin.
  - intros Hd Hlen.
    rewrite ints_of_digits
      by (apply Forall_forall; intros c Hc; apply in_rev in Hc;
          revert c Hc; now apply Forall_forall).
    cbn [bind].
    set (s_list := map (fun c => nat_of_ascii c - 48)
                       (rev (list_ascii_of_string s))).
    assert (Hs : length s_list = String.length s)
      by (unfold s_list; now rewrite length_map, length_rev, length_list_ascii).
    unfold QC.cx at 1.
    rewrite (append_all_ok (fun i => CNOT i (i + n))).
    2:{ intros i Hi. apply in_seq in Hi. cbn [num_qubits].
        apply cnot_indices_ok; lia. }
    cbn [bind].
    assert (Hseq : seq 0 n =
                   seq 0 (String.length s) ++
                   String.length s :: seq (S (String.length s))
                                          (n - String.length s - 1)).
    { replace n with (String.length s + S (n - String.length s - 1))
        at 1 by lia.
      now rewrite seq_app. }
    match goal with
    | |- for_each _ ?b _ = _ => set (body := b)
    end.
    rewrite Hseq, for_each_app. subst body. rewrite fan_loop_ok.
    + cbn [bind for_each]. rewrite index_raises by lia. reflexivity.
    + reflexivity.
    + intros i Hi. apply in_seq in Hi. lia.
  - intros Hd Hlen.
    rewrite ints_of_digits
      by (apply Forall_forall; intros c Hc; apply in_rev in Hc;
          revert c Hc; now apply Forall_forall).
    cbn [bind]. eexists. split.
    + apply simon_loops_ok.
      now rewrite length_map, length_rev, length_list_ascii.
    + reflexivity.
Qed.

Lemma simon_oracle_input_checks_witness :
  Simon.make_simon_oracle 3 "1a1" =
    Raise (ValueError "invalid literal for int() with base 10") /\
  Simon.make_simon_oracle 3 "10" = Raise IndexError /\
  exists oracle, Simon.make_simon_oracle 2 "1011" = Ok oracle /\
                 num_qubits oracle = 2 * 2.
Proof.
  destruct (simon_oracle_input_checks 3 "1a1") as (Hv & _ & _).
  destruct (simon_oracle_input_checks 3 "10") as (_ & Hi & _).
  destruct (simon_oracle_input_checks 2 "1011") as (_ & _ & Ho).
  split; [apply Hv|split; [apply Hi|apply Ho]].
  - exists "a"%char. split; [simpl; auto|]. right.
    change (nat_of_ascii "a") with 97. lia.
  - repeat constructor; vm_compute; lia.
  - simpl. lia.
  - repeat constructor; vm_compute; lia.
  - simpl. lia.
Defined.

(* ----------------------------------------------------------------- *)
(** ** The function computed by the Simon oracle *)

Lemma cnot_toggles_app (ops1 ops2 : list Operation) (i p : nat) :
  cnot_toggles (ops1 ++ ops2) i p =
  xorb (cnot_toggles ops1 i p) (cnot_toggles ops2 i p).
Proof.
  induction ops1 as [|op ops1 IH]; [reflexivity|].
  destruct op; cbn [cnot_toggles app]; try exact IH.
  rewrite IH. now rewrite xorb_assoc.
Qed.

Lemma cnot_toggles_ext (n : nat) (ops : list Operation) (i i' p : nat) :
  Forall (crossing n) ops ->
  (forall c, c < n -> Nat.testbit i c = Nat.testbit i' c) ->
  cnot_toggles ops i p = cnot_toggles ops i' p.
Proof.
  intros Hops Hbits. induction Hops as [|op ops Hop Hops IH]; [reflexivity|].
  destruct op; cbn [crossing] in Hop; try contradiction.
  cbn [cnot_toggles]. destruct Hop as [Hc _]. now rewrite IH, (Hbits _ Hc).
Qed.

(** Running CNOTs from the input register into the output register:
    every qubit is flipped as often as the CNOTs on it fire. *)
Lemma cnot_run (n : nat) (ops : list Operation) (i : nat) :
  Forall (crossing n) ops ->
  exists j, classical_run ops i = Some j /\
            forall p, Nat.testbit j p =
                      xorb (Nat.testbit i p) (cnot_toggles ops i p).
Proof.
  intros Hops. revert i. induction Hops as [|op ops Hop Hops IH]; intros i.
  - exists i. split; [reflexivity|]. intros p. cbn [cnot_toggles].
    now rewrite xorb_false_r.
  - destruct op as [| |c t| | | | | |]; cbn [crossing] in Hop;
      try contradiction.
    destruct Hop as [Hc Ht]. cbn [classical_run classical_op cnot_toggles].
    set (i' := if Nat.testbit i c then flip_bit t i else i).
    destruct (IH i') as (j & Hrun & Hj). exists j. split; [exact Hrun|].
    intros p. rewrite Hj.
    rewrite (cnot_toggles_ext n ops i' i p Hops).
    + rewrite <- xorb_assoc. f_equal. unfold i'.
      destruct (Nat.testbit i c).
      * rewrite testbit_flip, andb_true_r.
        destruct (t =? p); [now rewrite xorb_true_r|now rewrite xorb_false_r].
      * now rewrite andb_false_r, xorb_false_r.
    + intros c' Hc'. unfold i'. destruct (Nat.testbit i c); [|reflexivity].
      rewrite testbit_flip. destruct (Nat.eqb_spec t c'); [lia|reflexivity].
Qed.

(** A row of CNOTs onto consecutive output qubits. *)
Lemma cnot_toggles_row (n : nat) (ctl : nat -> nat) (a m x k : nat) :
  cnot_toggles (map (fun j => CNOT (ctl j) (j + n)) (seq a m)) x (k + n) =
  (a <=? k) && (k <? a + m) && Nat.testbit x (ctl k).
Proof.
  revert a. induction m as [|m IH]; intros a.
  - cbn [seq map cnot_toggles]. rewrite Nat.add_0_r.
    destruct (Nat.leb_spec a k), (Nat.ltb_spec k a); try lia; reflexivity.
  - cbn [seq map cnot_toggles]. rewrite IH.
    destruct (Nat.eqb_spec (a + n) (k + n)) as [E|E].
    + assert (a = k) by lia. subst a.
      destruct (Nat.leb_spec (S k) k), (Nat.leb_spec k k),
               (Nat.ltb_spec k (k + S m)); try lia.
      cbn [andb]. now rewrite xorb_false_r.
    + cbn [andb xorb].
      destruct (Nat.leb_spec (S a) k), (Nat.leb_spec a k),
               (Nat.ltb_spec k (S a + m)), (Nat.ltb_spec k (a + S m));
        try lia; reflexivity.
Qed.

Lemma cnot_toggles_flat_map (g : nat -> list Operation) (l : list nat)
  (x p : nat) :
  cnot_toggles (flat_map g l) x p =
  fold_right xorb false (map (fun i => cnot_toggles (g i) x p) l).
Proof.
  induction l as [|i l IH]; [reflexivity|].
  cbn [flat_map map fold_right]. now rewrite cnot_toggles_app, IH.
Qed.

Lemma fold_left_xorb (l : list bool) (b : bool) :
  fold_left xorb l b = xorb b (fold_right xorb false l).
Proof.
  revert b. induction l as [|a l IH]; intros b.
  - cbn. now rewrite xorb_false_r.
  - cbn [fold_left fold_right]. rewrite IH. now rewrite xorb_assoc.
Qed.

Lemma dot_fold_right (n y s : nat) :
  Simon.dot n y s =
  fold_right xorb false
    (map (fun i => Nat.testbit y i && Nat.testbit s i) (seq 0 n)).
Proof. unfold Simon.dot. now rewrite fold_left_xorb. Qed.

Lemma fold_xorb_false {A : Type} (l : list A) :
  fold_right xorb false (map (fun _ => false) l) = false.
Proof. induction l as [|a l IH]; [reflexivity|exact IH]. Qed.

Lemma simon_copy_crossing (n : nat) : Forall (crossing n) (simon_copy n).
Proof.
  apply Forall_forall. intros op Hop. apply in_map_iff in Hop as (i & <- & Hi).
  apply in_seq in Hi. cbn [crossing]. lia.
Qed.

Lemma simon_fans_crossing (n : nat) (s_list : list nat) :
  Forall (crossing n) (simon_fans n s_list).
Proof.
  apply Forall_forall. intros op Hop.
  apply in_flat_map in Hop as (i & Hi & Hop). apply in_seq in Hi.
  destruct (nth i s_list 0 =? 1); [|contradiction].
  apply in_map_iff in Hop as (j & <- & Hj). cbn [crossing]. lia.
Qed.

Lemma simon_toggles (n : nat) (s_list : list nat) (sv x k : nat) :
  (forall i, i < n -> (nth i s_list 0 =? 1) = Nat.testbit sv i) ->
  cnot_toggles (simon_copy n ++ simon_fans n s_list) x (k + n) =
  (k <? n) && xorb (Nat.testbit x k) (Simon.dot n x sv).
Proof.
  intros Hs. rewrite cnot_toggles_app. unfold simon_copy.
  rewrite (cnot_toggles_row n (fun j => j)). cbn [Nat.leb Nat.add andb].
  unfold simon_fans. rewrite cnot_toggles_flat_map, dot_fold_right.
  destruct (k <? n) eqn:Hk; cbn [andb].
  - f_equal. f_equal. apply map_ext_in. intros i Hi. apply in_seq in Hi.
    rewrite <- Hs by lia. destruct (nth i s_list 0 =? 1).
    + unfold simon_fan. rewrite (cnot_toggles_row n (fun _ => i)).
      cbn [Nat.leb Nat.add andb]. now rewrite Hk, andb_true_r.
    + now rewrite andb_false_r.
  - cbn [xorb].
    transitivity (fold_right xorb false
                    (map (fun _ : nat => false) (seq 0 n)));
      [|apply fold_xorb_false].
    f_equal. apply map_ext_in. intros i Hi.
    destruct (nth i s_list 0 =? 1); [|reflexivity].
    unfold simon_fan. rewrite (cnot_toggles_row n (fun _ => i)).
    cbn [Nat.leb Nat.add andb]. now rewrite Hk.
Qed.

Lemma testbit_all_ones (n k : nat) :
  Nat.testbit (all_ones n) k = (k <? n).
Proof.
  unfold all_ones. rewrite Nat.sub_1_r, <- Nat.ones_equiv.
  destruct (Nat.ltb_spec k n).
  - now apply Nat.ones_spec_low.
  - now apply Nat.ones_spec_high.
Qed.

Lemma simon_oracle_run (n : nat) (s_list : list nat) (sv x : nat) :
  (forall i, i < n -> (nth i s_list 0 =? 1) = Nat.testbit sv i) ->
  x < 2 ^ n ->
  Simon.oracle_function n
    (mkCircuit (2 * n) 0 (simon_copy n ++ simon_fans n s_list) []) x =
  Some (if Simon.dot n x sv then Nat.lxor x (all_ones n) else x).
Proof.
  intros Hs Hx. unfold Simon.oracle_function. cbn [operations].
  destruct (cnot_run n (simon_copy n ++ simon_fans n s_list) x)
    as (y & -> & Hy).
  { apply Forall_app. split;
      [apply simon_copy_crossing|apply simon_fans_crossing]. }
  f_equal. apply Nat.bits_inj. intros k.
  rewrite Nat.div_pow2_bits, Hy, (simon_toggles n s_list sv) by assumption.
  assert (Hhigh : forall p, n <= p -> Nat.testbit x p = false)
    by now apply lt_pow2_bits.
  rewrite Hhigh by lia. rewrite xorb_false_l.
  destruct (Nat.ltb_spec k n) as [Hk|Hk]; cbn [andb].
  - destruct (Simon.dot n x sv).
    + rewrite Nat.lxor_spec, testbit_all_ones.
      now rewrite (proj2 (Nat.ltb_lt k n) Hk).
    + now rewrite xorb_false_r.
  - destruct (Simon.dot n x sv).
    + rewrite Nat.lxor_spec, testbit_all_ones, Hhigh by assumption.
      now rewrite (proj2 (Nat.ltb_ge k n) Hk).
    + symmetry. now apply Hhigh.
Qed.

(* ----------------------------------------------------------------- *)
(** ** Binary secret strings *)

Lemma int_base2_from_binary (s : string) (acc v : Z) :
  Shor.int_base2_from acc s = Ok v ->
  Forall (fun c => c = "0"%char \/ c = "1"%char) (list_ascii_of_string s).
Proof.
  revert acc. induction s as [|c s IH]; intros acc Hv; [constructor|].
  cbn [Shor.int_base2_from] in Hv. cbn [list_ascii_of_string].
  destruct (Ascii.eqb_spec c "0") as [->|H0].
  - constructor; [now left|]. now apply IH with (2 * acc)%Z.
  - destruct (Ascii.eqb_spec c "1") as [->|H1]; [|discriminate].
    constructor; [now right|]. now apply IH with (2 * acc + 1)%Z.
Qed.

(** The digits [make_simon_oracle] reads off a binary string denote the
    bits of the number the string stands for. *)
Lemma binary_secret (s : string) (sv : nat) :
  Shor.int_base2 s = Ok (Z.of_nat sv) ->
  Forall (fun c => 48 <= nat_of_ascii c <= 57) (list_ascii_of_string s) /\
  sv < 2 ^ String.length s /\
  forall i, i < String.length s ->
    (nth i (map (fun c => nat_of_ascii c - 48)
                (rev (list_ascii_of_string s))) 0 =? 1) =
    Nat.testbit sv i.
Proof.
  intros Hv.
  assert (Hsv : sv = Grover.marked_index s)
    by (apply Nat2Z.inj; symmetry; now apply marked_index_binary).
  assert (Hb : Forall (fun c => c = "0"%char \/ c = "1"%char)
                      (list_ascii_of_string s)).
  { destruct s; [constructor|]. unfold Shor.int_base2 in Hv.
    now apply int_base2_from_binary in Hv. }
  split; [|split].
  - apply Forall_forall. intros c Hc.
    rewrite Forall_forall in Hb. destruct (Hb c Hc) as [->| ->];
      vm_compute; lia.
  - apply lt_pow2_bits. intros j Hj. rewrite Hsv, testbit_marked_index.
    rewrite nth_overflow by (rewrite length_rev, length_list_ascii; lia).
    reflexivity.
  - intros i Hi. rewrite Hsv, testbit_marked_index.
    assert (Hlen : i < length (rev (list_ascii_of_string s)))
      by (rewrite length_rev, length_list_ascii; lia).
    rewrite (nth_indep _ 0 ((fun c => nat_of_ascii c - 48) "0"%char))
      by now rewrite length_map.
    rewrite (map_nth (fun c => nat_of_ascii c - 48)).
    assert (Hc : In (nth i (rev (list_ascii_of_string s)) "0"%char)
                    (list_ascii_of_string s))
      by (apply in_rev; now apply nth_In).
    rewrite Forall_forall in Hb. destruct (Hb _ Hc) as [->| ->]; reflexivity.
Qed.

Lemma simon_oracle_built (n : nat) (s : string) (sv : nat) :
  String.length s = n -> Shor.int_base2 s = Ok (Z.of_nat sv) ->
  sv < 2 ^ n /\
  exists s_list : list nat,
    (forall i, i < n -> (nth i s_list 0 =? 1) = Nat.testbit sv i) /\
    Simon.make_simon_oracle n s =
    Ok (mkCircuit (2 * n) 0 (simon_copy n ++ simon_fans n s_list) []).
Proof.
  intros Hlen Hv. destruct (binary_secret s sv Hv) as (Hd & Hsv & Hbits).
  rewrite Hlen in Hsv, Hbits. split; [exact Hsv|].
  eexists. split; [exact Hbits|].
  unfold Simon.make_simon_oracle, QC.new. cbn [bind].
  rewrite ints_of_digits
    by (apply Forall_forall; intros c Hc; apply in_rev in Hc;
        revert c Hc; now apply Forall_forall).
  cbn [bind]. apply simon_loops_ok.
  rewrite length_map, length_rev, length_list_ascii. lia.
Qed.

(** X11: for a secret string s of n binary digits [make_simon_oracle]
    builds an oracle whose function on the n-bit input x is x itself
    when x and s have an even number of ones in common, and the
    complement of x otherwise. *)
Theorem simon_oracle_function (n : nat) (s : string) (sv : nat) :
  String.length s = n -> Shor.int_base2 s = Ok (Z.of_nat sv) ->
  exists oracle : CircuitModel,
    Simon.make_simon_oracle n s = Ok oracle /\
    num_qubits oracle = 2 * n /\
    forall x, x < 2 ^ n ->
      Simon.oracle_function n oracle x =
      Some (if Simon.dot n x sv then Nat.lxor x (all_ones n) else x).
Proof.
  intros Hlen Hv.
  destruct (simon_oracle_built n s sv Hlen Hv) as (_ & s_list & Hbits & Hb).
  eexists. split; [exact Hb|]. split; [reflexivity|].
  intros x Hx. now apply simon_oracle_run.
Qed.

Lemma simon_oracle_function_witness :
  String.length "110" = 3 /\
  exists oracle : CircuitModel,
    Simon.make_simon_oracle 3 "110" = Ok oracle /\
    Simon.oracle_function 3 oracle 2 = Some 5.
Proof.
  split; [reflexivity|].
  destruct (simon_oracle_function 3 "110" 6 eq_refl eq_refl)
    as (oracle & Hb & _ & Hf).
  exists oracle. split; [exact Hb|].
  apply (Hf 2). simpl. lia.
Defined.

(* ----------------------------------------------------------------- *)
(** ** For which secret strings the Simon oracle is periodic *)

Lemma dot_lxor (n x y s : nat) :
  Simon.dot n (Nat.lxor x y) s = xorb (Simon.dot n x s) (Simon.dot n y s).
Proof.
  rewrite !dot_fold_right. induction (seq 0 n) as [|i l IH]; [reflexivity|].
  cbn [map fold_right]. rewrite IH, Nat.lxor_spec.
  destruct (Nat.testbit x i), (Nat.testbit y i), (Nat.testbit s i),
    (fold_right xorb false
       (map (fun i => Nat.testbit x i && Nat.testbit s i) l)),
    (fold_right xorb false
       (map (fun i => Nat.testbit y i && Nat.testbit s i) l));
    reflexivity.
Qed.

Lemma dot_zero (n s : nat) : Simon.dot n 0 s = false.
Proof.
  rewrite dot_fold_right.
  rewrite (map_ext _ (fun _ => false)) by (intros i; now rewrite Nat.bits_0).
  apply fold_xorb_false.
Qed.

Lemma fold_xorb_true {A : Type} (l : list A) :
  fold_right xorb false (map (fun _ => true) l) = Nat.odd (length l).
Proof.
  induction l as [|a l IH]; [reflexivity|].
  cbn [map fold_right length]. rewrite IH, Nat.odd_succ, <- Nat.negb_odd.
  now destruct (Nat.odd (length l)).
Qed.

Lemma dot_all_ones (n : nat) :
  Simon.dot n (all_ones n) (all_ones n) = Nat.odd n.
Proof.
  rewrite dot_fold_right.
  rewrite (map_ext_in _ (fun _ => true)).
  - now rewrite fold_xorb_true, length_seq.
  - intros i Hi. apply in_seq in Hi. rewrite testbit_all_ones.
    now rewrite (proj2 (Nat.ltb_lt i n)) by lia.
Qed.

Lemma all_ones_lt (n : nat) : all_ones n < 2 ^ n.
Proof.
  unfold all_ones. assert (0 < 2 ^ n) by (apply Nat.neq_0_lt_0,
    Nat.pow_nonzero; lia). lia.
Qed.

(** X12: the oracle [make_simon_oracle] builds for a secret string s of
    n binary digits satisfies f(x xor s) = f(x) on all n-bit inputs
    exactly when s consists of zeros only, or of ones only with n odd;
    for every other secret string the promise of Simon's problem
    fails. *)
Theorem simon_oracle_periodic_iff (n : nat) (s : string) (sv : nat) :
  String.length s = n -> Shor.int_base2 s = Ok (Z.of_nat sv) ->
  exists oracle : CircuitModel,
    Simon.make_simon_oracle n s = Ok oracle /\
    ((forall x, x < 2 ^ n ->
        Simon.oracle_function n oracle (Nat.lxor x sv) =
        Simon.oracle_function n oracle x) <->
     sv = 0 \/ (sv = all_ones n /\ Nat.odd n = true)).
Proof.
  intros Hlen Hv.
  destruct (simon_oracle_built n s sv Hlen Hv) as (Hsv & s_list & Hbits & Hb).
  eexists. split; [exact Hb|].
  assert (Hf := fun x => simon_oracle_run n s_list sv x Hbits). split.
  - intros Hper.
    assert (H0 : 0 < 2 ^ n)
      by (apply Nat.neq_0_lt_0, Nat.pow_nonzero; lia).
    specialize (Hper 0 H0). rewrite Nat.lxor_0_l in Hper.
    rewrite (Hf sv Hsv), (Hf 0 H0), dot_zero in Hper.
    destruct (Simon.dot n sv sv) eqn:Hd.
    + right. inversion Hper as [E]. apply Nat.lxor_eq in E.
      split; [exact E|]. rewrite <- dot_all_ones, <- E. exact Hd.
    + left. now inversion Hper.
  - intros [->|[-> Hodd]] x Hx.
    + now rewrite Nat.lxor_0_r.
    + rewrite (Hf x Hx), (Hf _ (lxor_lt _ _ n Hx (all_ones_lt n))).
      rewrite dot_lxor, dot_all_ones, Hodd. f_equal.
      destruct (Simon.dot n x (all_ones n)); cbn [xorb]; [reflexivity|].
      now rewrite Nat.lxor_assoc, Nat.lxor_nilpotent, Nat.lxor_0_r.
Qed.

Lemma simon_oracle_periodic_iff_witness :
  String.length "111" = 3 /\
  exists oracle : CircuitModel,
    Simon.make_simon_oracle 3 "111" = Ok oracle /\
    forall x, x < 2 ^ 3 ->
      Simon.oracle_function 3 oracle (Nat.lxor x 7) =
      Simon.oracle_function 3 oracle x.
Proof.
  split; [reflexivity|].
  destruct (simon_oracle_periodic_iff 3 "111" 7 eq_refl eq_refl)
    as (oracle & Hb & Hiff).
  exists oracle. split; [exact Hb|].
  apply Hiff. right. split; reflexivity.
Defined.

(* ----------------------------------------------------------------- *)
(** ** [deutsch_algorithm] on an arbitrary bit oracle *)

Lemma rename_identity (q : nat) : QC.rename [0; 1] q = q.
Proof. unfold QC.rename. now destruct q as [|[|[|q]]]. Qed.

Lemma rename_op_identity (op : Operation) : QC.rename_op [0; 1] op = op.
Proof.
  assert (Hm : forall l, map (QC.rename [0; 1]) l = l).
  { intros l. rewrite (map_ext _ (fun q => q)) by apply rename_identity.
    apply map_id. }
  destruct op; cbn [QC.rename_op]; now rewrite ?Hm, ?rename_identity.
Qed.

Lemma append_oracle_ok (oracle qc : CircuitModel) :
  num_qubits oracle = 2 -> num_qubits qc = 2 ->
  Forall (wf_op 2) (operations oracle) ->
  QC.append_circuit oracle [0; 1] qc =
  Ok (mkCircuit 2 (num_clbits qc) (operations qc ++ operations oracle)
        (measurements qc)).
Proof.
  intros Ho Hq Hwf. unfold QC.append_circuit. rewrite Ho. cbn [length Nat.eqb].
  rewrite (map_ext _ (fun op => op)) by apply rename_op_identity.
  rewrite map_id.
  rewrite (append_all_ok (fun op => op)).
  - now rewrite Hq, map_id.
  - intros op Hop. rewrite Hq. apply indices_ok_spec.
    rewrite Forall_forall in Hwf. now apply Hwf.
Qed.

Lemma deutsch_circuit_ok (oracle : CircuitModel) :
  num_qubits oracle = 2 -> Forall (wf_op 2) (operations oracle) ->
  Deutsch.deutsch_circuit oracle =
  Ok (mkCircuit 2 1
        ([Named PauliX 1; Named Hadamard 0; Named Hadamard 1]
           ++ operations oracle ++ [Named Hadamard 0])
        [(0, 0)]).
Proof.
  intros Ho Hwf. unfold Deutsch.deutsch_circuit.
  change (QC.new 2 1 >>= QC.x 1 >>= QC.h_all [0; 1])
    with (Ok (mkCircuit 2 1
                [Named PauliX 1; Named Hadamard 0; Named Hadamard 1] [])).
  cbn [bind]. rewrite append_oracle_ok by (assumption || reflexivity).
  cbn [bind num_clbits operations measurements]. unfold QC.h.
  rewrite append_ok by reflexivity.
  cbn [bind num_qubits num_clbits operations measurements].
  now rewrite <- app_assoc.
Qed.

(** Permutation gates are their own inverses, so a circuit of them is
    undone by the reversed circuit. *)
Lemma classical_op_involutive (n : nat) (op : Operation) (i j : nat) :
  wf_op n op -> classical_op op i = Some j -> classical_op op j = Some i.
Proof.
  unfold wf_op, op_qubits. intros [_ Hnd] Hop.
  destruct op as [[| | |] q| |c t|a b| | |cs t| |]; simpl in *;
    try discriminate; inversion Hop; subst; clear Hop.
  - now rewrite flip_flip.
  - reflexivity.
  - f_equal. rewrite <- !all_set_single.
    apply (controlled_flip_involutive [c] t i).
    inversion Hnd as [|? ? Hnotin _]; subst. intros [E|[]].
    apply Hnotin. now left.
  - now rewrite swap_bits_involutive.
  - f_equal. apply (controlled_flip_involutive cs t i).
    apply NoDup_app_disjoint in Hnd as [_ Hd]. intros Hin.
    apply (Hd t Hin). now left.
  - reflexivity.
Qed.

Lemma classical_run_rev (n : nat) (ops : list Operation) (i j : nat) :
  Forall (wf_op n) ops -> classical_run ops i = Some j ->
  classical_run (rev ops) j = Some i.
Proof.
  revert i. induction ops as [|op ops IH]; intros i Hwf Hrun.
  - simpl in *. now inversion Hrun.
  - inversion Hwf; subst. cbn [classical_run] in Hrun.
    destruct (classical_op op i) as [k|] eqn:Hop; [|discriminate].
    cbn [rev]. rewrite classical_run_app, (IH k) by assumption.
    cbn [classical_run].
    now rewrite (classical_op_involutive n op i k) by assumption.
Qed.

(** The state before the oracle: qubit 0 in |+>, qubit 1 in |->. *)
Lemma deutsch_first_stage (j : nat) :
  j < 4 ->
  run_fn [Named PauliX 1; Named Hadamard 0; Named Hadamard 1] (ket 0) j =
  if Nat.testbit j 1 then (- (inv_sqrt2 * inv_sqrt2))%C
  else (inv_sqrt2 * inv_sqrt2)%C.
Proof.
  intros Hj. cbn [run_fn fold_left].
  destruct j as [|[|[|[|j]]]]; try lia;
    rewrite !apply_fn_H; eval_bits; rewrite !apply_fn_X; eval_bits;
    unfold ket; eval_eqb; ring.
Qed.

(** The index of the two-qubit basis state with qubit 0 = x and
    qubit 1 = y. *)
Lemma deutsch_amplitude (oracle : CircuitModel) (f : bool -> bool)
  (x y : bool) :
  Forall (wf_op 2) (operations oracle) ->
  (forall a b : bool,
      classical_run (operations oracle) (Nat.b2n a + 2 * Nat.b2n b) =
      Some (Nat.b2n a + 2 * Nat.b2n (xorb b (f a)))) ->
  run_fn ([Named PauliX 1; Named Hadamard 0; Named Hadamard 1]
            ++ operations oracle ++ [Named Hadamard 0]) (ket 0)
         (Nat.b2n x + 2 * Nat.b2n y) =
  if xorb x (xorb (f false) (f true))
  then Czero
  else if xorb y (f false) then Copp inv_sqrt2 else inv_sqrt2.
Proof.
  intros Hwf Hf. rewrite !run_fn_app.
  assert (Ho : forall (psi : nat -> C) (a b : bool),
             run_fn (operations oracle) psi (Nat.b2n a + 2 * Nat.b2n b) =
             psi (Nat.b2n a + 2 * Nat.b2n (xorb b (f a)))).
  { intros psi a b. apply (run_fn_classical 2); [assumption|].
    apply (classical_run_rev 2); [assumption|].
    rewrite Hf. now rewrite xorb_assoc, xorb_nilpotent, xorb_false_r. }
  cbn [run_fn fold_left]. rewrite apply_fn_H.
  replace (assign_bit (Nat.b2n x + 2 * Nat.b2n y) 0 false)
    with (Nat.b2n false + 2 * Nat.b2n y) by (now destruct x, y).
  replace (assign_bit (Nat.b2n x + 2 * Nat.b2n y) 0 true)
    with (Nat.b2n true + 2 * Nat.b2n y) by (now destruct x, y).
  replace (Nat.testbit (Nat.b2n x + 2 * Nat.b2n y) 0) with x
    by (now destruct x, y).
  change (fold_left (fun psi' op => apply_fn op psi') (operations oracle))
    with (run_fn (operations oracle)).
  rewrite !Ho.
  change (apply_fn (Named Hadamard 1)
            (apply_fn (Named Hadamard 0)
               (apply_fn (Named PauliX 1) (ket 0))))
    with (run_fn [Named PauliX 1; Named Hadamard 0; Named Hadamard 1]
            (ket 0)).
  rewrite !deutsch_first_stage
    by (destruct y, (f false), (f true); simpl; lia).
  replace (Nat.testbit (Nat.b2n false + 2 * Nat.b2n (xorb y (f false))) 1)
    with (xorb y (f false)) by (now destruct (xorb y (f false))).
  replace (Nat.testbit (Nat.b2n true + 2 * Nat.b2n (xorb y (f true))) 1)
    with (xorb y (f true)) by (now destruct (xorb y (f true))).
  pose proof inv_sqrt2_half as Hh.
  set (h := (inv_sqrt2 * inv_sqrt2)%C) in *. clearbody h.
  destruct x, y, (f false), (f true); cbn [xorb];
    match goal with
    | |- _ = Czero => ring
    | |- _ = inv_sqrt2 =>
        transitivity (inv_sqrt2 * (h + h))%C; [ring|rewrite Hh; ring]
    | |- _ = Copp inv_sqrt2 =>
        transitivity (- (inv_sqrt2 * (h + h)))%C; [ring|rewrite Hh; ring]
    end.
Qed.
Lemma deutsch_distribution (oracle : CircuitModel) (f : bool -> bool) :
  Forall (wf_op 2) (operations oracle) ->
  (forall a b : bool,
      classical_run (operations oracle) (Nat.b2n a + 2 * Nat.b2n b) =
      Some (Nat.b2n a + 2 * Nat.b2n (xorb b (f a)))) ->
  let qc := mkCircuit 2 1
              ([Named PauliX 1; Named Hadamard 0; Named Hadamard 1]
                 ++ operations oracle ++ [Named Hadamard 0])
              [(0, 0)] in
  let p := outcome_prob (measurements qc) (simulate qc) in
  p 0 = (if xorb (f false) (f true) then 0 else 1)%R /\
  p 1 = (if xorb (f false) (f true) then 1 else 0)%R.
Proof.
  intros Hwf Hf qc p.
  assert (Hall : Forall (wf_op 2) (operations qc)).
  { cbn [operations qc]. apply Forall_app. split;
      [now apply wf_ops_check|].
    apply Forall_app. split; [assumption|now apply wf_ops_check]. }
  assert (A : forall x y : bool,
             amp (simulate qc) (Nat.b2n x + 2 * Nat.b2n y) =
             if xorb x (xorb (f false) (f true))
             then Czero
             else if xorb y (f false) then Copp inv_sqrt2 else inv_sqrt2).
  { intros x y. unfold simulate, initial_state.
    rewrite (amp_run_ops 2 _ (basis 2 0) (ket 0));
      [now apply deutsch_amplitude|exact Hall|apply length_basis
      |intros j Hj; now apply amp_basis|destruct x, y; simpl; lia]. }
  pose proof (A false false) as A0. pose proof (A true false) as A1.
  pose proof (A false true) as A2. pose proof (A true true) as A3.
  cbn [Nat.b2n Nat.add Nat.mul] in A0, A1, A2, A3.
  unfold p, outcome_prob, born. rewrite length_simulate.
  cbn [num_qubits measurements qc Nat.pow Nat.mul Nat.add Rsum].
  rewrite A0, A1, A2, A3.
  destruct (f false), (f true); cbn [xorb];
    rewrite ?Cnorm2_opp, ?Cnorm2_inv_sqrt2, ?Cnorm2_zero;
    split; eval_eqb; lra.
Qed.

(** X13: [deutsch_algorithm] decides every bit oracle, not only the two
    [create_oracle] builds.  For an oracle circuit on two qubits that
    sends the basis state |x, y> (x on qubit 0, y on qubit 1) to
    |x, y xor f(x)>, the measured bit is f(0) xor f(1) with probability
    1, and for every uniform random source all 1024 shots read that
    bit: 0 for a constant f and 1 for a balanced f. *)
Theorem deutsch_decides_any_oracle (oracle : CircuitModel)
  (f : bool -> bool) (rng : nat -> R) :
  num_qubits oracle = 2 ->
  Forall (wf_op 2) (operations oracle) ->
  (forall a b : bool,
      classical_run (operations oracle) (Nat.b2n a + 2 * Nat.b2n b) =
      Some (Nat.b2n a + 2 * Nat.b2n (xorb b (f a)))) ->
  uniform_source rng ->
  exists qc : CircuitModel,
    Deutsch.deutsch_circuit oracle = Ok qc /\
    outcome_prob (measurements qc) (simulate qc)
                 (Nat.b2n (xorb (f false) (f true))) = 1%R /\
    Deutsch.deutsch_algorithm oracle rng =
    Ok [((if xorb (f false) (f true) then "1" else "0")%string, 1024)].
Proof.
  intros Ho Hwf Hf Hu.
  destruct (deutsch_distribution oracle f Hwf Hf) as [P0 P1].
  eexists. split; [now apply deutsch_circuit_ok|].
  split; [destruct (xorb (f false) (f true)); assumption|].
  unfold Deutsch.deutsch_algorithm.
  rewrite deutsch_circuit_ok by assumption.
  cbn [bind]. unfold transpile, AerSimulator_run, get_counts, run_samples.
  f_equal.
  rewrite (histogram_single_bit _ (Nat.b2n (xorb (f false) (f true)))).
  - rewrite length_sample, length_map, length_seq.
    now destruct (xorb (f false) (f true)).
  - destruct (xorb (f false) (f true)); simpl; lia.
  - intros E. apply (f_equal (@length nat)) in E.
    rewrite length_sample, length_map, length_seq in E. discriminate.
  - apply Forall_forall. intros y Hy.
    apply in_map_iff in Hy as (r & <- & Hr).
    apply in_map_iff in Hr as (k & <- & _). destruct (Hu k) as [Hlo Hhi].
    cbn [num_clbits Nat.pow Nat.mul Nat.add Nat.sub draw].
    rewrite P0. destruct (xorb (f false) (f true)); cbn [Nat.b2n];
      destruct (Rlt_dec _ _); (reflexivity || lra).
Qed.

Lemma deutsch_decides_any_oracle_witness :
  uniform_source (fun _ => 0%R) /\
  Deutsch.deutsch_algorithm
    (mkCircuit 2 0 [CNOT 0 1; Named PauliX 1] []) (fun _ => 0%R) =
  Ok [("1"%string, 1024)].
Proof.
  assert (Hu : uniform_source (fun _ => 0%R)) by (intros k; lra).
  split; [exact Hu|].
  destruct (deutsch_decides_any_oracle
              (mkCircuit 2 0 [CNOT 0 1; Named PauliX 1] []) negb
              (fun _ => 0%R) eq_refl)
    as (qc & _ & _ & H).
  - apply wf_ops_check. reflexivity.
  - intros [|] [|]; reflexivity.
  - exact Hu.
  - exact H.
Defined.

(* ----------------------------------------------------------------- *)
(** ** A layer of Hadamard gates *)

Lemma Csum_double (f : nat -> C) (m : nat) :
  Csum f (2 * m) = Csum (fun x => Cplus (f (2 * x)) (f (2 * x + 1))) m.
Proof.
  induction m as [|m IH]; [reflexivity|].
  replace (2 * S m) with (S (S (2 * m))) by lia.
  cbn [Csum]. rewrite IH.
  replace (S (2 * m)) with (2 * m + 1) by lia. ring.
Qed.

Lemma Csum_single (j : nat) (f : nat -> C) (n : nat) :
  j < n -> (forall i, i < n -> i <> j -> f i = Czero) -> Csum f n = f j.
Proof.
  induction n as [|n IH]; intros Hj Hz; [lia|]. cbn [Csum].
  destruct (Nat.eq_dec j n) as [->|Hne].
  - rewrite (Csum_ext f (fun _ => Czero)), Csum_zero; [ring|].
    intros i Hi. apply Hz; lia.
  - rewrite IH, (Hz n) by (try lia; intros; apply Hz; lia). ring.
Qed.

Lemma testbit_double (b : bool) (x p : nat) :
  Nat.testbit (2 * x + Nat.b2n b) p =
  match p with
  | O => b
  | S p' => Nat.testbit x p'
  end.
Proof.
  destruct p as [|p]; [apply Nat.testbit_0_r|apply Nat.testbit_succ_r].
Qed.

Lemma testbit_scatter_seq (a n x i p : nat) :
  Nat.testbit (scatter (seq a n) x i) p =
  if (a <=? p) && (p <? a + n) then Nat.testbit x (p - a)
  else Nat.testbit i p.
Proof.
  revert a x i. induction n as [|n IH]; intros a x i.
  - cbn [seq scatter]. rewrite Nat.add_0_r.
    destruct (Nat.leb_spec a p), (Nat.ltb_spec p a); try lia; reflexivity.
  - cbn [seq scatter]. rewrite IH, testbit_assign.
    destruct (Nat.leb_spec (S a) p), (Nat.ltb_spec p (S a + n)),
             (Nat.leb_spec a p), (Nat.ltb_spec p (a + S n)),
             (Nat.eqb_spec a p); try lia; cbn [andb]; try reflexivity.
    + rewrite Nat.testbit_div2. f_equal. lia.
    + subst p. rewrite Nat.sub_diag. symmetry. apply Nat.bit0_odd.
Qed.

Lemma testbit_gather_seq (a n i j : nat) :
  Nat.testbit (gather (seq a n) i) j = (j <? n) && Nat.testbit i (a + j).
Proof.
  revert a j. induction n as [|n IH]; intros a j.
  - cbn [seq gather]. now rewrite Nat.bits_0.
  - cbn [seq gather]. rewrite Nat.add_comm, testbit_double.
    destruct j as [|j].
    + now rewrite Nat.add_0_r.
    + rewrite IH. f_equal. f_equal. lia.
Qed.

Lemma dot_ext (n y y' s s' : nat) :
  (forall p, p < n -> Nat.testbit y p = Nat.testbit y' p) ->
  (forall p, p < n -> Nat.testbit s p = Nat.testbit s' p) ->
  Simon.dot n y s = Simon.dot n y' s'.
Proof.
  intros Hy Hs. rewrite !dot_fold_right. f_equal.
  apply map_ext_in. intros p Hp. apply in_seq in Hp.
  now rewrite Hy, Hs by lia.
Qed.

Lemma dot_succ (n y s : nat) :
  Simon.dot (S n) y s =
  xorb (Nat.odd y && Nat.odd s) (Simon.dot n (Nat.div2 y) (Nat.div2 s)).
Proof.
  rewrite !dot_fold_right. cbn [seq map fold_right].
  rewrite <- !Nat.bit0_odd. f_equal. f_equal.
  rewrite <- seq_shift, map_map. apply map_ext. intros p.
  now rewrite !Nat.testbit_div2.
Qed.

Lemma sign_xorb (a b : bool) : sign (xorb a b) = (sign a * sign b)%C.
Proof. destruct a, b; unfold sign; cbn [xorb]; ring. Qed.

(** On every amplitude function, Hadamard gates on the qubits
    a, ..., a+n-1 give the Walsh-Hadamard sum over those qubits. *)
Lemma hadamard_layer_sum (n a : nat) (psi : nat -> C) (i : nat) :
  run_fn (map (Named Hadamard) (seq a n)) psi i =
  Cmult (Cpow inv_sqrt2 n)
    (Csum (fun x => Cmult (sign (Simon.dot n x (gather (seq a n) i)))
                          (psi (scatter (seq a n) x i))) (2 ^ n)).
Proof.
  revert a psi i. induction n as [|n IH]; intros a psi i.
  - cbn [seq map run_fn fold_left Nat.pow Csum Cpow scatter gather].
    unfold Simon.dot, sign. cbn [seq map fold_left]. ring.
  - cbn [seq map run_fn fold_left].
    change (fold_left (fun psi' op => apply_fn op psi')
              (map (Named Hadamard) (seq (S a) n)))
      with (run_fn (map (Named Hadamard) (seq (S a) n))).
    rewrite IH. cbn [Cpow]. rewrite Nat.pow_succ_r', Csum_double.
    rewrite <- Cmult_assoc, (Cmult_comm inv_sqrt2), <- Cmult_assoc.
    f_equal. rewrite <- Csum_scale_r. apply Csum_ext. intros x Hx.
    rewrite apply_fn_H.
    assert (Ha : ~ In a (seq (S a) n))
      by (intros Hin; apply in_seq in Hin; lia).
    rewrite testbit_scatter_other, !assign_scatter by assumption.
    cbn [gather scatter].
    replace (2 * x) with (2 * x + Nat.b2n false) at 1 2
      by (cbn [Nat.b2n]; lia).
    replace (2 * x + 1) with (2 * x + Nat.b2n true)
      by (cbn [Nat.b2n]; lia).
    rewrite !dot_succ.
    rewrite !(Nat.add_comm (2 * x)), !b2n_odd, !b2n_div2.
    cbn [andb xorb]. rewrite sign_xorb.
    replace (Nat.odd (2 * x)) with false
      by (rewrite Nat.odd_mul; reflexivity).
    destruct (Nat.testbit i a); unfold sign; ring.
Qed.

(* ----------------------------------------------------------------- *)
(** ** The circuit of [make_simon_circuit] *)

Lemma rename_seq (m q : nat) : QC.rename (seq 0 m) q = q.
Proof.
  unfold QC.rename. destruct (Nat.lt_ge_cases q m) as [Hq|Hq].
  - now rewrite seq_nth.
  - apply nth_overflow. now rewrite length_seq.
Qed.

Lemma rename_op_seq (m : nat) (op : Operation) :
  QC.rename_op (seq 0 m) op = op.
Proof.
  assert (Hm : forall l, map (QC.rename (seq 0 m)) l = l).
  { intros l. rewrite (map_ext _ (fun q => q)) by apply rename_seq.
    apply map_id. }
  destruct op; cbn [QC.rename_op]; now rewrite ?Hm, ?rename_seq.
Qed.

Lemma measure_all_ok (l : list nat) (qc : CircuitModel) :
  (forall q, In q l -> q < num_qubits qc /\ q < num_clbits qc) ->
  QC.measure_all l l qc =
  Ok (mkCircuit (num_qubits qc) (num_clbits qc) (operations qc)
        (measurements qc ++ combine l l)).
Proof.
  unfold QC.measure_all. revert qc.
  induction l as [|q l IH]; intros qc Hl.
  - cbn [combine for_each]. rewrite app_nil_r. now destruct qc.
  - cbn [combine for_each fst snd]. unfold QC.measure at 1.
    destruct (Hl q) as [Hq Hb]; [now left|].
    rewrite (proj2 (Nat.ltb_lt _ _) Hq), (proj2 (Nat.ltb_lt _ _) Hb).
    cbn [andb bind]. rewrite IH.
    + cbn [num_qubits num_clbits operations measurements].
      now rewrite <- app_assoc.
    + intros q' Hq'. cbn [num_qubits num_clbits]. apply Hl. now right.
Qed.

Lemma make_simon_circuit_ok (n : nat) (oracle : CircuitModel) :
  num_qubits oracle = 2 * n ->
  Forall (wf_op (2 * n)) (operations oracle) ->
  Simon.make_simon_circuit n oracle =
  Ok (mkCircuit (2 * n) n (simon_operations n (operations oracle))
        (combine (seq 0 n) (seq 0 n))).
Proof.
  intros Ho Hwf. unfold Simon.make_simon_circuit, QC.new, QC.h_all.
  cbn [bind]. unfold QC.h, QC.barrier.
  assert (Hh : forall qc, num_qubits qc = 2 * n ->
             for_each (seq 0 n) (fun q => QC.append (Named Hadamard q)) qc =
             Ok (mkCircuit (2 * n) (num_clbits qc)
                   (operations qc ++ map (Named Hadamard) (seq 0 n))
                   (measurements qc))).
  { intros qc Hq. rewrite (append_all_ok (Named Hadamard)).
    - now rewrite Hq.
    - intros q Hin. apply in_seq in Hin. rewrite Hq.
      apply indices_ok_single. lia. }
  rewrite Hh by reflexivity. cbn [bind].
  rewrite append_ok by reflexivity.
  cbn [bind num_qubits num_clbits operations measurements].
  unfold QC.append_circuit. rewrite length_seq, Ho, Nat.eqb_refl.
  rewrite (map_ext _ (fun op => op)) by apply rename_op_seq.
  rewrite map_id, (append_all_ok (fun op => op)).
  2:{ intros op Hop. cbn [num_qubits]. apply indices_ok_spec.
      rewrite Forall_forall in Hwf. now apply Hwf. }
  cbn [bind num_qubits num_clbits operations measurements].
  rewrite map_id, append_ok by reflexivity.
  cbn [bind num_qubits num_clbits operations measurements].
  rewrite Hh by reflexivity.
  cbn [bind num_qubits num_clbits operations measurements].
  rewrite append_ok by reflexivity.
  cbn [bind num_qubits num_clbits operations measurements].
  rewrite measure_all_ok.
  - cbn [num_qubits num_clbits operations measurements app].
    unfold simon_operations. now rewrite <- !app_assoc.
  - intros q Hq. apply in_seq in Hq. cbn [num_qubits num_clbits]. lia.
Qed.

Lemma simon_oracle_wf (n : nat) (s_list : list nat) :
  Forall (wf_op (2 * n)) (simon_copy n ++ simon_fans n s_list).
Proof.
  apply Forall_app. split; apply Forall_forall; intros op Hop.
  - apply in_map_iff in Hop as (i & <- & Hi). apply in_seq in Hi.
    apply indices_ok_spec, cnot_indices_ok; lia.
  - apply in_flat_map in Hop as (i & Hi & Hop). apply in_seq in Hi.
    destruct (nth i s_list 0 =? 1); [|contradiction].
    apply in_map_iff in Hop as (j & <- & Hj). apply in_seq in Hj.
    apply indices_ok_spec, cnot_indices_ok; lia.
Qed.

(** The register written by measuring qubit q into bit q for q < n. *)
Lemma testbit_outcome_fold (i : nat) (l : list nat) (acc p : nat) :
  Nat.testbit
    (fold_left (fun y qb => assign_bit y (snd qb) (Nat.testbit i (fst qb)))
               (combine l l) acc) p =
  if existsb (Nat.eqb p) l then Nat.testbit i p else Nat.testbit acc p.
Proof.
  revert acc. induction l as [|a l IH]; intros acc; [reflexivity|].
  cbn [combine fold_left fst snd existsb]. rewrite IH, testbit_assign.
  destruct (existsb (Nat.eqb p) l); [now rewrite orb_true_r|].
  rewrite orb_false_r, (Nat.eqb_sym p a).
  destruct (Nat.eqb_spec a p); [now subst|reflexivity].
Qed.

Lemma outcome_of_low (n i : nat) :
  outcome_of (combine (seq 0 n) (seq 0 n)) i = i mod 2 ^ n.
Proof.
  apply Nat.bits_inj. intros p. unfold outcome_of.
  rewrite testbit_outcome_fold, Nat.bits_0.
  destruct (Nat.lt_ge_cases p n) as [Hp|Hp].
  - rewrite Nat.mod_pow2_bits_low by assumption.
    replace (existsb (Nat.eqb p) (seq 0 n)) with true; [reflexivity|].
    symmetry. apply existsb_exists. exists p.
    split; [apply in_seq; lia|apply Nat.eqb_refl].
  - rewrite Nat.mod_pow2_bits_high by assumption.
    destruct (existsb (Nat.eqb p) (seq 0 n)) eqn:E; [|reflexivity].
    apply existsb_exists in E as (q & Hq & E). apply in_seq in Hq.
    apply Nat.eqb_eq in E. lia.
Qed.

(* ----------------------------------------------------------------- *)
(** ** The state of the Simon circuit, stage by stage *)

Lemma scatter_low_parts (n x i : nat) :
  x < 2 ^ n ->
  scatter (seq 0 n) x i / 2 ^ n = i / 2 ^ n /\
  scatter (seq 0 n) x i mod 2 ^ n = x.
Proof.
  intros Hx. split; apply Nat.bits_inj; intros p.
  - rewrite !Nat.div_pow2_bits, testbit_scatter_seq.
    destruct (Nat.ltb_spec (p + n) (0 + n)); [lia|].
    now rewrite andb_false_r.
  - destruct (Nat.lt_ge_cases p n) as [Hp|Hp].
    + rewrite Nat.mod_pow2_bits_low, testbit_scatter_seq by assumption.
      cbn [Nat.leb Nat.add andb]. rewrite (proj2 (Nat.ltb_lt p n) Hp).
      now rewrite Nat.sub_0_r.
    + rewrite Nat.mod_pow2_bits_high by assumption.
      symmetry. now apply (proj1 (lt_pow2_bits x n) Hx).
Qed.

Lemma gather_low (n i : nat) : gather (seq 0 n) i = i mod 2 ^ n.
Proof.
  apply Nat.bits_inj. intros p. rewrite testbit_gather_seq.
  destruct (Nat.ltb_spec p n) as [Hp|Hp]; cbn [andb Nat.add].
  - now rewrite Nat.mod_pow2_bits_low.
  - now rewrite Nat.mod_pow2_bits_high.
Qed.

Lemma dot_mod_r (n x i : nat) :
  Simon.dot n x (i mod 2 ^ n) = Simon.dot n x i.
Proof.
  apply dot_ext; [reflexivity|]. intros p Hp.
  now apply Nat.mod_pow2_bits_low.
Qed.

Lemma dot_mod_l (n x s : nat) :
  Simon.dot n (x mod 2 ^ n) s = Simon.dot n x s.
Proof.
  apply dot_ext; [|reflexivity]. intros p Hp.
  now apply Nat.mod_pow2_bits_low.
Qed.

(** After the first Hadamard layer: the uniform superposition of the
    input register, the output register at 0. *)
Lemma simon_state_1 (n i : nat) :
  run_fn (map (Named Hadamard) (seq 0 n)) (ket 0) i =
  if i <? 2 ^ n then Cpow inv_sqrt2 n else Czero.
Proof.
  rewrite hadamard_layer_sum.
  assert (Hpos : 0 < 2 ^ n) by (apply Nat.neq_0_lt_0, Nat.pow_nonzero; lia).
  destruct (Nat.ltb_spec i (2 ^ n)) as [Hi|Hi].
  - rewrite (Csum_single 0); [|assumption|].
    2:{ intros x Hx Hx0. unfold ket.
        destruct (Nat.eqb_spec (scatter (seq 0 n) x i) 0) as [E|E]; [|ring].
        exfalso. apply Hx0.
        rewrite <- (proj2 (scatter_low_parts n x i Hx)), E.
        now apply Nat.mod_small. }
    rewrite dot_zero. unfold sign, ket.
    replace (scatter (seq 0 n) 0 i) with 0; [cbn [Nat.eqb]; ring|].
    symmetry. rewrite (Nat.div_mod (scatter (seq 0 n) 0 i) (2 ^ n)) by lia.
    destruct (scatter_low_parts n 0 i Hpos) as [-> ->].
    rewrite Nat.div_small by assumption. lia.
  - rewrite (Csum_ext _ (fun _ => Czero)), Csum_zero; [ring|].
    intros x Hx. unfold ket.
    destruct (Nat.eqb_spec (scatter (seq 0 n) x i) 0) as [E|E]; [|ring].
    exfalso. pose proof (proj1 (scatter_low_parts n x i Hx)) as Hd.
    rewrite E, Nat.div_small in Hd by assumption.
    symmetry in Hd. apply Nat.div_small_iff in Hd; lia.
Qed.

Lemma cnot_toggles_rev (ops : list Operation) (i p : nat) :
  cnot_toggles (rev ops) i p = cnot_toggles ops i p.
Proof.
  induction ops as [|op ops IH]; [reflexivity|].
  cbn [rev]. rewrite cnot_toggles_app, IH.
  destruct op; cbn [cnot_toggles]; rewrite ?xorb_false_r; try reflexivity.
  apply xorb_comm.
Qed.

Lemma testbit_simon_function (n sv x k : nat) :
  Nat.testbit (simon_function n sv x) k =
  xorb (Nat.testbit x k) ((k <? n) && Simon.dot n x sv).
Proof.
  unfold simon_function. destruct (Simon.dot n x sv).
  - now rewrite Nat.lxor_spec, testbit_all_ones, andb_true_r.
  - now rewrite andb_false_r, xorb_false_r.
Qed.

(** After the oracle: the output register holds the oracle's function of
    the input register. *)
Lemma simon_state_2 (n : nat) (s_list : list nat) (sv i : nat)
  (psi : nat -> C) :
  (forall p, p < n -> (nth p s_list 0 =? 1) = Nat.testbit sv p) ->
  (forall j, psi j = if j <? 2 ^ n then Cpow inv_sqrt2 n else Czero) ->
  run_fn (simon_copy n ++ simon_fans n s_list) psi i =
  if i / 2 ^ n =? simon_function n sv (i mod 2 ^ n)
  then Cpow inv_sqrt2 n else Czero.
Proof.
  intros Hs Hpsi.
  set (ops := simon_copy n ++ simon_fans n s_list).
  destruct (cnot_run n (rev ops) i) as (j & Hrun & Hj).
  { apply Forall_rev, Forall_app. split;
      [apply simon_copy_crossing|apply simon_fans_crossing]. }
  rewrite (run_fn_classical (2 * n) ops psi i j (simon_oracle_wf n s_list) Hrun).
  rewrite Hpsi.
  assert (Hbits : forall k, Nat.testbit j (k + n) =
                  xorb (Nat.testbit (i / 2 ^ n) k)
                       (Nat.testbit
                          (simon_function n sv (i mod 2 ^ n)) k)).
  { intros k. rewrite Hj, cnot_toggles_rev. unfold ops.
    rewrite (simon_toggles n s_list sv) by assumption.
    rewrite Nat.div_pow2_bits, testbit_simon_function, dot_mod_l.
    destruct (Nat.ltb_spec k n) as [Hk|Hk]; cbn [andb].
    - now rewrite Nat.mod_pow2_bits_low.
    - now rewrite Nat.mod_pow2_bits_high. }
  destruct (Nat.ltb_spec j (2 ^ n)) as [Hlt|Hge];
    destruct (Nat.eqb_spec (i / 2 ^ n)
                (simon_function n sv (i mod 2 ^ n))) as [E|E];
    try reflexivity; exfalso.
  - apply E. apply Nat.bits_inj. intros k.
    specialize (Hbits k).
    rewrite (proj1 (lt_pow2_bits j n) Hlt) in Hbits by lia.
    symmetry in Hbits. now apply xorb_eq in Hbits.
  - assert (Hj' : j < 2 ^ n); [|lia].
    apply lt_pow2_bits. intros p Hp.
    replace p with ((p - n) + n) by lia.
    now rewrite Hbits, E, xorb_nilpotent.
Qed.

(** After the second Hadamard layer. *)
Lemma simon_state_3 (n sv i : nat) (psi : nat -> C) :
  (forall j, psi j = if j / 2 ^ n =? simon_function n sv (j mod 2 ^ n)
                     then Cpow inv_sqrt2 n else Czero) ->
  run_fn (map (Named Hadamard) (seq 0 n)) psi i =
  Cmult (Cpow inv_sqrt2 n)
    (Csum (fun x => Cmult (sign (Simon.dot n x i))
                      (if i / 2 ^ n =? simon_function n sv x
                       then Cpow inv_sqrt2 n else Czero)) (2 ^ n)).
Proof.
  intros Hpsi. rewrite hadamard_layer_sum. f_equal.
  apply Csum_ext. intros x Hx. rewrite Hpsi.
  destruct (scatter_low_parts n x i Hx) as [-> ->].
  now rewrite gather_low, dot_mod_r.
Qed.

Lemma simon_final_state (n : nat) (s_list : list nat) (sv i : nat) :
  (forall p, p < n -> (nth p s_list 0 =? 1) = Nat.testbit sv p) ->
  run_fn (simon_operations n (simon_copy n ++ simon_fans n s_list))
         (ket 0) i =
  Cmult (Cpow inv_sqrt2 n)
    (Csum (fun x => Cmult (sign (Simon.dot n x i))
                      (if i / 2 ^ n =? simon_function n sv x
                       then Cpow inv_sqrt2 n else Czero)) (2 ^ n)).
Proof.
  intros Hs. unfold simon_operations.
  set (ops := simon_copy n ++ simon_fans n s_list).
  rewrite !run_fn_app.
  change (run_fn [Barrier]) with (fun phi : nat -> C => phi).
  cbv beta. apply simon_state_3. intros j. subst ops.
  apply simon_state_2; [assumption|]. intros k. apply simon_state_1.
Qed.

(* ----------------------------------------------------------------- *)
(** ** What the Simon circuit measures *)

Lemma Rsum_split (f : nat -> R) (a b : nat) :
  Rsum f (a + b) = Rplus (Rsum f a) (Rsum (fun k => f (a + k)) b).
Proof.
  induction b as [|b IH].
  - rewrite Nat.add_0_r. cbn [Rsum]. lra.
  - rewrite Nat.add_succ_r. cbn [Rsum]. rewrite IH. lra.
Qed.

(** The terms of a sum over [0, N * M) whose index has residue y. *)
Lemma Rsum_residue (g : nat -> R) (N M y : nat) :
  y < N ->
  Rsum (fun i => if i mod N =? y then g i else 0%R) (N * M) =
  Rsum (fun z => g (y + N * z)) M.
Proof.
  intros Hy. induction M as [|M IH].
  - now rewrite Nat.mul_0_r.
  - replace (N * S M) with (N * M + N) by lia.
    rewrite Rsum_split, IH. cbn [Rsum]. f_equal.
    rewrite (Rsum_single y); [| assumption |].
    + rewrite (Nat.mul_comm N M), Nat.add_comm, Nat.Div0.mod_add.
      rewrite Nat.mod_small, Nat.eqb_refl by assumption. reflexivity.
    + intros k Hk Hne.
      rewrite (Nat.mul_comm N M), Nat.add_comm, Nat.Div0.mod_add.
      rewrite Nat.mod_small by assumption.
      destruct (Nat.eqb_spec k y); [contradiction|reflexivity].
Qed.

Lemma Csum_fst (f : nat -> C) (n : nat) :
  fst (Csum f n) = Rsum (fun i => fst (f i)) n.
Proof. induction n as [|n IH]; [reflexivity|]. cbn. now rewrite IH. Qed.

Lemma Csum_snd (f : nat -> C) (n : nat) :
  snd (Csum f n) = Rsum (fun i => snd (f i)) n.
Proof. induction n as [|n IH]; [reflexivity|]. cbn. now rewrite IH. Qed.

Lemma Csum_reindex (s : nat -> nat) (f : nat -> C) (n : nat) :
  (forall i, i < n -> s i < n) ->
  (forall i, i < n -> s (s i) = i) ->
  Csum (fun i => f (s i)) n = Csum f n.
Proof.
  intros Hlt Hinv. apply C_eq.
  - rewrite !Csum_fst. now apply (Rsum_reindex s (fun i => fst (f i))).
  - rewrite !Csum_snd. now apply (Rsum_reindex s (fun i => snd (f i))).
Qed.

Lemma Csum_opp (f : nat -> C) (n : nat) :
  Csum (fun i => Copp (f i)) n = Copp (Csum f n).
Proof. induction n as [|n IH]; cbn [Csum]; [|rewrite IH]; csolve. Qed.

Lemma Copp_self (a : C) : a = Copp a -> a = Czero.
Proof.
  destruct a as [x y]. unfold Copp, Czero, RtoC. cbn. intros E.
  inversion E. f_equal; lra.
Qed.

Lemma Cnorm2_mult (a b : C) : Cnorm2 (a * b) = (Cnorm2 a * Cnorm2 b)%R.
Proof. destruct a, b. unfold Cnorm2, Cmult. cbn. ring. Qed.

Lemma Cnorm2_Cpow (n : nat) : Cnorm2 (Cpow inv_sqrt2 n) = ((1 / 2) ^ n)%R.
Proof.
  induction n as [|n IH]; cbn [Cpow pow]; [apply Cnorm2_one|].
  now rewrite Cnorm2_mult, IH, Cnorm2_inv_sqrt2.
Qed.

Lemma Cnorm2_sign (b : bool) : Cnorm2 (sign b) = 1%R.
Proof.
  destruct b; unfold sign; [rewrite Cnorm2_opp|]; apply Cnorm2_one.
Qed.

Lemma half_pow_total (n : nat) :
  (INR (2 ^ n) * ((1 / 2) ^ n * (1 / 2) ^ n) = (1 / 2) ^ n)%R.
Proof.
  rewrite pow_INR. change (INR 2) with 2%R.
  rewrite <- Rmult_assoc, <- Rpow_mult_distr.
  replace (2 * (1 / 2))%R with 1%R by lra. rewrite pow1. lra.
Qed.

Lemma dot_comm (n x y : nat) : Simon.dot n x y = Simon.dot n y x.
Proof.
  rewrite !dot_fold_right. f_equal. apply map_ext. intros p.
  apply andb_comm.
Qed.

Lemma simon_function_lt (n sv x : nat) :
  x < 2 ^ n -> simon_function n sv x < 2 ^ n.
Proof.
  intros Hx. unfold simon_function. destruct (Simon.dot n x sv).
  - apply lxor_lt; [assumption|apply all_ones_lt].
  - assumption.
Qed.

(** For a secret with an even number of ones the oracle's function is
    an involution. *)
Lemma simon_function_involutive (n sv x : nat) :
  Simon.dot n sv (all_ones n) = false ->
  simon_function n sv (simon_function n sv x) = x.
Proof.
  intros He. rewrite dot_comm in He. unfold simon_function.
  destruct (Simon.dot n x sv) eqn:D.
  - rewrite dot_lxor, D, He. cbn [xorb].
    now rewrite Nat.lxor_assoc, Nat.lxor_nilpotent, Nat.lxor_0_r.
  - now rewrite D.
Qed.

(** For a secret with an odd number of ones it takes the same value on
    an input and on its complement. *)
Lemma simon_function_complement (n sv x : nat) :
  Simon.dot n sv (all_ones n) = true ->
  simon_function n sv (Nat.lxor x (all_ones n)) = simon_function n sv x.
Proof.
  intros Ho. rewrite dot_comm in Ho. unfold simon_function.
  rewrite dot_lxor, Ho. destruct (Simon.dot n x sv); cbn [xorb].
  - reflexivity.
  - now rewrite Nat.lxor_assoc, Nat.lxor_nilpotent, Nat.lxor_0_r.
Qed.

Lemma simon_operations_wf (n : nat) (s_list : list nat) :
  Forall (wf_op (2 * n))
    (simon_operations n (simon_copy n ++ simon_fans n s_list)).
Proof.
  assert (Hh : Forall (wf_op (2 * n)) (map (Named Hadamard) (seq 0 n))).
  { apply Forall_forall. intros op Hop.
    apply in_map_iff in Hop as (q & <- & Hq). apply in_seq in Hq.
    apply indices_ok_spec, indices_ok_single. lia. }
  assert (Hb : Forall (wf_op (2 * n)) [Barrier])
    by (repeat constructor).
  pose proof (simon_oracle_wf n s_list) as Ho.
  unfold simon_operations.
  set (ops := simon_copy n ++ simon_fans n s_list) in *.
  apply Forall_app; split; [exact Hh|].
  apply Forall_app; split; [exact Hb|].
  apply Forall_app; split; [exact Ho|].
  apply Forall_app; split; [exact Hb|].
  apply Forall_app; split; [exact Hh|exact Hb].
Qed.

(** The probability of the outcome y, as a sum over the values of the
    output register. *)
Lemma simon_outcome_prob (n : nat) (s_list : list nat) (sv y : nat) :
  (forall p, p < n -> (nth p s_list 0 =? 1) = Nat.testbit sv p) ->
  y < 2 ^ n ->
  outcome_prob (combine (seq 0 n) (seq 0 n))
    (simulate
       (mkCircuit (2 * n) n
          (simon_operations n (simon_copy n ++ simon_fans n s_list))
          (combine (seq 0 n) (seq 0 n)))) y =
  Rsum (fun z =>
          Cnorm2
            (Cmult (Cpow inv_sqrt2 n)
               (Csum (fun x => Cmult (sign (Simon.dot n x y))
                                 (if z =? simon_function n sv x
                                  then Cpow inv_sqrt2 n else Czero))
                     (2 ^ n)))) (2 ^ n).
Proof.
  intros Hs Hy. unfold outcome_prob. rewrite length_simulate.
  cbn [num_qubits].
  replace (2 ^ (2 * n)) with (2 ^ n * 2 ^ n)
    by (rewrite <- Nat.pow_add_r; f_equal; lia).
  rewrite (Rsum_ext _ (fun i =>
             if i mod 2 ^ n =? y
             then Cnorm2 (run_fn
                            (simon_operations n
                               (simon_copy n ++ simon_fans n s_list))
                            (ket 0) i)
             else 0%R)).
  - rewrite Rsum_residue by assumption. apply Rsum_ext. intros z Hz.
    rewrite (simon_final_state n s_list sv) by assumption.
    assert (Hd : (y + 2 ^ n * z) / 2 ^ n = z).
    { rewrite (Nat.mul_comm (2 ^ n) z), Nat.div_add
        by (apply Nat.pow_nonzero; lia).
      now rewrite Nat.div_small. }
    assert (Hm : (y + 2 ^ n * z) mod 2 ^ n = y).
    { rewrite (Nat.mul_comm (2 ^ n) z), Nat.Div0.mod_add.
      now apply Nat.mod_small. }
    rewrite Hd. f_equal. f_equal. apply Csum_ext. intros x Hx.
    now rewrite <- (dot_mod_r n x (y + 2 ^ n * z)), Hm.
  - intros i Hi. rewrite outcome_of_low.
    destruct (i mod 2 ^ n =? y); [|reflexivity].
    unfold born, simulate, initial_state. cbn [operations num_qubits].
    f_equal. apply (amp_run_ops (2 * n)).
    + apply simon_operations_wf.
    + apply length_basis.
    + intros j Hj. now apply amp_basis.
    + replace (2 ^ (2 * n)) with (2 ^ n * 2 ^ n)
        by (rewrite <- Nat.pow_add_r; f_equal; lia).
      exact Hi.
Qed.

Lemma simon_circuit_built_for (n : nat) (s : string) (sv : nat) :
  String.length s = n -> Shor.int_base2 s = Ok (Z.of_nat sv) ->
  exists s_list : list nat,
    (forall p, p < n -> (nth p s_list 0 =? 1) = Nat.testbit sv p) /\
    Simon.make_simon_oracle n s =
    Ok (mkCircuit (2 * n) 0 (simon_copy n ++ simon_fans n s_list) []) /\
    Simon.make_simon_circuit n
      (mkCircuit (2 * n) 0 (simon_copy n ++ simon_fans n s_list) []) =
    Ok (mkCircuit (2 * n) n
          (simon_operations n (simon_copy n ++ simon_fans n s_list))
          (combine (seq 0 n) (seq 0 n))).
Proof.
  intros Hlen Hv.
  destruct (simon_oracle_built n s sv Hlen Hv) as (_ & s_list & Hbits & Hb).
  exists s_list. split; [exact Hbits|]. split; [exact Hb|].
  apply make_simon_circuit_ok; [reflexivity|apply simon_oracle_wf].
Qed.

(** X14: for a secret string s of n binary digits with an even number
    of ones, the circuit built by [make_simon_oracle] and
    [make_simon_circuit] measures every n-bit string y with the same
    probability 1/2^n: the outcome distribution is uniform and does not
    depend on s. *)
Theorem simon_even_secret_uniform (n : nat) (s : string) (sv y : nat) :
  String.length s = n -> Shor.int_base2 s = Ok (Z.of_nat sv) ->
  Simon.dot n sv (all_ones n) = false ->
  y < 2 ^ n ->
  exists oracle qc : CircuitModel,
    Simon.make_simon_oracle n s = Ok oracle /\
    Simon.make_simon_circuit n oracle = Ok qc /\
    outcome_prob (measurements qc) (simulate qc) y = ((1 / 2) ^ n)%R.
Proof.
  intros Hlen Hv He Hy.
  destruct (simon_circuit_built_for n s sv Hlen Hv)
    as (s_list & Hbits & Hb & Hc).
  eexists _, _. split; [exact Hb|]. split; [exact Hc|].
  cbn [measurements]. rewrite (simon_outcome_prob n s_list sv) by assumption.
  rewrite (Rsum_ext _ (fun _ => ((1 / 2) ^ n * (1 / 2) ^ n)%R)).
  - rewrite Rsum_const. apply half_pow_total.
  - intros z Hz.
    rewrite (Csum_single (simon_function n sv z)).
    + rewrite simon_function_involutive, Nat.eqb_refl by assumption.
      now rewrite !Cnorm2_mult, Cnorm2_sign, Cnorm2_Cpow, Rmult_1_l.
    + now apply simon_function_lt.
    + intros x Hx Hne.
      destruct (Nat.eqb_spec z (simon_function n sv x)) as [E|E]; [|ring].
      exfalso. apply Hne. rewrite E.
      symmetry. now apply simon_function_involutive.
Qed.

Lemma simon_even_secret_uniform_witness :
  String.length "101" = 3 /\ Simon.dot 3 5 (all_ones 3) = false /\
  exists oracle qc : CircuitModel,
    Simon.make_simon_oracle 3 "101" = Ok oracle /\
    Simon.make_simon_circuit 3 oracle = Ok qc /\
    outcome_prob (measurements qc) (simulate qc) 1 = ((1 / 2) ^ 3)%R.
Proof.
  split; [reflexivity|]. split; [reflexivity|].
  apply (simon_even_secret_uniform 3 "101" 5 1 eq_refl eq_refl eq_refl).
  simpl. lia.
Defined.

(** X15: for a secret string s of n binary digits with an odd number of
    ones, the circuit never measures a string y with an odd number of
    ones: every outcome satisfies y . 11...1 = 0, whatever s is. *)
Theorem simon_odd_secret_parity (n : nat) (s : string) (sv y : nat) :
  String.length s = n -> Shor.int_base2 s = Ok (Z.of_nat sv) ->
  Simon.dot n sv (all_ones n) = true ->
  y < 2 ^ n -> Simon.dot n y (all_ones n) = true ->
  exists oracle qc : CircuitModel,
    Simon.make_simon_oracle n s = Ok oracle /\
    Simon.make_simon_circuit n oracle = Ok qc /\
    outcome_prob (measurements qc) (simulate qc) y = 0%R.
Proof.
  intros Hlen Hv Ho Hy Hpar.
  destruct (simon_circuit_built_for n s sv Hlen Hv)
    as (s_list & Hbits & Hb & Hc).
  eexists _, _. split; [exact Hb|]. split; [exact Hc|].
  cbn [measurements]. rewrite (simon_outcome_prob n s_list sv) by assumption.
  rewrite (Rsum_ext _ (fun _ => 0%R)); [apply Rsum_zero|].
  intros z Hz.
  set (T := fun x => Cmult (sign (Simon.dot n x y))
                       (if z =? simon_function n sv x
                        then Cpow inv_sqrt2 n else Czero)).
  assert (HS : Csum T (2 ^ n) = Czero).
  { apply Copp_self. rewrite <- Csum_opp.
    rewrite <- (Csum_reindex (fun x => Nat.lxor x (all_ones n)) T).
    - apply Csum_ext. intros x Hx. unfold T.
      rewrite simon_function_complement by assumption.
      rewrite dot_lxor, (dot_comm n (all_ones n)), Hpar, sign_xorb.
      unfold sign at 2. ring.
    - intros x Hx. apply lxor_lt; [assumption|apply all_ones_lt].
    - intros x Hx.
      now rewrite Nat.lxor_assoc, Nat.lxor_nilpotent, Nat.lxor_0_r. }
  rewrite HS, Cmult_0_r. apply Cnorm2_zero.
Qed.

Lemma simon_odd_secret_parity_witness :
  String.length "100" = 3 /\ Simon.dot 3 4 (all_ones 3) = true /\
  Simon.dot 3 1 (all_ones 3) = true /\
  exists oracle qc : CircuitModel,
    Simon.make_simon_oracle 3 "100" = Ok oracle /\
    Simon.make_simon_circuit 3 oracle = Ok qc /\
    outcome_prob (measurements qc) (simulate qc) 1 = 0%R.
Proof.
  split; [reflexivity|]. split; [reflexivity|]. split; [reflexivity|].
  apply (simon_odd_secret_parity 3 "100" 4 1 eq_refl eq_refl eq_refl);
    [simpl; lia|reflexivity].
Defined.

(* ----------------------------------------------------------------- *)
(** ** The Bell histogram as a function of the random source *)

(** A variate below 1/2 draws 00 and every other one draws 11. *)
Lemma bell_draw_cell (p : nat -> R) (r : R) :
  p 0 = (1 / 2)%R -> p 1 = 0%R -> p 2 = 0%R ->
  draw p 3 0 0%R r = if Rlt_dec r (1 / 2) then 0 else 3.
Proof.
  intros P0 P1 P2. cbn [draw]. rewrite P0, P1, P2.
  repeat destruct (Rlt_dec _ _); try reflexivity; lra.
Qed.

Lemma count_bell_samples (p : nat -> R) (rnds : list R) :
  p 0 = (1 / 2)%R -> p 1 = 0%R -> p 2 = 0%R ->
  count (map (draw p 3 0 0%R) rnds) 0 =
  length (filter (fun r => if Rlt_dec r (1 / 2) then true else false) rnds).
Proof.
  intros P0 P1 P2. unfold count.
  induction rnds as [|r rnds IH]; [reflexivity|].
  cbn [map count_occ filter]. rewrite (bell_draw_cell p r P0 P1 P2).
  destruct (Rlt_dec r (1 / 2)).
  - destruct (Nat.eq_dec 0 0); [|congruence]. cbn [length]. now rewrite IH.
  - destruct (Nat.eq_dec 3 0); [discriminate|]. exact IH.
Qed.

Lemma bell_histogram_counts (samples : list nat) :
  Forall (fun y => y = 0 \/ y = 3) samples ->
  get (histogram 2 samples) "00" = count samples 0 /\
  get (histogram 2 samples) "11" = count samples 3.
Proof.
  intros Hs. destruct (count_two samples 0 3 ltac:(lia) Hs) as [_ Hz].
  unfold histogram. cbn [Nat.pow Nat.mul Nat.add seq filter].
  rewrite (Hz 1), (Hz 2) by lia. cbn [Nat.ltb Nat.leb].
  destruct (count samples 0) as [|c0] eqn:E0;
    destruct (count samples 3) as [|c3] eqn:E3;
    cbn [Nat.ltb Nat.leb map bitstring get]; split; cbn; congruence.
Qed.

Lemma bell_counts_run (rng : nat -> R) :
  Entanglement.counts rng = Ok (AerSimulator_run bell_circuit 1000 rng).
Proof. reflexivity. Qed.

(** The histogram of the Bell circuit for any random source: the count
    of 00 is the number of variates below 1/2, that of 11 the number of
    the others. *)
Lemma bell_counts (shots : nat) (rng : nat -> R) :
  let counts := AerSimulator_run bell_circuit shots rng in
  Forall (fun kv => fst kv = "00"%string \/ fst kv = "11"%string) counts /\
  get counts "01" = 0 /\ get counts "10" = 0 /\
  get counts "00" + get counts "11" = shots /\
  get counts "00" = variates_below (1 / 2) shots rng.
Proof.
  destruct bell_distribution as (P0 & P1 & P2 & P3).
  unfold AerSimulator_run, get_counts, run_samples, variates_below.
  set (rnds := map rng (seq 0 shots)).
  assert (Hs : Forall (fun y => y = 0 \/ y = 3)
                 (sample (num_clbits bell_circuit)
                    (outcome_prob (measurements bell_circuit)
                       (simulate bell_circuit)) rnds)).
  { unfold sample. apply Forall_forall. intros y Hy.
    apply in_map_iff in Hy as (r & <- & _). now apply bell_draw. }
  assert (Hlen : length (sample (num_clbits bell_circuit)
                    (outcome_prob (measurements bell_circuit)
                       (simulate bell_circuit)) rnds) = shots).
  { unfold rnds. now rewrite length_sample, length_map, length_seq. }
  destruct (bell_histogram _ Hs) as (H1 & H2 & H3 & H4).
  destruct (bell_histogram_counts _ Hs) as (H5 & _).
  cbv zeta. rewrite Hlen in H4.
  split; [exact H1|]. split; [exact H2|]. split; [exact H3|].
  split; [exact H4|].
  change (num_clbits bell_circuit) with 2 in *. rewrite H5.
  now apply count_bell_samples.
Qed.

(* ----------------------------------------------------------------- *)
(** ** Binomial coefficients *)

Lemma choose_0 (n : nat) : choose n 0 = 1.
Proof. destruct n; reflexivity. Qed.

Lemma choose_absorb (n k : nat) :
  (Z.of_nat (choose n k) * (Z.of_nat n - Z.of_nat k) =
   Z.of_nat (S k) * Z.of_nat (choose n (S k)))%Z.
Proof.
  revert k. induction n as [|n IH]; intros k.
  - destruct k; cbn [choose]; lia.
  - destruct k as [|k].
    + pose proof (IH 0) as H0. rewrite choose_0 in *.
      cbn [choose]. rewrite choose_0. lia.
    + pose proof (IH k) as H1. pose proof (IH (S k)) as H2.
      cbn [choose]. rewrite !Nat2Z.inj_add, !Nat2Z.inj_succ in *. lia.
Qed.

(** The multiplicative recurrence computes the binomial coefficients. *)
Lemma binomial_choose (n k : nat) : binomial n k = Z.of_nat (choose n k).
Proof.
  induction k as [|k IH]; cbn [binomial]; [now rewrite choose_0|].
  rewrite IH, choose_absorb, Z.mul_comm, Z.div_mul by lia. reflexivity.
Qed.

(* ----------------------------------------------------------------- *)
(** ** Counting the sources of a grid *)

Lemma length_filter_none {A : Type} (l : list A) :
  length (filter (fun _ => false) l) = 0.
Proof. induction l; [reflexivity|exact IHl]. Qed.

Lemma length_filter_map {A B : Type} (P : B -> bool) (f : A -> B)
  (l : list A) :
  length (filter P (map f l)) = length (filter (fun x => P (f x)) l).
Proof.
  induction l as [|a l IH]; [reflexivity|].
  cbn [map filter]. destruct (P (f a)); cbn [length]; now rewrite IH.
Qed.

Lemma length_filter_flat_map {A B : Type} (P : B -> bool)
  (g : A -> list B) (l : list A) :
  length (filter P (flat_map g l)) =
  list_sum (map (fun x => length (filter P (g x))) l).
Proof.
  induction l as [|a l IH]; [reflexivity|].
  change (list_sum (map (fun x => length (filter P (g x))) (a :: l)))
    with (length (filter P (g a)) +
          list_sum (map (fun x => length (filter P (g x))) l)).
  cbn [flat_map]. now rewrite filter_app, length_app, IH.
Qed.

Lemma length_filter_either {A : Type} (P Q : A -> bool) (l : list A) :
  (forall x, P x = true -> Q x = false) ->
  length (filter (fun x => P x || Q x) l) =
  length (filter P l) + length (filter Q l).
Proof.
  intros D. induction l as [|a l IH]; [reflexivity|].
  cbn [filter]. destruct (P a) eqn:EP.
  - rewrite (D a EP). cbn [orb length]. now rewrite IH.
  - destruct (Q a); cbn [orb length]; rewrite IH; lia.
Qed.

Lemma list_sum_const {A : Type} (f : A -> nat) (c : nat) (l : list A) :
  (forall x, In x l -> f x = c) -> list_sum (map f l) = length l * c.
Proof.
  intros H. induction l as [|a l IH]; [reflexivity|].
  change (list_sum (map f (a :: l))) with (f a + list_sum (map f l)).
  rewrite (H a) by now left.
  rewrite IH by (intros x Hx; apply H; now right). cbn [length]. lia.
Qed.

Lemma list_sum_one (x : nat) : list_sum [x] = x.
Proof. cbn. lia. Qed.

(** The elements whose measure lies in a range, counted value by
    value. *)
Lemma length_filter_range {A : Type} (f : A -> nat) (l : list A)
  (lo m : nat) :
  length (filter (fun x => (lo <=? f x) && (f x <? lo + m)) l) =
  list_sum (map (fun k => length (filter (fun x => f x =? k) l))
                (seq lo m)).
Proof.
  induction m as [|m IH].
  - cbn [seq map list_sum].
    rewrite (filter_ext _ (fun _ => false)); [apply length_filter_none|].
    intros x. destruct (Nat.leb_spec lo (f x)), (Nat.ltb_spec (f x) (lo + 0));
      try reflexivity; lia.
  - rewrite seq_S, map_app, list_sum_app. cbn [map].
    rewrite list_sum_one, <- IH, <- length_filter_either.
    + f_equal. apply filter_ext. intros x.
      destruct (Nat.leb_spec lo (f x)), (Nat.ltb_spec (f x) (lo + S m)),
               (Nat.ltb_spec (f x) (lo + m)), (Nat.eqb_spec (f x) (lo + m));
        try reflexivity; lia.
    + intros x Hx. apply andb_prop in Hx as [_ Hx].
      apply Nat.ltb_lt in Hx. apply Nat.eqb_neq. lia.
Qed.

Lemma grid_sources_spec (M n : nat) (js : list nat) :
  In js (grid_sources M n) ->
  length js = n /\ Forall (fun j => j < M) js.
Proof.
  revert js. induction n as [|n IH]; intros js; cbn [grid_sources].
  - intros [<-|[]]. split; [reflexivity|constructor].
  - intros H. apply in_flat_map in H as (j & Hj & H).
    apply in_map_iff in H as (js' & <- & H'). apply IH in H' as [L F].
    apply in_seq in Hj. split; [cbn [length]; lia|].
    constructor; [lia|assumption].
Qed.

Lemma grid_sources_complete (M n : nat) (js : list nat) :
  length js = n -> Forall (fun j => j < M) js -> In js (grid_sources M n).
Proof.
  revert n. induction js as [|j js IH]; intros n <- F.
  - now left.
  - inversion F as [|? ? Hj F']; subst. cbn [length grid_sources].
    apply in_flat_map. exists j. split; [apply in_seq; lia|].
    apply in_map. now apply IH.
Qed.

Lemma grid_sources_length (M n : nat) : length (grid_sources M n) = M ^ n.
Proof.
  induction n as [|n IH]; [reflexivity|]. cbn [grid_sources Nat.pow].
  rewrite <- IH. clear IH.
  assert (H : forall l : list nat,
            length (flat_map (fun j => map (cons j) (grid_sources M n)) l) =
            length l * length (grid_sources M n)).
  { induction l as [|j l IHl]; [reflexivity|].
    cbn [flat_map length]. rewrite length_app, length_map, IHl. lia. }
  now rewrite H, length_seq.
Qed.

(** Among the sources of [n] shots on a grid of 2h points, those with
    exactly [k] variates in the lower half. *)
Lemma grid_count (h n k : nat) :
  length (filter (fun js => numerators_below h js =? k)
                 (grid_sources (2 * h) n)) = choose n k * h ^ n.
Proof.
  revert k. induction n as [|n IH]; intros k.
  - destruct k; reflexivity.
  - cbn [grid_sources]. rewrite length_filter_flat_map.
    set (G := grid_sources (2 * h) n) in *.
    replace (2 * h) with (h + h) by lia.
    rewrite seq_app, map_app, list_sum_app. cbn [Nat.add].
    rewrite (list_sum_const _
               (match k with O => 0 | S k' => choose n k' * h ^ n end)).
    2:{ intros j Hj. apply in_seq in Hj. rewrite length_filter_map.
        unfold numerators_below. cbn [filter].
        destruct (Nat.ltb_spec j h) as [_|]; [|lia]. cbn [length].
        destruct k as [|k']; [apply length_filter_none|].
        cbn [Nat.eqb]. apply IH. }
    rewrite (list_sum_const _ (choose n k * h ^ n)).
    2:{ intros j Hj. apply in_seq in Hj. rewrite length_filter_map.
        unfold numerators_below. cbn [filter].
        destruct (Nat.ltb_spec j h) as [|_]; [lia|]. apply IH. }
    rewrite !length_seq. destruct k as [|k'].
    + rewrite !choose_0. cbn [Nat.pow]. ring.
    + cbn [choose Nat.pow]. ring.
Qed.

(* ----------------------------------------------------------------- *)
(** ** The law of the Bell counts under a uniform source *)

Lemma map_seq_nth {A : Type} (l : list A) (d : A) :
  map (fun k => nth k l d) (seq 0 (length l)) = l.
Proof.
  induction l as [|a l IH]; [reflexivity|].
  cbn [length seq map nth]. f_equal.
  rewrite <- seq_shift, map_map. exact IH.
Qed.

Lemma below_half_grid (h j : nat) :
  (if Rlt_dec (INR j / INR (2 * S h)) (1 / 2) then true else false) =
  (j <? S h).
Proof.
  rewrite mult_INR. change (INR 2) with 2%R.
  assert (Hpos : (0 < INR (S h))%R) by (apply lt_0_INR; lia).
  assert (E : INR j = (INR j / (2 * INR (S h)) * (2 * INR (S h)))%R)
    by (field; lra).
  destruct (Rlt_dec _ _) as [Hlt|Hge], (Nat.ltb_spec j (S h)) as [Hj|Hj];
    try reflexivity; exfalso.
  - apply le_INR in Hj.
    apply (Rmult_lt_compat_r (2 * INR (S h))) in Hlt; [|lra].
    rewrite <- E in Hlt. lra.
  - apply lt_INR in Hj. apply Hge.
    apply (Rmult_lt_reg_r (2 * INR (S h))); [lra|].
    rewrite <- E. lra.
Qed.

Lemma variates_below_grid (h : nat) (js : list nat) :
  variates_below (1 / 2) (length js) (grid_source (2 * S h) js) =
  numerators_below (S h) js.
Proof.
  unfold variates_below, numerators_below, grid_source.
  rewrite <- (map_map (fun k => nth k js 0)
                      (fun j => (INR j / INR (2 * S h))%R)).
  rewrite map_seq_nth, length_filter_map. f_equal.
  apply filter_ext. intros j. apply below_half_grid.
Qed.

Lemma Rsum_scale_r (f : nat -> R) (c : R) (n : nat) :
  (Rsum f n * c)%R = Rsum (fun j => f j * c)%R n.
Proof. induction n as [|n IH]; cbn [Rsum]; [ring|rewrite <- IH; ring]. Qed.

Lemma INR_list_sum_seq (g : nat -> nat) (lo m : nat) :
  INR (list_sum (map g (seq lo m))) = Rsum (fun j => INR (g (lo + j))) m.
Proof.
  induction m as [|m IH]; [reflexivity|].
  rewrite seq_S, map_app, list_sum_app, plus_INR, IH.
  cbn [map Rsum]. now rewrite list_sum_one.
Qed.

(** An event that holds exactly when the number of variates in the
    lower half of the grid lies in a range has the binomial
    probability of the range. *)
Lemma probability_range (h n lo m : nat) (event : (nat -> R) -> bool) :
  lo + m <= S n ->
  (forall js, In js (grid_sources (2 * S h) n) ->
     event (grid_source (2 * S h) js) =
     (lo <=? numerators_below (S h) js) &&
     (numerators_below (S h) js <? lo + m)) ->
  probability (2 * S h) n event =
  Rsum (fun j => shots_law n (1 / 2) (lo + j)) m.
Proof.
  intros Hm He. unfold probability, favourable.
  rewrite (filter_ext_in _ _ _ He), length_filter_range.
  rewrite (map_ext _ (fun k => choose n k * S h ^ n))
    by (intros k; apply grid_count).
  rewrite INR_list_sum_seq. unfold Rdiv. rewrite Rsum_scale_r.
  apply Rsum_ext. intros j Hj. unfold shots_law.
  rewrite Rmult_assoc, half_powers by lia.
  rewrite binomial_choose, <- INR_IZR_INZ.
  rewrite mult_INR, !pow_INR, mult_INR. change (INR 2) with 2%R.
  rewrite Rpow_mult_distr.
  assert (H2 : (2 ^ n <> 0)%R) by (apply pow_nonzero; lra).
  assert (Hh : (INR (S h) ^ n <> 0)%R).
  { apply pow_nonzero. apply not_0_INR. lia. }
  replace ((1 / 2) ^ n)%R with (/ 2 ^ n)%R.
  - field. split; assumption.
  - replace (1 / 2)%R with (/ 2)%R by lra. now rewrite pow_inv.
Qed.
(** On a source of the grid the counts of 00 and of 11 lie between 450
    and 550 exactly when the number of variates in the lower half
    does. *)
Lemma bell_band_event (h : nat) (js : list nat) :
  In js (grid_sources (2 * S h) 1000) ->
  let run := Entanglement.counts (grid_source (2 * S h) js) in
  let below := numerators_below (S h) js in
  count_in_band "00" 450 550 run = (450 <=? below) && (below <? 450 + 101)
  /\
  count_in_band "11" 450 550 run = (450 <=? below) && (below <? 450 + 101).
Proof.
  intros Hjs. apply grid_sources_spec in Hjs as [Hlen _].
  cbv zeta. rewrite bell_counts_run. unfold count_in_band.
  destruct (bell_counts 1000 (grid_source (2 * S h) js))
    as (_ & _ & _ & Hsum & H00).
  rewrite <- Hlen in H00 at 2. rewrite variates_below_grid in H00.
  set (counts := AerSimulator_run bell_circuit 1000 _) in *.
  set (below := numerators_below (S h) js) in *.
  assert (H11 : get counts "11" = 1000 - below) by lia.
  assert (Hle : below <= 1000) by lia.
  rewrite H00, H11. clearbody below. clear.
  split.
  - destruct (Nat.leb_spec 450 below), (Nat.leb_spec below 550),
             (Nat.ltb_spec below (450 + 101)); try reflexivity; lia.
  - destruct (Nat.leb_spec 450 (1000 - below)),
             (Nat.leb_spec (1000 - below) 550),
             (Nat.leb_spec 450 below),
             (Nat.ltb_spec below (450 + 101)); try reflexivity; lia.
Qed.

(** C2: the script's circuit is H on qubit 0, CNOT from 0 to 1 and a
    measurement of both qubits, and its outcome distribution gives 00
    and 11 probability 1/2 each and 01 and 10 probability 0.  For every
    random source the histogram of the 1000 shots holds no key other
    than 00 and 11, the counts of 01 and 10 are 0, the count of 00 is
    the number of shots whose variate is below 1/2 and the count of 11
    the number of the other shots.  Under a uniform random source, on
    every grid of an even number M of equally likely variates, the
    share of the M^1000 sources of 1000 shots for which the count of 00
    lies between 450 and 550 is the binomial probability of that band,
    and so is the share for the count of 11; this probability is above
    0.998. *)
Theorem bell_state_histogram :
  exists qc : CircuitModel,
    Entanglement.circuit = Ok qc /\
    operations qc = [Named Hadamard 0; CNOT 0 1] /\
    measurements qc = [(0, 0); (1, 1)] /\
    map (bitstring (num_clbits qc)) [0; 1; 2; 3] =
      ["00"; "01"; "10"; "11"]%string /\
    (let p := outcome_prob (measurements qc) (simulate qc) in
     p 0 = (1 / 2)%R /\ p 1 = 0%R /\ p 2 = 0%R /\ p 3 = (1 / 2)%R) /\
    (forall rng : nat -> R,
       exists counts : list (string * nat),
         Entanglement.counts rng = Ok counts /\
         Forall (fun kv => fst kv = "00"%string \/ fst kv = "11"%string)
                counts /\
         get counts "01" = 0 /\ get counts "10" = 0 /\
         get counts "00" = variates_below (1 / 2) 1000 rng /\
         get counts "11" = 1000 - variates_below (1 / 2) 1000 rng /\
         get counts "00" + get counts "11" = 1000) /\
    (forall h : nat,
       length (grid_sources (2 * S h) 1000) = (2 * S h) ^ 1000 /\
       probability (2 * S h) 1000
         (fun rng => count_in_band "00" 450 550 (Entanglement.counts rng)) =
       band_probability 1000 (1 / 2) 450 550 /\
       probability (2 * S h) 1000
         (fun rng => count_in_band "11" 450 550 (Entanglement.counts rng)) =
       band_probability 1000 (1 / 2) 450 550) /\
    (998 / 1000 < band_probability 1000 (1 / 2) 450 550)%R.
Proof.
  exists bell_circuit.
  split; [reflexivity|]. split; [reflexivity|]. split; [reflexivity|].
  split; [reflexivity|].
  split; [exact bell_distribution|].
  split; [|split; [|exact band_half]].
  - intros rng. exists (AerSimulator_run bell_circuit 1000 rng).
    destruct (bell_counts 1000 rng) as (H1 & H2 & H3 & H4 & H5).
    split; [apply bell_counts_run|].
    split; [exact H1|]. split; [exact H2|]. split; [exact H3|].
    split; [exact H5|]. split; [|exact H4].
    rewrite <- H5. rewrite <- H4 at 2. lia.
  - intros h. unfold band_probability.
    change (550 - 450 + 1) with 101.
    split; [apply grid_sources_length|].
    split; apply probability_range; try lia; intros js Hjs;
      apply (bell_band_event h js Hjs).
Qed.

(* ----------------------------------------------------------------- *)
(** ** The sampled histogram as a function of the random source *)











